(** * The tree-pattern query and join engine of [wiktionary/collection/collect.py]

    A shallow embedding of [search_values], [consolidate_results],
    [is_valid_entry] and [search_triples], and the properties of the
    pattern evaluator, the join and the pattern-group extractor.

    Conventions of the embedding:
    - a Python [str] is a [string] holding its UTF-8 encoding, so that [==]
      is equality and the order of [sorted] is the byte-wise order;
    - a [dict] is a [gmap], a [set] a [gset], a [list] and a [tuple] a [list];
    - list indices (the values of [Bindings]) are natural numbers;
    - an exception is a [Raise] outcome, a call of [warn] an entry in a trace;
    - library functions that need the Unicode tables or the regular
      expression engine are variables of the section that uses them. *)

From Stdlib Require Import Ascii.
From stdpp Require Import gmap strings list fin_maps sorting.

#[local] Set Warnings "-register-all".
#[local] Open Scope string_scope.
#[local] Open Scope nat_scope.
#[local] Open Scope list_scope.
#[local] Open Scope stdpp_scope.

(** ** Values parsed by [json.loads] *)

Inductive json :=
  | JNull
  | JBool (b : bool)
  | JNum (z : Z)
  | JStr (s : string)
  | JList (items : list json)
  | JDict (d : gmap string json).

(** ** Exceptions and warnings *)

Inductive exn := AssertionError | KeyError | ValueError.

Inductive outcome (A : Type) :=
  | Ok (a : A)
  | Raise (e : exn).
Arguments Ok {A} a.
Arguments Raise {A} e.

#[export] Instance outcome_ret : MRet outcome := fun A a => Ok a.
#[export] Instance outcome_bind : MBind outcome := fun A B f m =>
  match m with
  | Ok a => f a
  | Raise e => Raise e
  end.

(** A computation that may call [warn]: the nodes warned about, in the order
    of the calls (up to the exception, when one is raised), and the outcome. *)
Record traced (A : Type) := Traced { warnings : list json; result : outcome A }.
Arguments Traced {A} warnings result.
Arguments warnings {A} t.
Arguments result {A} t.

#[export] Instance traced_ret : MRet traced := fun A a => Traced [] (Ok a).
#[export] Instance traced_bind : MBind traced := fun A B f m =>
  match result m with
  | Ok a => Traced (warnings m ++ warnings (f a)) (result (f a))
  | Raise e => Traced (warnings m) (Raise e)
  end.

Definition warn (node : json) : traced unit := Traced [node] (Ok tt).
Definition raise {A} (e : exn) : traced A := Traced [] (Raise e).
Definition lift {A} (o : outcome A) : traced A := Traced [] o.

(** [[y for x in xs for y in f x]] *)
Fixpoint for_each {A B} (f : A → traced (list B)) (xs : list A) : traced (list B) :=
  match xs with
  | [] => mret []
  | x :: rest => ys ← f x; ys' ← for_each f rest; mret (ys ++ ys')
  end.

(** [[y for index, item in enumerate(items, start) for y in f index item]] *)
Fixpoint for_each_indexed {A B} (f : nat → A → traced (list B))
    (start : nat) (items : list A) : traced (list B) :=
  match items with
  | [] => mret []
  | item :: rest =>
      ys ← f start item; ys' ← for_each_indexed f (S start) rest; mret (ys ++ ys')
  end.

(** [[f x for x in xs]] *)
Fixpoint traced_map {A B} (f : A → traced B) (xs : list A) : traced (list B) :=
  match xs with
  | [] => mret []
  | x :: rest => y ← f x; ys ← traced_map f rest; mret (y :: ys)
  end.

Fixpoint outcome_map {A B} (f : A → outcome B) (xs : list A) : outcome (list B) :=
  match xs with
  | [] => mret []
  | x :: rest => y ← f x; ys ← outcome_map f rest; mret (y :: ys)
  end.

(** [[y for x in xs for y in f x]] where [f] may raise *)
Fixpoint outcome_concat_map {A B} (f : A → outcome (list B)) (xs : list A)
    : outcome (list B) :=
  match xs with
  | [] => mret []
  | x :: rest => ys ← f x; ys' ← outcome_concat_map f rest; mret (ys ++ ys')
  end.

(** ** Strings *)

(** A byte [10xxxxxx] continues the character started before it. *)
Definition is_continuation (a : ascii) : bool :=
  let n := nat_of_ascii a in (128 <=? n) && (n <? 192).

(** The characters of a [str], each as a [str] of length one. *)
Fixpoint characters (text : string) : list string :=
  match text with
  | "" => []
  | String a rest =>
      match rest with
      | String b _ =>
          if is_continuation b then
            match characters rest with
            | c :: cs => String a c :: cs
            | [] => [String a ""]
            end
          else String a "" :: characters rest
      | "" => [String a ""]
      end
  end.

(** [len(text)] *)
Definition len (text : string) : nat := length (characters text).

(** [text.split(sep)] for a separator of one ASCII character *)
Fixpoint split (sep : ascii) (text : string) : list string :=
  match text with
  | "" => [""]
  | String a rest =>
      if Ascii.eqb a sep then "" :: split sep rest
      else match split sep rest with
           | piece :: pieces => String a piece :: pieces
           | [] => [String a ""]
           end
  end.

(** [bool(text)] *)
Definition truthy (text : string) : bool := negb (String.eqb text "").

(** ** Constants and types of the module *)

Definition MAX_NON_COMBINING_LENGTH : nat := 20.
Definition NORMALIZATION_FORM : string := "NFD".
Definition SEARCH_PATTERN_DELIMITER : ascii := "/"%char.

Abbreviation Entry := (string * string * string)%type (only parsing).
Abbreviation SearchPattern := string (only parsing).
Abbreviation SearchPatterns :=
  (SearchPattern * SearchPattern * SearchPattern * list (SearchPattern * string))%type
  (only parsing).
Abbreviation Bindings := (gmap string nat) (only parsing).
Abbreviation SearchResult := (string * Bindings)%type (only parsing).
Abbreviation SearchResults := (list SearchResult) (only parsing).
Abbreviation ConsolidatedResult := (list string) (only parsing).
Abbreviation ConsolidatedResults := (list (list string)) (only parsing).

(** ** The join: [consolidate_results] *)

Abbreviation ordered_variables_t := (list string) (only parsing).
Abbreviation ordered_values_t := (list nat) (only parsing).
Abbreviation index_t := (gmap (list nat) SearchResults) (only parsing).

(** [tuple(bindings[variable] for variable in variables)]; a variable that
    [bindings] lacks raises [KeyError]. *)
Definition extract_values (bindings : Bindings) (variables : ordered_variables_t)
    : outcome ordered_values_t :=
  outcome_map (fun variable =>
    match bindings !! variable with
    | Some value => Ok value
    | None => Raise KeyError
    end) variables.

(** [sorted(variables)] *)
Definition sorted (variables : gset string) : ordered_variables_t :=
  merge_sort String.leb (elements variables).

(** [index[values].append(result)] on a [defaultdict(list)] *)
Definition index_append (index : index_t) (values : ordered_values_t)
    (result : SearchResult) : index_t :=
  <[values := default [] (index !! values) ++ [result]]> index.

(** The inner loop [for result in position_results] that fills [index]. *)
Fixpoint build_index (intersecting_variables : ordered_variables_t)
    (position_results : SearchResults) (index : index_t) : outcome index_t :=
  match position_results with
  | [] => Ok index
  | result :: rest =>
      values ← extract_values result.2 intersecting_variables;
      build_index intersecting_variables rest (index_append index values result)
  end.

(** [set(bindings.keys()) for (_, bindings), *_ in results]: the variables of
    the first result of a position.  The caller has checked [all(results)],
    so every position has a first result. *)
Definition position_variables_of (position_results : SearchResults) : gset string :=
  match position_results with
  | (_, bindings) :: _ => dom bindings
  | [] => ∅
  end.

(** The loop over the positions; it yields [zip(indices, intersections)]. *)
Fixpoint build_indices (results : list SearchResults) (cumulative : gset string)
    : outcome (list (index_t * ordered_variables_t)) :=
  match results with
  | [] => Ok []
  | position_results :: rest =>
      let position_variables := position_variables_of position_results in
      let intersecting_variables := sorted (cumulative ∩ position_variables) in
      let cumulative := cumulative ∪ position_variables in
      index ← build_index intersecting_variables position_results ∅;
      indexed ← build_indices rest cumulative;
      Ok ((index, intersecting_variables) :: indexed)
  end.

(** [consolidate_recursively(position, current, bindings)]; [remaining] is
    [zip(indices, intersections)[position:]], empty when
    [position == len(results)], and the value is what the call appends to
    [consolidated].  [{**bindings, **position_bindings}] is the union in which
    [position_bindings] wins. *)
Fixpoint consolidate_recursively (remaining : list (index_t * ordered_variables_t))
    (current : ConsolidatedResult) (bindings : Bindings) : outcome ConsolidatedResults :=
  match remaining with
  | [] => Ok [current]
  | (index, intersection) :: remaining' =>
      values ← extract_values bindings intersection;
      outcome_concat_map (fun '(item, position_bindings) =>
          consolidate_recursively remaining' (current ++ [item])
            (position_bindings ∪ bindings))
        (default [] (index !! values))
  end.

(** [all(results)]: no position is an empty list *)
Definition all_nonempty (results : list SearchResults) : bool :=
  forallb (fun position_results =>
    match position_results with [] => false | _ => true end) results.

Definition consolidate_results (results : list SearchResults)
    : outcome ConsolidatedResults :=
  if negb (all_nonempty results) then Ok []
  else
    indexed ← build_indices results ∅;
    consolidate_recursively indexed [] ∅.

(** ** The pattern evaluator and the extractor *)

Section Collect.

(** Library functions: [str.isupper], [unicodedata.normalize],
    [unicodedata.combining] (on a string of one character), [re.sub] and
    [re.fullmatch] (on the source text of a compiled pattern, the flag
    [re.IGNORECASE] given apart) and [str.strip]. *)
Variable isupper : string → bool.
Variable unicodedata_normalize : string → string → string.
Variable unicodedata_combining : string → nat.
Variable re_sub : string → string → string → string.
Variable re_fullmatch : string → bool → string → bool.
Variable strip : string → string.

Definition is_variable_name (text : string) : bool :=
  (len text =? 1) && isupper text.

Definition is_none (node : json) : bool :=
  match node with JNull => true | _ => false end.

Definition is_str (node : json) : bool :=
  match node with JStr _ => true | _ => false end.

Fixpoint search_recursively (silently_ignore_none : bool) (path : list string)
    (node : json) (bindings : Bindings) : traced SearchResults :=
  match path with
  | key :: path_tail =>
      if is_variable_name key then
        if decide (key ∈ dom bindings) then raise AssertionError
        else
          match node with
          | JList items =>
              for_each_indexed (fun index item =>
                  search_recursively silently_ignore_none path_tail item
                    (<[key := index]> bindings))
                0 items
          | _ => mret []
          end
      else
        match node with
        | JDict d =>
            match d !! key with
            | Some value =>
                search_recursively silently_ignore_none path_tail value bindings
            | None => mret []
            end
        | _ => mret []
        end
  | [] =>
      match node with
      | JStr s => mret [(s, bindings)]
      | _ =>
          _ ← (if negb (silently_ignore_none && is_none node) then warn node
               else mret tt);
          mret []
      end
  end.

Definition search_values (pattern : SearchPattern) (data : json)
    (silently_ignore_none : bool) : traced SearchResults :=
  search_recursively silently_ignore_none
    (split SEARCH_PATTERN_DELIMITER pattern) data ∅.

(** *** Normalization and validation *)

Definition NORMALIZATION_REPLACEMENTS : list (string * string) :=
  [("^[\u200e\u200f]+", ""); ("[\u200e\u200f]+$", ""); ("\s+", " ")].

Definition LATIN_PATTERN : string := "[a-z -]".

Definition EXTRA_WORD_NORMALIZATION_RULES : gmap string (list (string * string)) :=
  {[ "ja" := [(" ?\([^)]*\)", "")] ]}.

Definition normalize (text : string) : string :=
  strip (foldl (fun text '(pattern, replacement) => re_sub pattern replacement text)
           (unicodedata_normalize NORMALIZATION_FORM text)
           NORMALIZATION_REPLACEMENTS).

Definition extra_normalize_word (word language : string) : string :=
  foldl (fun word '(pattern, replacement) => re_sub pattern replacement word)
    word (default [] (EXTRA_WORD_NORMALIZATION_RULES !! language)).

Definition combining (character : string) : bool :=
  negb (unicodedata_combining character =? 0).

Definition count_non_combining_characters (text : string) : nat :=
  length (filter (fun character => combining character = false) (characters text)).

Definition is_valid_entry (entry : Entry) (is_ipa : bool) : bool :=
  let '(language, word, romanization) := entry in
  (truthy language && truthy word && truthy romanization)
  && (is_ipa
      || (forallb (fun text =>
                     count_non_combining_characters text <=? MAX_NON_COMBINING_LENGTH)
            [word; romanization]
          && negb (forallb (fun character =>
                      combining character || re_fullmatch LATIN_PATTERN true character)
                    (characters word)))).

(** *** [search_triples] *)

(** [*_, language, word, romanization = t]; a tuple of fewer than three
    components raises [ValueError]. *)
Definition last_three (t : ConsolidatedResult) : outcome Entry :=
  match reverse t with
  | romanization :: word :: language :: _ => Ok (language, word, romanization)
  | _ => Raise ValueError
  end.

(** The list [condition_results] of [search_triples]: per condition, the
    results of its pattern whose value is the required one. *)
Definition search_conditions (conditions : list (SearchPattern * string))
    (data : json) : traced (list SearchResults) :=
  traced_map (fun '(pattern, required) =>
      found ← search_values pattern data false;
      mret (filter (fun r : SearchResult => r.1 = required) found))
    conditions.

Definition search_triples (patterns : SearchPatterns) (data : json) (is_ipa : bool)
    : traced (list Entry) :=
  let '(language_pattern, word_pattern, romanization_pattern, conditions) := patterns in
  condition_results ← search_conditions conditions data;
  languages ← search_values language_pattern data true;
  words ← search_values word_pattern data false;
  romanizations ← search_values romanization_pattern data false;
  consolidated ← lift (consolidate_results
                         (condition_results ++ [languages; words; romanizations]));
  for_each (fun t =>
      '(language, word, romanization) ← lift (last_three t);
      let entry := (language, extra_normalize_word (normalize word) language,
                    normalize romanization) in
      mret (if is_valid_entry entry is_ipa then [entry] else []))
    consolidated.

End Collect.

(** ** Sample instances of the library functions

    On ASCII text [str.isupper] holds when the text has an upper-case letter
    and no lower-case one.  The other functions are only applied, in the
    examples below, to words that are normalized already, hold no combining
    mark and no parenthesis, no mark to strip and no white space but single
    spaces; [sample_strip] is for the words that neither start nor end with
    a space, [space_strip] for the others. *)

Definition ascii_isupper (text : string) : bool :=
  let codes := map nat_of_ascii (String.list_ascii_of_string text) in
  existsb (fun n => (65 <=? n) && (n <=? 90)) codes
  && forallb (fun n => negb ((97 <=? n) && (n <=? 122))) codes.

Definition sample_normalize (form text : string) : string := text.
Definition sample_combining (character : string) : nat := 0.
Definition sample_re_sub (pattern replacement text : string) : string := text.
Definition sample_re_fullmatch (pattern : string) (ignorecase : bool)
    (character : string) : bool :=
  match String.list_ascii_of_string character with
  | [a] =>
      let n := nat_of_ascii a in
      ((65 <=? n) && (n <=? 90)) || ((97 <=? n) && (n <=? 122))
      || (n =? 32) || (n =? 45)
  | _ => false
  end.
Definition sample_strip (text : string) : string := text.

Definition sample_forms : json :=
  JDict {[ "lang_code" := JStr "ja";
           "word" := JStr "日本";
           "forms" := JList [JDict {[ "form" := JStr "にほん"; "roman" := JStr "nihon" ]};
                             JDict {[ "form" := JStr "abc"; "roman" := JStr "abc" ]};
                             JDict {[ "form" := JStr "ほ"; "roman" := JStr "" ]}] ]}.

Definition sample_tagged : json :=
  JDict {[ "lang_code" := JStr "ja";
           "word" := JStr "日本";
           "forms" := JList [JDict {[ "form" := JStr "nihon";
                                      "tags" := JList [JStr "slang"] ]}] ]}.




(** * Properties *)

(** ** The two monads *)

Lemma traced_bind_ok {A B} (m : traced A) (f : A → traced B) w a :
  m = Traced w (Ok a) →
  m ≫= f = Traced (w ++ warnings (f a)) (result (f a)).
Proof. intros ->. reflexivity. Qed.

Lemma traced_bind_raise {A B} (m : traced A) (f : A → traced B) w e :
  m = Traced w (Raise e) → m ≫= f = Traced w (Raise e).
Proof. intros ->. reflexivity. Qed.

Lemma traced_eta {A} (m : traced A) : m = Traced (warnings m) (result m).
Proof. by destruct m. Qed.

Lemma result_bind {A B} (m : traced A) (f : A → traced B) :
  result (m ≫= f) = match result m with
                    | Ok a => result (f a)
                    | Raise e => Raise e
                    end.
Proof. destruct m as [w [a|e]]; reflexivity. Qed.

Lemma result_ret {A} (a : A) : result (mret a : traced A) = Ok a.
Proof. reflexivity. Qed.

Lemma result_lift {A} (o : outcome A) : result (lift o) = o.
Proof. reflexivity. Qed.

(** ** The join *)

Lemma all_nonempty_false (results : list SearchResults) :
  [] ∈ results → all_nonempty results = false.
Proof.
  induction results as [|position_results rest IH]; intros Hin.
  - by apply not_elem_of_nil in Hin.
  - apply elem_of_cons in Hin as [<-|Hin]; [done|].
    simpl. rewrite (IH Hin). by destruct position_results.
Qed.

(** C4. When one of the input sequences is empty, [consolidate_results]
    returns the empty sequence, whatever the other sequences hold. *)
Theorem consolidate_results_empty_input (results : list SearchResults) :
  [] ∈ results → consolidate_results results = Ok [].
Proof.
  intros Hin. unfold consolidate_results.
  by rewrite (all_nonempty_false _ Hin).
Qed.

Lemma consolidate_results_empty_input_witness :
  consolidate_results
    [[("cats", {["N" := 0]})]; []; [("plural", {["N" := 0; "M" := 0]})]] = Ok [].
Proof.
  apply (consolidate_results_empty_input
           [[("cats", {["N" := 0]})]; []; [("plural", {["N" := 0; "M" := 0]})]]).
  apply list_elem_of_further, list_elem_of_here.
Defined.

(** C10. Called with no input sequence at all, [consolidate_results] returns
    the sequence whose only element is the empty tuple. *)
Theorem consolidate_results_no_input : consolidate_results [] = Ok [[]].
Proof. reflexivity. Qed.

(** *** Projections of bindings *)

#[export] Instance exn_eq_dec : EqDecision exn.
Proof. solve_decision. Defined.

#[export] Instance outcome_eq_dec {A} `{EqDecision A} : EqDecision (outcome A).
Proof. solve_decision. Defined.

(** Two bindings agree on a set of variables. *)
Definition agree_on (shared : gset string) (b1 b2 : Bindings) : Prop :=
  set_Forall (fun variable => b1 !! variable = b2 !! variable) shared.

#[export] Instance agree_on_dec shared b1 b2 : Decision (agree_on shared b1 b2).
Proof. unfold agree_on. apply _. Defined.

(** The tuple of the values of a pair of results. *)
Definition pair_values (p : SearchResult * SearchResult) : ConsolidatedResult :=
  [p.1.1; p.2.1].

Lemma extract_values_nil (bindings : Bindings) : extract_values bindings [] = Ok [].
Proof. reflexivity. Qed.

Lemma extract_values_cons (bindings : Bindings) (variable : string)
    (variables : ordered_variables_t) :
  extract_values bindings (variable :: variables)
  = match bindings !! variable with
    | Some value =>
        match extract_values bindings variables with
        | Ok values => Ok (value :: values)
        | Raise e => Raise e
        end
    | None => Raise KeyError
    end.
Proof.
  unfold extract_values. cbn [outcome_map].
  destruct (bindings !! variable); [|done].
  unfold mbind, outcome_bind. by destruct (outcome_map _ variables).
Qed.

Lemma extract_values_is_Ok (bindings : Bindings) (variables : ordered_variables_t) :
  (∀ variable, variable ∈ variables → variable ∈ dom bindings) →
  ∃ values, extract_values bindings variables = Ok values.
Proof.
  induction variables as [|variable variables IH]; intros Hdom.
  - by exists [].
  - rewrite extract_values_cons.
    destruct (proj1 (elem_of_dom bindings variable)
                (Hdom variable (list_elem_of_here _ _))) as [value ->].
    destruct IH as [values ->];
      [intros; apply Hdom; by apply list_elem_of_further|].
    by eexists.
Qed.

Lemma extract_values_eq (b1 b2 : Bindings) (variables : ordered_variables_t) :
  (∀ variable, variable ∈ variables → variable ∈ dom b1) →
  extract_values b2 variables = extract_values b1 variables
  ↔ ∀ variable, variable ∈ variables → b1 !! variable = b2 !! variable.
Proof.
  induction variables as [|variable variables IH]; intros Hdom.
  - split; [|done]. intros _ variable Hin. by apply not_elem_of_nil in Hin.
  - assert (∀ v, v ∈ variables → v ∈ dom b1) as Hdom'
      by (intros; apply Hdom; by apply list_elem_of_further).
    specialize (IH Hdom').
    destruct (extract_values_is_Ok b1 variables Hdom') as [values1 Hvalues1].
    rewrite !extract_values_cons.
    destruct (proj1 (elem_of_dom b1 variable)
                (Hdom variable (list_elem_of_here _ _))) as [value1 Hvalue1].
    rewrite Hvalue1, Hvalues1. rewrite Hvalues1 in IH. split.
    + intros Heq v Hin. apply elem_of_cons in Hin as [->|Hin].
      * rewrite Hvalue1. destruct (b2 !! variable); [|done].
        destruct (extract_values b2 variables); congruence.
      * apply IH; [|done]. destruct (b2 !! variable); [|done].
        destruct (extract_values b2 variables); congruence.
    + intros Hall. rewrite <-(Hall variable), Hvalue1 by apply list_elem_of_here.
      destruct IH as [_ ->]; [done|].
      intros v Hin. apply Hall. by apply list_elem_of_further.
Qed.

Lemma elem_of_sorted (variable : string) (variables : gset string) :
  variable ∈ sorted variables ↔ variable ∈ variables.
Proof.
  unfold sorted. by rewrite merge_sort_Permutation, elem_of_elements.
Qed.

Lemma sorted_empty : sorted ∅ = [].
Proof.
  unfold sorted. apply Permutation_nil_r.
  by rewrite merge_sort_Permutation, elements_empty.
Qed.

(** *** The index of a position *)

Lemma filter_ext_in {A} (P Q : A → Prop) `{∀ x, Decision (P x)}
    `{∀ x, Decision (Q x)} (l : list A) :
  (∀ x, x ∈ l → P x ↔ Q x) → filter P l = filter Q l.
Proof.
  induction l as [|x l IH]; intros Hext; [done|].
  rewrite !filter_cons, IH by (intros; apply Hext; by apply list_elem_of_further).
  destruct (decide (P x)) as [HP|HP], (decide (Q x)) as [HQ|HQ]; try done;
    destruct (Hext x (list_elem_of_here _ _)); tauto.
Qed.

Lemma filter_all {A} (P : A → Prop) `{∀ x, Decision (P x)} (l : list A) :
  (∀ x, x ∈ l → P x) → filter P l = l.
Proof.
  induction l as [|x l IH]; intros HP; [done|].
  rewrite filter_cons_True by apply HP, list_elem_of_here.
  f_equal. apply IH. intros. by apply HP, list_elem_of_further.
Qed.

(** The bucket of [values] holds, in their order, the results of the position
    whose bindings project to [values]; a key never filled has no bucket,
    and reading it yields the empty list. *)
Lemma build_index_buckets (intersecting_variables : ordered_variables_t)
    (position_results : SearchResults) (index : index_t) :
  (∀ r, r ∈ position_results →
     ∀ variable, variable ∈ intersecting_variables → variable ∈ dom r.2) →
  ∃ index',
    build_index intersecting_variables position_results index = Ok index'
    ∧ ∀ values,
        default [] (index' !! values)
        = default [] (index !! values)
          ++ filter (fun r => extract_values r.2 intersecting_variables = Ok values)
               position_results.
Proof.
  revert index. induction position_results as [|r rest IH]; intros index Hdom.
  - exists index. split; [done|]. intros values. by rewrite app_nil_r.
  - cbn [build_index].
    destruct (extract_values_is_Ok r.2 intersecting_variables
                (Hdom r (list_elem_of_here _ _))) as [values_r Hvalues_r].
    rewrite Hvalues_r. cbn [mbind outcome_bind].
    destruct (IH (index_append index values_r r)) as (index' & -> & Hbuckets);
      [intros; apply Hdom; [by apply list_elem_of_further|done]|].
    exists index'. split; [done|]. intros values.
    rewrite Hbuckets, filter_cons, Hvalues_r. unfold index_append.
    destruct (decide (values_r = values)) as [->|Hne].
    + rewrite lookup_insert_eq, decide_True by done. simpl.
      by rewrite <-app_assoc.
    + rewrite lookup_insert_ne, decide_False by congruence. done.
Qed.

(** *** The join of two positions *)

Lemma outcome_concat_map_Ok {A B} (f : A → outcome (list B)) (g : A → list B)
    (xs : list A) :
  (∀ x, x ∈ xs → f x = Ok (g x)) →
  outcome_concat_map f xs = Ok (concat (map g xs)).
Proof.
  induction xs as [|x rest IH]; intros Hf; [done|].
  cbn [outcome_concat_map map concat].
  rewrite Hf, IH by (try apply list_elem_of_here; intros;
                     apply Hf; by apply list_elem_of_further).
  reflexivity.
Qed.

Lemma filter_list_prod {A B} (P : A * B → Prop) `{∀ p, Decision (P p)}
    (f : A * B → list string) (xs : list A) (ys : list B) :
  concat (map (fun x => map (fun y => f (x, y)) (filter (fun y => P (x, y)) ys)) xs)
  = map f (filter P (list_prod xs ys)).
Proof.
  induction xs as [|x xs IH]; [done|].
  cbn [map concat list_prod]. rewrite filter_app, map_app, IH. f_equal.
  clear IH. induction ys as [|y ys IH]; [done|].
  cbn [map]. rewrite !filter_cons. destruct (decide (P (x, y))); cbn [map];
    by rewrite IH.
Qed.

Lemma all_nonempty_two (A B : SearchResults) :
  A ≠ [] → B ≠ [] → all_nonempty [A; B] = true.
Proof. by destruct A, B. Qed.

(** Two positions, each of whose results binds the variables that the first
    results of the two positions share: the join is the product of the two
    positions, in nested order, filtered by agreement on those variables. *)
Lemma consolidate_results_two (A B : SearchResults) :
  A ≠ [] → B ≠ [] →
  let shared := position_variables_of A ∩ position_variables_of B in
  (∀ a, a ∈ A → shared ⊆ dom a.2) →
  (∀ b, b ∈ B → shared ⊆ dom b.2) →
  consolidate_results [A; B]
  = Ok (map pair_values
          (filter (fun p => agree_on shared p.1.2 p.2.2) (list_prod A B))).
Proof.
  intros HA HB shared HdomA HdomB. unfold consolidate_results.
  rewrite all_nonempty_two by done. cbn [negb build_indices].
  rewrite (left_absorb_L ∅ (∩)), sorted_empty, (left_id_L ∅ (∪)).
  fold shared.
  destruct (build_index_buckets [] A ∅) as (iA & -> & HiA);
    [by intros ? _ ? ?%not_elem_of_nil|].
  destruct (build_index_buckets (sorted shared) B ∅) as (iB & -> & HiB);
    [intros b Hb v Hv%elem_of_sorted; by apply (HdomB b Hb)|].
  cbn [mbind outcome_bind consolidate_recursively].
  rewrite extract_values_nil. cbn [mbind outcome_bind].
  rewrite HiA, lookup_empty. cbn [default app].
  rewrite filter_all by done.
  rewrite <-(filter_list_prod (fun p => agree_on shared p.1.2 p.2.2) pair_values).
  apply outcome_concat_map_Ok. intros [item pa] Ha.
  rewrite (right_id_L ∅ (∪)).
  destruct (extract_values_is_Ok pa (sorted shared)) as [values Hvalues];
    [intros v Hv%elem_of_sorted; by apply (HdomA _ Ha)|].
  rewrite Hvalues. cbn [mbind outcome_bind].
  rewrite HiB, lookup_empty. cbn [default app].
  rewrite (outcome_concat_map_Ok _ (fun b => [pair_values ((item, pa), b)]))
    by (by intros [item' pb] _).
  rewrite <-Hvalues. f_equal. clear Hvalues.
  rewrite (filter_ext_in _ (fun b => agree_on shared pa b.2) B).
  - induction (filter _ B) as [|b bs IH]; [done|]. cbn [map concat app].
    by rewrite IH.
  - intros b Hb. cbn [fst snd]. rewrite extract_values_eq
      by (intros v Hv%elem_of_sorted; by apply (HdomA _ Ha)).
    unfold agree_on, set_Forall. by setoid_rewrite elem_of_sorted.
Qed.

Lemma list_prod_nil_r {A B} (xs : list A) : list_prod xs ([] : list B) = [].
Proof. by induction xs. Qed.

Lemma consolidate_results_two_empty (A B : SearchResults) :
  A = [] ∨ B = [] →
  consolidate_results [A; B] = Ok [] ∧ list_prod A B = [].
Proof.
  intros Hempty. split.
  - unfold consolidate_results. rewrite all_nonempty_false; [done|].
    destruct Hempty as [-> | ->];
      [apply list_elem_of_here|apply list_elem_of_further, list_elem_of_here].
  - destruct Hempty as [-> | ->]; [done|apply list_prod_nil_r].
Qed.

Lemma position_variables_of_elem (A : SearchResults) (D : gset string) :
  A ≠ [] → (∀ a, a ∈ A → dom a.2 = D) → position_variables_of A = D.
Proof.
  destruct A as [|[item bindings] rest]; [done|]. intros _ HD.
  apply (HD (item, bindings)), list_elem_of_here.
Qed.

(** C2. Two sequences whose bindings share no variable name: the join is the
    full cartesian product of their values, in nested order, the first
    sequence outermost.  (It holds for empty sequences as well: the product
    is then empty.) *)
Theorem consolidate_results_no_shared_variable (A B : SearchResults) :
  (∀ a b, a ∈ A → b ∈ B → dom a.2 ## dom b.2) →
  consolidate_results [A; B] = Ok (map pair_values (list_prod A B)).
Proof.
  intros Hdisjoint.
  destruct (decide (A = [] ∨ B = [])) as [Hempty|Hnonempty].
  { destruct (consolidate_results_two_empty A B Hempty) as [-> ->]. done. }
  assert (A ≠ [] ∧ B ≠ []) as [HA HB] by (split; intros ->; tauto).
  assert (position_variables_of A ∩ position_variables_of B = ∅) as Hshared.
  { destruct A as [|[item_a pa] A'], B as [|[item_b pb] B']; try done.
    apply disjoint_intersection_L.
    apply (Hdisjoint (item_a, pa) (item_b, pb)); apply list_elem_of_here. }
  rewrite consolidate_results_two; try done.
  - rewrite Hshared, filter_all; [done|]. intros p _ v Hv. set_solver.
  - intros. rewrite Hshared. set_solver.
  - intros. rewrite Hshared. set_solver.
Qed.

Lemma consolidate_results_no_shared_variable_witness :
  consolidate_results
    [[("ja", ∅)]; [("cats", {["N" := 0]}); ("dogs", {["N" := 1]})]]
  = Ok (map pair_values
          (list_prod [("ja", (∅ : Bindings))]
             [("cats", {["N" := 0]}); ("dogs", {["N" := 1]})])).
Proof.
  apply (consolidate_results_no_shared_variable [("ja", ∅)]
           [("cats", {["N" := 0]}); ("dogs", {["N" := 1]})]).
  intros a b ->%list_elem_of_singleton _. simpl. rewrite dom_empty_L. set_solver.
Defined.

(** C1 (amended). Two sequences, each of which binds the same variables in
    all its results (as the results of one pattern do): the join is the
    product of their values, in nested order, restricted to the pairs whose
    bindings agree on every variable the two sequences share.  Hence no pair
    that disagrees on a shared variable [V] is emitted, and when [V] is the
    only shared variable the pairs emitted are exactly those that agree on
    [V]. *)
Theorem consolidate_results_shared_variables (A B : SearchResults)
    (DA DB : gset string) :
  (∀ a, a ∈ A → dom a.2 = DA) →
  (∀ b, b ∈ B → dom b.2 = DB) →
  ∃ consolidated,
    consolidate_results [A; B] = Ok consolidated
    ∧ consolidated
      = map pair_values
          (filter (fun p => agree_on (DA ∩ DB) p.1.2 p.2.2) (list_prod A B))
    ∧ (∀ V, V ∈ DA ∩ DB →
         ∀ t, t ∈ consolidated →
           ∃ a b, a ∈ A ∧ b ∈ B ∧ t = pair_values (a, b) ∧ a.2 !! V = b.2 !! V)
    ∧ (∀ V, DA ∩ DB = {[V]} →
         consolidated
         = map pair_values
             (filter (fun p => p.1.2 !! V = p.2.2 !! V) (list_prod A B))).
Proof.
  intros HDA HDB. eexists. split; [|split; [reflexivity|split]].
  - destruct (decide (A = [] ∨ B = [])) as [Hempty|Hnonempty].
    { destruct (consolidate_results_two_empty A B Hempty) as [-> ->]. done. }
    assert (A ≠ [] ∧ B ≠ []) as [HA HB] by (split; intros ->; tauto).
    rewrite consolidate_results_two; try done.
    + by rewrite (position_variables_of_elem A DA), (position_variables_of_elem B DB).
    + intros a Ha.
      rewrite (position_variables_of_elem A DA), (HDA a Ha) by done.
      apply intersection_subseteq_l.
    + intros b Hb.
      rewrite (position_variables_of_elem B DB), (HDB b Hb) by done.
      apply intersection_subseteq_r.
  - intros V HV t Ht.
    apply list_elem_of_fmap in Ht as ([a b] & -> & Hp).
    apply list_elem_of_filter in Hp as [Hagree Hp].
    apply list_elem_of_In, in_prod_iff in Hp as [Ha Hb].
    exists a, b. rewrite !list_elem_of_In. repeat split; try done.
    by apply Hagree.
  - intros V ->. f_equal. apply filter_ext_in. intros [a b] _.
    unfold agree_on. by rewrite set_Forall_singleton.
Qed.

Lemma consolidate_results_shared_variables_witness :
  ∃ consolidated,
    consolidate_results
      [[("cats", {["N" := 0]}); ("cat's", {["N" := 1]})];
       [("plural", {["N" := 0; "M" := 0]})]]
    = Ok consolidated
    ∧ consolidated
      = map pair_values
          (filter (fun p => agree_on ({["N"]} ∩ {["N"; "M"]}) p.1.2 p.2.2)
             (list_prod [("cats", {["N" := 0]}); ("cat's", {["N" := 1]})]
                [("plural", {["N" := 0; "M" := 0]})]))
    ∧ (∀ V, V ∈ ({["N"]} ∩ {["N"; "M"]} : gset string) →
         ∀ t, t ∈ consolidated →
           ∃ a b, a ∈ [("cats", ({["N" := 0]} : Bindings)); ("cat's", {["N" := 1]})]
                  ∧ b ∈ [("plural", ({["N" := 0; "M" := 0]} : Bindings))]
                  ∧ t = pair_values (a, b) ∧ a.2 !! V = b.2 !! V)
    ∧ (∀ V, ({["N"]} ∩ {["N"; "M"]} : gset string) = {[V]} →
         consolidated
         = map pair_values
             (filter (fun p => p.1.2 !! V = p.2.2 !! V)
                (list_prod [("cats", {["N" := 0]}); ("cat's", {["N" := 1]})]
                   [("plural", {["N" := 0; "M" := 0]})]))).
Proof.
  apply (consolidate_results_shared_variables
           [("cats", {["N" := 0]}); ("cat's", {["N" := 1]})]
           [("plural", {["N" := 0; "M" := 0]})] {["N"]} {["N"; "M"]}).
  - intros a Ha. repeat (apply elem_of_cons in Ha as [->|Ha]);
      [| |by apply not_elem_of_nil in Ha]; by vm_compute.
  - intros b Hb. repeat (apply elem_of_cons in Hb as [->|Hb]);
      [|by apply not_elem_of_nil in Hb]; by vm_compute.
Defined.

(** Two results that share [V] and [W] and agree on [V] only: the pair
    agrees on [V], and the join does not emit it. *)
Lemma consolidate_results_second_shared_variable :
  consolidate_results
    [[("text", {["N" := 0; "M" := 0]})]; [("roman", {["N" := 0; "M" := 1]})]]
  = Ok []
  ∧ map pair_values
      (filter (fun p => p.1.2 !! "N" = p.2.2 !! "N")
         (list_prod [("text", ({["N" := 0; "M" := 0]} : Bindings))]
            [("roman", ({["N" := 0; "M" := 1]} : Bindings))]))
    = [["text"; "roman"]].
Proof. split; reflexivity. Qed.

(** *** The length of the tuples *)

Lemma outcome_concat_map_Forall {A B} (f : A → outcome (list B)) (Q : B → Prop)
    (xs : list A) (zs : list B) :
  (∀ x ys, x ∈ xs → f x = Ok ys → Forall Q ys) →
  outcome_concat_map f xs = Ok zs → Forall Q zs.
Proof.
  revert zs. induction xs as [|x rest IH]; intros zs Hf Hzs.
  - injection Hzs as <-. constructor.
  - cbn [outcome_concat_map] in Hzs.
    destruct (f x) as [ys|] eqn:Hx; [|done].
    cbn [mbind outcome_bind] in Hzs.
    destruct (outcome_concat_map f rest) as [ys'|] eqn:Hrest; [|done].
    injection Hzs as <-. apply Forall_app. split.
    + apply (Hf x); [apply list_elem_of_here|done].
    + apply IH; [|done]. intros x' ys'' Hx'. apply Hf.
      by apply list_elem_of_further.
Qed.

Lemma build_indices_length (results : list SearchResults) (cumulative : gset string)
    (indexed : list (index_t * ordered_variables_t)) :
  build_indices results cumulative = Ok indexed → length indexed = length results.
Proof.
  revert cumulative indexed.
  induction results as [|position_results rest IH]; intros cumulative indexed Hb.
  - by injection Hb as <-.
  - cbn [build_indices] in Hb.
    destruct (build_index _ position_results ∅) as [index|]; [|done].
    cbn [mbind outcome_bind] in Hb.
    destruct (build_indices rest _) as [indexed'|] eqn:Hrest; [|done].
    injection Hb as <-. cbn [length]. f_equal. by eapply IH.
Qed.

Lemma consolidate_recursively_length
    (remaining : list (index_t * ordered_variables_t)) (current : ConsolidatedResult)
    (bindings : Bindings) (consolidated : ConsolidatedResults) :
  consolidate_recursively remaining current bindings = Ok consolidated →
  Forall (fun t => length t = length current + length remaining) consolidated.
Proof.
  revert current bindings consolidated.
  induction remaining as [|[index intersection] remaining IH];
    intros current bindings consolidated Hc.
  - injection Hc as <-. constructor; [|constructor]. cbn [length]. lia.
  - cbn [consolidate_recursively] in Hc.
    destruct (extract_values bindings intersection) as [values|]; [|done].
    cbn [mbind outcome_bind] in Hc.
    eapply outcome_concat_map_Forall; [|exact Hc].
    intros [item position_bindings] ys _ Hys. apply IH in Hys.
    eapply Forall_impl; [exact Hys|]. intros t Ht. cbn beta in Ht.
    rewrite Ht, length_app. cbn [length]. lia.
Qed.

(** Every tuple of the join has one component per position. *)
Lemma consolidate_results_length (results : list SearchResults)
    (consolidated : ConsolidatedResults) :
  consolidate_results results = Ok consolidated →
  Forall (fun t => length t = length results) consolidated.
Proof.
  unfold consolidate_results.
  destruct (all_nonempty results); cbn [negb].
  - destruct (build_indices results ∅) as [indexed|] eqn:Hindexed; [|done].
    cbn [mbind outcome_bind]. intros Hc.
    apply consolidate_recursively_length in Hc.
    by rewrite (build_indices_length _ _ _ Hindexed) in Hc.
  - intros [= <-]. constructor.
Qed.

(** ** The pattern evaluator *)

Section Evaluator.

Context (isupper : string → bool).

Lemma search_recursively_nil (silently_ignore_none : bool) (node : json)
    (bindings : Bindings) :
  search_recursively isupper silently_ignore_none [] node bindings
  = match node with
    | JStr s => Traced [] (Ok [(s, bindings)])
    | _ => Traced (if silently_ignore_none && is_none node then [] else [node]) (Ok [])
    end.
Proof. destruct node; try reflexivity; by destruct silently_ignore_none. Qed.

Lemma search_recursively_cons (silently_ignore_none : bool) (key : string)
    (path_tail : list string) (node : json) (bindings : Bindings) :
  search_recursively isupper silently_ignore_none (key :: path_tail) node bindings
  = if is_variable_name isupper key then
      if decide (key ∈ dom bindings) then raise AssertionError
      else
        match node with
        | JList items =>
            for_each_indexed (fun index item =>
                search_recursively isupper silently_ignore_none path_tail item
                  (<[key := index]> bindings))
              0 items
        | _ => mret []
        end
    else
      match node with
      | JDict d =>
          match d !! key with
          | Some value =>
              search_recursively isupper silently_ignore_none path_tail value bindings
          | None => mret []
          end
      | _ => mret []
      end.
Proof. reflexivity. Qed.

(** C7. When the segments are exhausted at a node that is not a string, the
    branch contributes no result; it does so without a warning when the node
    is null and the caller asked to ignore null silently, and with one
    warning, about that node, otherwise. *)
Theorem search_recursively_exhausted_non_string
    (silently_ignore_none : bool) (node : json) (bindings : Bindings) :
  (∀ s, node ≠ JStr s) →
  search_recursively isupper silently_ignore_none [] node bindings
  = Traced (if silently_ignore_none && is_none node then [] else [node]) (Ok []).
Proof.
  intros Hnode. rewrite search_recursively_nil.
  destruct node as [| | |s| |]; try reflexivity.
  by destruct (Hnode s).
Qed.

(** A path without variable segments leads to at most one node, and binds
    nothing on the way. *)
Lemma search_recursively_no_variable (silently_ignore_none : bool)
    (path : list string) :
  Forall (fun key => is_variable_name isupper key = false) path →
  ∀ (node : json) (bindings : Bindings),
    ∃ w, search_recursively isupper silently_ignore_none path node bindings
         = Traced w (Ok [])
       ∨ ∃ s, search_recursively isupper silently_ignore_none path node bindings
              = Traced w (Ok [(s, bindings)]).
Proof.
  induction 1 as [|key path_tail Hkey _ IH]; intros node bindings.
  - rewrite search_recursively_nil.
    destruct node as [| | |s| |]; try (by eexists; left).
    exists []. right. by exists s.
  - simpl. rewrite Hkey.
    destruct node as [| | | | |d]; try (by exists []; left).
    destruct (d !! key) as [value|]; [apply IH|by exists []; left].
Qed.

(** C6. A pattern without variable segments yields at most one result, and
    the bindings of that result are empty. *)
Theorem search_values_no_variable (pattern : SearchPattern) (data : json)
    (silently_ignore_none : bool) :
  Forall (fun key => is_variable_name isupper key = false)
    (split SEARCH_PATTERN_DELIMITER pattern) →
  ∃ w, search_values isupper pattern data silently_ignore_none = Traced w (Ok [])
     ∨ ∃ s, search_values isupper pattern data silently_ignore_none
            = Traced w (Ok [(s, ∅)]).
Proof. intros Hpath. by apply search_recursively_no_variable. Qed.

(** What an element of a list contributes under a last segment that is the
    variable [V], and whether the evaluator warns about it. *)
Definition leaf_result (V : string) (index : nat) (item : json) : SearchResults :=
  match item with
  | JStr s => [(s, {[V := index]})]
  | _ => []
  end.

Definition leaf_warned (silently_ignore_none : bool) (item : json) : bool :=
  negb (is_str item) && negb (silently_ignore_none && is_none item).

Lemma for_each_indexed_leaves (silently_ignore_none : bool) (V : string)
    (items : list json) (start : nat) :
  for_each_indexed (fun index item =>
      search_recursively isupper silently_ignore_none [] item (<[V := index]> ∅))
    start items
  = Traced (filter (fun item => leaf_warned silently_ignore_none item = true) items)
      (Ok (concat (imap (fun index => leaf_result V (start + index)) items))).
Proof.
  revert start. induction items as [|item rest IH]; intros start; [done|].
  cbn [for_each_indexed]. rewrite search_recursively_nil, (IH (S start)).
  rewrite imap_cons, Nat.add_0_r, insert_empty. cbn [concat].
  rewrite (imap_ext (fun index => leaf_result V (S start + index))
             ((fun index => leaf_result V (start + index)) ∘ S) rest)
    by (intros i x _; simpl; f_equal; lia).
  destruct item as [| | |s| |], silently_ignore_none;
    unfold mbind, traced_bind, mret, traced_ret; simpl;
    by rewrite ?app_nil_r.
Qed.

Lemma elem_of_leaf_results (V : string) (items : list json) (s : string)
    (index : nat) :
  (s, {[V := index]}) ∈ concat (imap (leaf_result V) items)
  ↔ items !! index = Some (JStr s).
Proof.
  rewrite list_elem_of_In, in_concat. split.
  - intros (rs & Hrs & Hin).
    apply list_elem_of_In, elem_of_lookup_imap in Hrs as (i & item & -> & Hitem).
    destruct item; simpl in Hin; try done.
    destruct Hin as [Heq|[]].
    pose proof (f_equal fst Heq) as Hs. pose proof (f_equal snd Heq) as Hb.
    simpl in Hs, Hb. subst.
    by apply (map_singleton_inj (M := gmap string)) in Hb as [_ ->].
  - intros Hitem. exists (leaf_result V index (JStr s)). split.
    + by apply list_elem_of_In, elem_of_lookup_imap_2.
    + by left.
Qed.

Lemma length_leaf_results (V : string) (items : list json) (start : nat) :
  length (concat (imap (fun index => leaf_result V (start + index)) items))
  = length (filter (fun item => is_str item = true) items).
Proof.
  revert start. induction items as [|item rest IH]; intros start; [done|].
  rewrite imap_cons. cbn [concat]. rewrite length_app.
  rewrite (imap_ext ((fun index => leaf_result V (start + index)) ∘ S)
             (fun index => leaf_result V (S start + index)) rest)
    by (intros i x _; simpl; f_equal; lia).
  rewrite IH. by destruct item.
Qed.

(** C5 (amended). At a list, the pattern that is the single variable [V]
    yields one result per string element: the element at index [i], when it
    is a string, yields that string bound to [{V: i}], in the order of the
    list; an element that is not a string yields nothing and shifts no index.
    There are as many results as string elements, hence as many as elements
    when all of them are strings. *)
Theorem search_values_single_variable (pattern : SearchPattern) (V : string)
    (items : list json) (silently_ignore_none : bool) :
  split SEARCH_PATTERN_DELIMITER pattern = [V] →
  is_variable_name isupper V = true →
  ∃ w found,
    search_values isupper pattern (JList items) silently_ignore_none
    = Traced w (Ok found)
    ∧ found = concat (imap (leaf_result V) items)
    ∧ (∀ index s, (s, {[V := index]}) ∈ found ↔ items !! index = Some (JStr s))
    ∧ length found = length (filter (fun item => is_str item = true) items)
    ∧ (Forall (fun item => is_str item = true) items → length found = length items).
Proof.
  intros Hsplit HV. unfold search_values.
  rewrite Hsplit, search_recursively_cons, HV, dom_empty_L.
  destruct (decide (V ∈ (∅ : gset string))) as [Hin|_]; [set_solver|].
  rewrite for_each_indexed_leaves. do 2 eexists. split; [reflexivity|].
  change (fun index => leaf_result V (0 + index)) with (leaf_result V).
  split; [reflexivity|]. split; [intros index s; apply elem_of_leaf_results|].
  pose proof (length_leaf_results V items 0) as Hlen.
  change (fun index => leaf_result V (0 + index)) with (leaf_result V) in Hlen.
  split; [done|]. intros Hall. rewrite Hlen. clear Hlen.
  induction Hall as [|item rest Hitem _ IH]; [done|].
  rewrite filter_cons_True by done. simpl. by rewrite IH.
Qed.

(** *** Patterns that rebind a variable *)

(** The variable segments of a path, in order. *)
Definition variables (path : list string) : list string :=
  filter (fun key => is_variable_name isupper key = true) path.

(** Whether some branch of the tree matches every segment of [prefix]: a
    literal key by an object that has it, a variable by an element of a
    list. *)
Fixpoint reaches (prefix : list string) (node : json) : bool :=
  match prefix with
  | [] => true
  | key :: tail =>
      if is_variable_name isupper key then
        match node with
        | JList items => existsb (reaches tail) items
        | _ => false
        end
      else
        match node with
        | JDict d =>
            match d !! key with
            | Some value => reaches tail value
            | None => false
            end
        | _ => false
        end
  end.

Lemma for_each_indexed_abort {A B} (f : nat → A → traced (list B)) (P : A → bool)
    (e : exn) (items : list A) (start : nat) :
  (∀ index item, item ∈ items →
     result (f index item) = if P item then Raise e else Ok []) →
  result (for_each_indexed f start items)
  = if existsb P items then Raise e else Ok [].
Proof.
  revert start. induction items as [|item rest IH]; intros start Hf; [done|].
  cbn [for_each_indexed existsb]. rewrite result_bind, Hf by apply list_elem_of_here.
  destruct (P item); [done|]. cbn [orb].
  rewrite result_bind, IH by (intros; apply Hf; by apply list_elem_of_further).
  by destruct (existsb P rest).
Qed.

Lemma variables_cons (key : string) (path : list string) :
  variables (key :: path)
  = if is_variable_name isupper key then key :: variables path else variables path.
Proof.
  unfold variables. rewrite filter_cons.
  destruct (is_variable_name isupper key); by case_decide.
Qed.

Lemma elem_of_variables (key : string) (path : list string) :
  key ∈ variables path ↔ is_variable_name isupper key = true ∧ key ∈ path.
Proof. unfold variables. by rewrite list_elem_of_filter. Qed.

(** Up to the first segment that rebinds a variable nothing is raised, and
    at that segment the assertion fails, whatever the node is. *)
Lemma search_recursively_rebinding (silently_ignore_none : bool)
    (prefix : list string) (V : string) (rest : list string) :
  is_variable_name isupper V = true →
  ∀ (node : json) (bindings : Bindings),
    V ∈ dom bindings ∨ V ∈ prefix →
    NoDup (variables prefix) →
    (∀ key, key ∈ variables prefix → key ∉ dom bindings) →
    result (search_recursively isupper silently_ignore_none
              (prefix ++ V :: rest) node bindings)
    = if reaches prefix node then Raise AssertionError else Ok [].
Proof.
  intros HV. induction prefix as [|key tail IH]; intros node bindings Hbound Hnodup Hfresh.
  - destruct Hbound as [Hbound|Hin]; [|by apply not_elem_of_nil in Hin].
    cbn [app]. rewrite search_recursively_cons, HV. by case_decide.
  - cbn [app reaches]. rewrite search_recursively_cons.
    rewrite variables_cons in Hnodup, Hfresh.
    destruct (is_variable_name isupper key) eqn:Hkey.
    + apply NoDup_cons in Hnodup as [Hkey_tail Hnodup].
      case_decide as Hin; [by destruct (Hfresh key (list_elem_of_here _ _))|].
      destruct node as [| | | |items|]; try done.
      apply for_each_indexed_abort. intros index item _.
      apply IH; [|done|].
      * rewrite dom_insert_L.
        destruct Hbound as [Hbound|Hbound]; [left; set_solver|].
        apply elem_of_cons in Hbound as [->|Hbound]; [left; set_solver|by right].
      * intros key' Hkey'. rewrite dom_insert_L.
        apply not_elem_of_union. split.
        -- apply not_elem_of_singleton. by intros ->.
        -- apply Hfresh. by apply list_elem_of_further.
    + assert (V ≠ key) as Hne by (intros <-; congruence).
      destruct node as [| | | | |d]; try done.
      destruct (d !! key) as [value|]; [|done].
      apply IH; [|done|done].
      destruct Hbound as [Hbound|Hbound]; [by left|right].
      by apply elem_of_cons in Hbound as [?|Hbound].
Qed.

(** A path with a variable in two segments has a first segment that rebinds
    a variable. *)
Lemma first_rebinding (path : list string) :
  NoDup (variables path)
  ∨ ∃ prefix V rest,
      path = prefix ++ V :: rest ∧ is_variable_name isupper V = true
      ∧ V ∈ prefix ∧ NoDup (variables prefix).
Proof.
  induction path as [|key path IH] using rev_ind; [left; constructor|].
  destruct IH as [Hnodup|(prefix & V & rest & -> & HV & Hin & Hnodup)].
  - destruct (is_variable_name isupper key) eqn:Hkey.
    + destruct (decide (key ∈ path)) as [Hin|Hin].
      * right. by exists path, key, [].
      * left. unfold variables. rewrite filter_app, filter_cons_True by done.
        apply NoDup_app. split; [done|]. split; [|apply NoDup_singleton].
        intros key' Hkey' ->%list_elem_of_singleton.
        by apply elem_of_variables in Hkey' as [_ ?].
    + left. unfold variables.
      rewrite filter_app, filter_cons_False, filter_nil, app_nil_r by congruence.
      done.
  - right. exists prefix, V, (rest ++ [key]). by rewrite <-app_assoc.
Qed.

Lemma repeated_variable_not_NoDup (l1 l2 l3 : list string) (V : string) :
  is_variable_name isupper V = true →
  ¬ NoDup (variables (l1 ++ V :: l2 ++ V :: l3)).
Proof.
  intros HV Hnodup. unfold variables in Hnodup.
  rewrite filter_app, filter_cons_True in Hnodup by done.
  apply NoDup_app in Hnodup as (_ & _ & Hnodup).
  apply NoDup_cons in Hnodup as [Hnotin _]. apply Hnotin.
  apply elem_of_variables. split; [done|]. set_solver.
Qed.

(** C3 (amended). For a pattern in which a variable name occurs in two
    segments, evaluation never yields a result: it aborts with the assertion
    error when some branch of the tree reaches the first segment that rebinds
    a variable, and returns the empty sequence when no branch does.  The
    prefix to reach depends on the pattern alone; whether a branch reaches it
    depends on the tree. *)
Theorem search_values_repeated_variable (pattern : SearchPattern)
    (l1 l2 l3 : list string) (V : string) :
  split SEARCH_PATTERN_DELIMITER pattern = l1 ++ V :: l2 ++ V :: l3 →
  is_variable_name isupper V = true →
  ∃ prefix W rest,
    split SEARCH_PATTERN_DELIMITER pattern = prefix ++ W :: rest
    ∧ is_variable_name isupper W = true ∧ W ∈ prefix
    ∧ ∀ (data : json) (silently_ignore_none : bool),
        result (search_values isupper pattern data silently_ignore_none)
        = if reaches prefix data then Raise AssertionError else Ok [].
Proof.
  intros Hsplit HV.
  destruct (first_rebinding (split SEARCH_PATTERN_DELIMITER pattern))
    as [Hnodup|(prefix & W & rest & Hpath & HW & Hin & Hnodup)].
  - rewrite Hsplit in Hnodup. by apply repeated_variable_not_NoDup in Hnodup.
  - exists prefix, W, rest. repeat split; try done.
    intros data silently_ignore_none. unfold search_values. rewrite Hpath.
    apply search_recursively_rebinding; [done|by right|done|].
    intros key _. rewrite dom_empty_L. set_solver.
Qed.

(** *** What an evaluation raises, and what its results bind *)

Lemma for_each_indexed_Forall {A B} (f : nat → A → traced (list B)) (Q : B → Prop)
    (items : list A) (start : nat) (found : list B) :
  (∀ index item ys, result (f index item) = Ok ys → Forall Q ys) →
  result (for_each_indexed f start items) = Ok found → Forall Q found.
Proof.
  intros Hf. revert start found.
  induction items as [|item rest IH]; intros start found.
  - intros [= <-]. constructor.
  - cbn [for_each_indexed]. rewrite result_bind.
    destruct (result (f start item)) as [ys|] eqn:Hitem; [|done].
    rewrite result_bind.
    destruct (result (for_each_indexed f (S start) rest)) as [ys'|] eqn:Hrest; [|done].
    intros [= <-]. apply Forall_app. split; [by eapply Hf|by eapply IH].
Qed.

Lemma for_each_indexed_raises {A B} (f : nat → A → traced (list B)) (e0 : exn)
    (items : list A) (start : nat) (e : exn) :
  (∀ index item e, result (f index item) = Raise e → e = e0) →
  result (for_each_indexed f start items) = Raise e → e = e0.
Proof.
  intros Hf. revert start.
  induction items as [|item rest IH]; intros start; [done|].
  cbn [for_each_indexed]. rewrite result_bind.
  destruct (result (f start item)) as [ys|e'] eqn:Hitem.
  - rewrite result_bind.
    destruct (result (for_each_indexed f (S start) rest)) as [ys'|e'] eqn:Hrest;
      [done|].
    intros [= <-]. by eapply IH.
  - intros [= <-]. by eapply Hf.
Qed.

Lemma for_each_indexed_is_Ok {A B} (f : nat → A → traced (list B))
    (items : list A) (start : nat) :
  (∀ index item, ∃ ys, result (f index item) = Ok ys) →
  ∃ found, result (for_each_indexed f start items) = Ok found.
Proof.
  intros Hf. revert start.
  induction items as [|item rest IH]; intros start; [by eexists|].
  cbn [for_each_indexed]. rewrite result_bind.
  destruct (Hf start item) as [ys ->]. rewrite result_bind.
  destruct (IH (S start)) as [ys' ->]. by eexists.
Qed.

(** The only exception of an evaluation is the failed assertion. *)
Lemma search_recursively_raises (silently_ignore_none : bool) (path : list string)
    (node : json) (bindings : Bindings) (e : exn) :
  result (search_recursively isupper silently_ignore_none path node bindings)
  = Raise e →
  e = AssertionError.
Proof.
  revert node bindings e.
  induction path as [|key path_tail IH]; intros node bindings e.
  - rewrite search_recursively_nil. by destruct node.
  - rewrite search_recursively_cons.
    destruct (is_variable_name isupper key).
    + case_decide; [by intros [= <-]|].
      destruct node as [| | | |items|]; try done.
      apply for_each_indexed_raises. intros index item e'. apply IH.
    + destruct node as [| | | | |d]; try done.
      destruct (d !! key) as [value|]; [apply IH|done].
Qed.

(** Every result binds the variables bound on entry and the variables of the
    path. *)
Lemma search_recursively_dom (silently_ignore_none : bool) (path : list string)
    (node : json) (bindings : Bindings) (found : SearchResults) :
  result (search_recursively isupper silently_ignore_none path node bindings)
  = Ok found →
  Forall (fun r => dom r.2 = dom bindings ∪ list_to_set (variables path)) found.
Proof.
  revert node bindings found.
  induction path as [|key path_tail IH]; intros node bindings found.
  - rewrite search_recursively_nil.
    destruct node as [| | |s| |]; intros [= <-]; repeat constructor.
    cbn. by rewrite (right_id_L ∅ (∪)).
  - rewrite search_recursively_cons, variables_cons.
    destruct (is_variable_name isupper key).
    + case_decide; [done|].
      destruct node as [| | | |items|]; try (intros [= <-]; constructor).
      apply for_each_indexed_Forall. intros index item ys Hys.
      apply IH in Hys. eapply Forall_impl; [exact Hys|].
      intros r ->. rewrite dom_insert_L, list_to_set_cons.
      apply set_eq. intros x. rewrite !elem_of_union. tauto.
    + destruct node as [| | | | |d]; try (intros [= <-]; constructor).
      destruct (d !! key) as [value|]; [apply IH|intros [= <-]; constructor].
Qed.

(** A path that names no variable twice, entered with none of its variables
    bound, is evaluated without exception. *)
Lemma search_recursively_is_Ok (silently_ignore_none : bool) (path : list string)
    (node : json) (bindings : Bindings) :
  NoDup (variables path) →
  (∀ key, key ∈ variables path → key ∉ dom bindings) →
  ∃ found,
    result (search_recursively isupper silently_ignore_none path node bindings)
    = Ok found.
Proof.
  revert node bindings.
  induction path as [|key path_tail IH]; intros node bindings Hnodup Hfresh.
  - rewrite search_recursively_nil. destruct node; by eexists.
  - rewrite search_recursively_cons. rewrite variables_cons in Hnodup, Hfresh.
    destruct (is_variable_name isupper key).
    + apply NoDup_cons in Hnodup as [Hkey Hnodup].
      case_decide as Hin; [by destruct (Hfresh key (list_elem_of_here _ _))|].
      destruct node as [| | | |items|]; try by eexists.
      apply for_each_indexed_is_Ok. intros index item. apply IH; [done|].
      intros key' Hkey'. rewrite dom_insert_L. apply not_elem_of_union. split.
      * apply not_elem_of_singleton. by intros ->.
      * apply Hfresh. by apply list_elem_of_further.
    + destruct node as [| | | | |d]; try by eexists.
      destruct (d !! key) as [value|]; [by apply IH|by eexists].
Qed.

(** The results of one pattern all bind the variables of the pattern. *)
Lemma search_values_dom (pattern : SearchPattern) (data : json)
    (silently_ignore_none : bool) (found : SearchResults) :
  result (search_values isupper pattern data silently_ignore_none) = Ok found →
  ∀ r, r ∈ found →
    dom r.2 = list_to_set (variables (split SEARCH_PATTERN_DELIMITER pattern)).
Proof.
  intros Hfound%search_recursively_dom r Hr.
  rewrite Forall_forall in Hfound. rewrite (Hfound r Hr), dom_empty_L.
  by rewrite (left_id_L ∅ (∪)).
Qed.

Lemma search_values_raises (pattern : SearchPattern) (data : json)
    (silently_ignore_none : bool) (e : exn) :
  result (search_values isupper pattern data silently_ignore_none) = Raise e →
  e = AssertionError.
Proof. apply search_recursively_raises. Qed.

Lemma search_values_is_Ok (pattern : SearchPattern) (data : json)
    (silently_ignore_none : bool) :
  NoDup (variables (split SEARCH_PATTERN_DELIMITER pattern)) →
  ∃ found, result (search_values isupper pattern data silently_ignore_none) = Ok found.
Proof.
  intros Hnodup. apply search_recursively_is_Ok; [done|].
  intros key _. rewrite dom_empty_L. apply not_elem_of_empty.
Qed.

End Evaluator.

Lemma search_recursively_exhausted_non_string_witness :
  search_recursively ascii_isupper true [] JNull ∅ = Traced [] (Ok [])
  ∧ search_recursively ascii_isupper false [] JNull ∅ = Traced [JNull] (Ok [])
  ∧ search_recursively ascii_isupper true [] (JNum 3) ∅ = Traced [JNum 3] (Ok []).
Proof.
  split; [|split].
  - apply (search_recursively_exhausted_non_string ascii_isupper true JNull ∅).
    intros s; discriminate.
  - apply (search_recursively_exhausted_non_string ascii_isupper false JNull ∅).
    intros s; discriminate.
  - apply (search_recursively_exhausted_non_string ascii_isupper true (JNum 3) ∅).
    intros s; discriminate.
Defined.

Lemma search_values_no_variable_witness :
  ∃ w, search_values ascii_isupper "lang_code"
         (JDict {[ "lang_code" := JStr "ja" ]}) true = Traced w (Ok [])
     ∨ ∃ s, search_values ascii_isupper "lang_code"
              (JDict {[ "lang_code" := JStr "ja" ]}) true = Traced w (Ok [(s, ∅)]).
Proof.
  apply (search_values_no_variable ascii_isupper "lang_code"
           (JDict {[ "lang_code" := JStr "ja" ]}) true).
  vm_compute. repeat constructor.
Defined.

Lemma search_values_single_variable_witness :
  ∃ w found,
    search_values ascii_isupper "V" (JList [JStr "a"; JNum 1; JStr "b"]) false
    = Traced w (Ok found)
    ∧ found = concat (imap (leaf_result "V") [JStr "a"; JNum 1; JStr "b"])
    ∧ (∀ index s, (s, {["V" := index]}) ∈ found
                  ↔ [JStr "a"; JNum 1; JStr "b"] !! index = Some (JStr s))
    ∧ length found
      = length (filter (fun item => is_str item = true) [JStr "a"; JNum 1; JStr "b"])
    ∧ (Forall (fun item => is_str item = true) [JStr "a"; JNum 1; JStr "b"] →
       length found = length [JStr "a"; JNum 1; JStr "b"]).
Proof.
  apply (search_values_single_variable ascii_isupper "V" "V"
           [JStr "a"; JNum 1; JStr "b"] false); reflexivity.
Defined.

(** A list of three elements of which one is not a string yields two
    results, not three; the string after it keeps its index 2. *)
Lemma search_values_single_variable_drops_non_string :
  search_values ascii_isupper "V" (JList [JStr "a"; JNum 1; JStr "b"]) false
  = Traced [JNum 1] (Ok [("a", {["V" := 0]}); ("b", {["V" := 2]})])
  ∧ length [("a", ({["V" := 0]} : Bindings)); ("b", {["V" := 2]})]
    ≠ length [JStr "a"; JNum 1; JStr "b"].
Proof. split; [reflexivity|discriminate]. Qed.

Lemma search_values_repeated_variable_witness :
  ∃ prefix W rest,
    split SEARCH_PATTERN_DELIMITER "forms/N/tags/N" = prefix ++ W :: rest
    ∧ is_variable_name ascii_isupper W = true ∧ W ∈ prefix
    ∧ ∀ (data : json) (silently_ignore_none : bool),
        result (search_values ascii_isupper "forms/N/tags/N" data silently_ignore_none)
        = if reaches ascii_isupper prefix data then Raise AssertionError else Ok [].
Proof.
  apply (search_values_repeated_variable ascii_isupper "forms/N/tags/N"
           ["forms"] ["tags"] [] "N"); reflexivity.
Defined.

(** The pattern [N/N] names [N] in two segments; on the empty list its
    evaluation returns normally, with no result, and on a list of lists it
    aborts. *)
Lemma search_values_repeated_variable_returns :
  split SEARCH_PATTERN_DELIMITER "N/N" = ["N"; "N"]
  ∧ is_variable_name ascii_isupper "N" = true
  ∧ search_values ascii_isupper "N/N" (JList []) false = Traced [] (Ok [])
  ∧ search_values ascii_isupper "N/N" (JList [JList [JStr "a"]]) false
    = Traced [] (Raise AssertionError).
Proof. repeat split; reflexivity. Qed.

(** ** The extractor *)

Lemma result_traced_map {A B} (f : A → traced B) (xs : list A) (ys : list B) :
  result (traced_map f xs) = Ok ys → Forall2 (fun x y => result (f x) = Ok y) xs ys.
Proof.
  revert ys. induction xs as [|x rest IH]; intros ys.
  - intros [= <-]. constructor.
  - cbn [traced_map]. rewrite result_bind.
    destruct (result (f x)) as [y|] eqn:Hx; [|done]. rewrite result_bind.
    destruct (result (traced_map f rest)) as [ys'|]; [|done].
    intros [= <-]. constructor; [done|by apply IH].
Qed.

Lemma traced_map_is_Ok {A B} (f : A → traced B) (xs : list A) :
  Forall (fun x => ∃ y, result (f x) = Ok y) xs →
  ∃ ys, result (traced_map f xs) = Ok ys.
Proof.
  induction 1 as [|x rest [y Hx] _ [ys IH]]; [by eexists|].
  cbn [traced_map]. rewrite result_bind, Hx, result_bind, IH. by eexists.
Qed.

Lemma truthy_true (text : string) : truthy text = true ↔ text ≠ "".
Proof.
  unfold truthy. rewrite negb_true_iff. split.
  - intros Heqb ->. by rewrite String.eqb_refl in Heqb.
  - intros Hne. by apply String.eqb_neq.
Qed.

(** [*_, language, word, romanization = t] succeeds on a tuple of three
    components or more, and takes the last three. *)
Lemma last_three_Ok (t : ConsolidatedResult) :
  3 ≤ length t →
  ∃ prefix language word romanization,
    t = prefix ++ [language; word; romanization]
    ∧ last_three t = Ok (language, word, romanization).
Proof.
  intros Hlen. unfold last_three.
  destruct (reverse t) as [|romanization [|word [|language prefix]]] eqn:Hrev;
    try (apply (f_equal length) in Hrev; rewrite length_reverse in Hrev;
         cbn [length] in Hrev; lia).
  exists (reverse prefix), language, word, romanization. split; [|done].
  rewrite <-(reverse_involutive t), Hrev.
  by rewrite !reverse_cons, <-!app_assoc.
Qed.

Section Extractor.

Context (isupper : string → bool).
Context (unicodedata_normalize : string → string → string).
Context (unicodedata_combining : string → nat).
Context (re_sub : string → string → string → string).
Context (re_fullmatch : string → bool → string → bool).
Context (strip : string → string).

(** A combining mark: a character whose canonical combining class is not
    zero. *)
Definition combining_mark (character : string) : Prop :=
  unicodedata_combining character ≠ 0.

(** A character of the Latin range: a letter from a to z in either case, a
    space or a hyphen. *)
Definition latin_range (character : string) : Prop :=
  re_fullmatch "[a-z -]" true character = true.

Definition mark_or_latin (character : string) : Prop :=
  combining_mark character ∨ latin_range character.

(** How many of the characters are not combining marks. *)
Fixpoint non_combining (cs : list string) : nat :=
  match cs with
  | [] => 0
  | character :: cs =>
      if decide (combining_mark character) then non_combining cs
      else S (non_combining cs)
  end.

(** A text as an entry holds it: in the form NFD, without the left-to-right
    and right-to-left marks at its two ends, every run of white space made
    one space, and stripped. *)
Definition normalized (text : string) : string :=
  strip (re_sub "\s+" " "
           (re_sub "[\u200e\u200f]+$" ""
              (re_sub "^[\u200e\u200f]+" "" (unicodedata_normalize "NFD" text)))).

(** A word as an entry holds it: normalized, and a Japanese word without its
    parenthesized parts. *)
Definition normalized_word (language word : string) : string :=
  if decide (language = "ja") then re_sub " ?\([^)]*\)" "" (normalized word)
  else normalized word.

(** The entry that a tuple yields when it is kept: the last three components,
    the word and the pronunciation normalized. *)
Definition formed_from (t : ConsolidatedResult) (entry : Entry) : Prop :=
  ∃ prefix language word pronunciation,
    t = prefix ++ [language; word; pronunciation]
    ∧ entry = (language, normalized_word language word, normalized pronunciation).

(** The three components of the entry are non-empty and, when the extraction
    is not the one of IPA, the word and the pronunciation have at most 20
    characters that are not combining marks and the word is not made of
    combining marks and characters of the Latin range only. *)
Definition acceptable (is_ipa : bool) (entry : Entry) : Prop :=
  entry.1.1 ≠ "" ∧ entry.1.2 ≠ "" ∧ entry.2 ≠ ""
  ∧ (is_ipa = true
     ∨ (non_combining (characters entry.1.2) ≤ 20
        ∧ non_combining (characters entry.2) ≤ 20
        ∧ ¬ Forall mark_or_latin (characters entry.1.2))).

#[local] Instance mark_or_latin_dec character : Decision (mark_or_latin character).
Proof. unfold mark_or_latin, combining_mark, latin_range. apply _. Defined.

#[local] Instance acceptable_dec is_ipa entry : Decision (acceptable is_ipa entry).
Proof. unfold acceptable. apply _. Defined.

(** A pattern that names no variable twice. *)
Definition rebinding_free (pattern : SearchPattern) : Prop :=
  NoDup (variables isupper (split SEARCH_PATTERN_DELIMITER pattern)).

Lemma non_combining_count (text : string) :
  count_non_combining_characters unicodedata_combining text
  = non_combining (characters text).
Proof.
  unfold count_non_combining_characters.
  induction (characters text) as [|character cs IH]; [done|].
  rewrite filter_cons. cbn [non_combining].
  destruct (decide (combining_mark character)) as [Hmark|Hmark].
  - rewrite decide_False; [done|]. unfold combining.
    by intros Hzero%negb_false_iff%Nat.eqb_eq.
  - rewrite decide_True; [cbn [length]; by rewrite IH|].
    unfold combining. apply negb_false_iff, Nat.eqb_eq.
    unfold combining_mark in Hmark. lia.
Qed.

Lemma mark_or_latin_forallb (cs : list string) :
  forallb (fun character =>
      combining unicodedata_combining character
      || re_fullmatch LATIN_PATTERN true character) cs = true
  ↔ Forall mark_or_latin cs.
Proof.
  assert (∀ character,
            combining unicodedata_combining character
            || re_fullmatch LATIN_PATTERN true character = true
            ↔ mark_or_latin character) as Hcharacter.
  { intros character. rewrite orb_true_iff.
    unfold mark_or_latin, combining_mark, latin_range, combining.
    by rewrite negb_true_iff, Nat.eqb_neq. }
  rewrite forallb_forall, Forall_forall.
  split; intros Hall character Hin; apply Hcharacter, Hall; by apply list_elem_of_In.
Qed.

Lemma is_valid_entry_acceptable (entry : Entry) (is_ipa : bool) :
  is_valid_entry unicodedata_combining re_fullmatch entry is_ipa = true
  ↔ acceptable is_ipa entry.
Proof.
  destruct entry as [[language word] romanization].
  unfold is_valid_entry, acceptable. cbn [fst snd forallb].
  rewrite !andb_true_iff, orb_true_iff, !andb_true_iff, !truthy_true.
  rewrite negb_true_iff, !Nat.leb_le, !non_combining_count.
  rewrite <-mark_or_latin_forallb, <-not_true_iff_false.
  change MAX_NON_COMBINING_LENGTH with 20. tauto.
Qed.

Lemma normalize_normalized (text : string) :
  normalize unicodedata_normalize re_sub strip text = normalized text.
Proof. reflexivity. Qed.

Lemma extra_normalize_word_normalized (language word : string) :
  extra_normalize_word re_sub (normalize unicodedata_normalize re_sub strip word)
    language
  = normalized_word language word.
Proof.
  rewrite normalize_normalized.
  unfold extra_normalize_word, normalized_word, EXTRA_WORD_NORMALIZATION_RULES.
  destruct (decide (language = "ja")) as [->|Hlanguage].
  - by rewrite lookup_singleton_eq.
  - by rewrite lookup_singleton_ne.
Qed.

Let search_triples' := search_triples isupper unicodedata_normalize
  unicodedata_combining re_sub re_fullmatch strip.

(** The final comprehension of [search_triples], on tuples of three
    components or more. *)
Lemma for_each_entries (is_ipa : bool) (consolidated : ConsolidatedResults) :
  Forall (fun t => 3 ≤ length t) consolidated →
  ∃ candidates,
    Forall2 formed_from consolidated candidates
    ∧ result (for_each (fun t =>
          '(language, word, romanization) ← lift (last_three t);
          let entry :=
            (language,
             extra_normalize_word re_sub
               (normalize unicodedata_normalize re_sub strip word) language,
             normalize unicodedata_normalize re_sub strip romanization) in
          mret (if is_valid_entry unicodedata_combining re_fullmatch entry is_ipa
                then [entry] else []))
        consolidated)
      = Ok (filter (acceptable is_ipa) candidates).
Proof.
  induction 1 as [|t rest Hlen _ (candidates & Hformed & IH)].
  - exists []. split; [constructor|done].
  - destruct (last_three_Ok t Hlen)
      as (prefix & language & word & romanization & Ht & Hlast).
    exists ((language, normalized_word language word, normalized romanization)
            :: candidates).
    split.
    + constructor; [|done]. by exists prefix, language, word, romanization.
    + cbn zeta in IH. cbn [for_each].
      rewrite result_bind, (result_bind (lift (last_three t))), Hlast.
      cbn [lift result]. rewrite result_ret, result_bind, IH, result_ret.
      rewrite filter_cons, extra_normalize_word_normalized, normalize_normalized.
      destruct (is_valid_entry _ _ _ is_ipa) eqn:Hvalid.
      * rewrite decide_True by (by apply is_valid_entry_acceptable). done.
      * rewrite decide_False; [done|].
        rewrite <-is_valid_entry_acceptable. congruence.
Qed.


Lemma search_conditions_filtered (conditions : list (SearchPattern * string))
    (data : json) (condition_results : list SearchResults) :
  result (search_conditions isupper conditions data) = Ok condition_results →
  Forall2 (fun condition filtered =>
      ∃ found,
        result (search_values isupper condition.1 data false) = Ok found
        ∧ filtered = filter (fun r : SearchResult => r.1 = condition.2) found)
    conditions condition_results.
Proof.
  intros Hresult%result_traced_map.
  eapply Forall2_impl; [exact Hresult|].
  intros [pattern required] filtered. cbn [fst snd]. rewrite result_bind.
  destruct (result (search_values isupper pattern data false)) as [found|]; [|done].
  rewrite result_ret. intros [= <-]. by exists found.
Qed.

Lemma search_conditions_is_Ok (conditions : list (SearchPattern * string))
    (data : json) :
  Forall (fun condition => rebinding_free condition.1) conditions →
  ∃ condition_results,
    result (search_conditions isupper conditions data) = Ok condition_results.
Proof.
  intros Hfree. apply traced_map_is_Ok.
  eapply Forall_impl; [exact Hfree|]. intros [pattern required] Hpattern.
  destruct (search_values_is_Ok isupper pattern data false Hpattern) as [found Hfound].
  rewrite result_bind, Hfound. by eexists.
Qed.

(** C9. In an extraction, the set kept for each equality condition holds the
    results of the condition's pattern whose value is the required literal,
    and when one of these sets is empty the group yields no entry: the
    extraction returns the empty list, unless the evaluation of one of the
    three value patterns aborts on a rebound variable, which patterns that
    name no variable twice exclude. *)
Theorem search_triples_unmatched_condition
    (language_pattern word_pattern romanization_pattern : SearchPattern)
    (conditions : list (SearchPattern * string)) (data : json) (is_ipa : bool)
    (condition_results : list SearchResults) :
  result (search_conditions isupper conditions data) = Ok condition_results →
  Forall2 (fun condition filtered =>
      ∃ found,
        result (search_values isupper condition.1 data false) = Ok found
        ∧ filtered = filter (fun r : SearchResult => r.1 = condition.2) found)
    conditions condition_results
  ∧ ([] ∈ condition_results →
     (result (search_triples'
                (language_pattern, word_pattern, romanization_pattern, conditions)
                data is_ipa) = Ok []
      ∨ result (search_triples'
                  (language_pattern, word_pattern, romanization_pattern, conditions)
                  data is_ipa) = Raise AssertionError)
     ∧ (rebinding_free language_pattern → rebinding_free word_pattern →
        rebinding_free romanization_pattern →
        result (search_triples'
                  (language_pattern, word_pattern, romanization_pattern, conditions)
                  data is_ipa) = Ok [])).
Proof.
  intros Hconditions. split; [by apply search_conditions_filtered|].
  intros Hempty.
  assert (∀ languages words romanizations,
            consolidate_results (condition_results ++ [languages; words; romanizations])
            = Ok []) as Hjoin.
  { intros. unfold consolidate_results. rewrite all_nonempty_false; [done|].
    apply elem_of_app. by left. }
  unfold search_triples', search_triples.
  rewrite result_bind, Hconditions. split.
  - rewrite result_bind.
    destruct (result (search_values isupper language_pattern data true))
      as [languages|e] eqn:Hlanguages;
      [|right; by rewrite (search_values_raises _ _ _ _ _ Hlanguages)].
    rewrite result_bind.
    destruct (result (search_values isupper word_pattern data false))
      as [words|e] eqn:Hwords;
      [|right; by rewrite (search_values_raises _ _ _ _ _ Hwords)].
    rewrite result_bind.
    destruct (result (search_values isupper romanization_pattern data false))
      as [romanizations|e] eqn:Hromanizations;
      [|right; by rewrite (search_values_raises _ _ _ _ _ Hromanizations)].
    left. by rewrite result_bind, result_lift, Hjoin.
  - intros Hlanguage Hword Hromanization.
    destruct (search_values_is_Ok isupper language_pattern data true Hlanguage)
      as [languages Hlanguages].
    destruct (search_values_is_Ok isupper word_pattern data false Hword)
      as [words Hwords].
    destruct (search_values_is_Ok isupper romanization_pattern data false
                Hromanization) as [romanizations Hromanizations].
    rewrite result_bind, Hlanguages, result_bind, Hwords.
    rewrite result_bind, Hromanizations.
    by rewrite result_bind, result_lift, Hjoin.
Qed.

End Extractor.

#[export] Existing Instance mark_or_latin_dec.
#[export] Existing Instance acceptable_dec.



Lemma search_triples_unmatched_condition_witness :
  result (search_triples ascii_isupper sample_normalize sample_combining
            sample_re_sub sample_re_fullmatch sample_strip
            ("lang_code", "word", "forms/N/form", [("forms/N/tags/T", "romanization")])
            sample_tagged false)
  = Ok [].
Proof.
  destruct (search_triples_unmatched_condition ascii_isupper sample_normalize
              sample_combining sample_re_sub sample_re_fullmatch sample_strip
              "lang_code" "word" "forms/N/form"
              [("forms/N/tags/T", "romanization")] sample_tagged false [[]]
              eq_refl) as [_ Hempty].
  destruct (Hempty (list_elem_of_here _ _)) as [_ Hfree].
  apply Hfree; apply (bool_decide_unpack _); reflexivity.
Defined.

(** ** The join of any number of positions *)

(** All the results of a position bind the variables of its first result. *)
Definition uniform (position_results : SearchResults) : Prop :=
  Forall (fun r : SearchResult => dom r.2 = position_variables_of position_results)
    position_results.

#[export] Instance uniform_dec position_results : Decision (uniform position_results).
Proof. unfold uniform. apply _. Defined.

(** The ways to take one result from each position, in nested order, the
    first position outermost. *)
Fixpoint choices (results : list SearchResults) : list (list SearchResult) :=
  match results with
  | [] => [[]]
  | position_results :: rest =>
      concat (map (fun r => map (cons r) (choices rest)) position_results)
  end.

(** The results agree two by two on the variables that they share. *)
Fixpoint consistent (chosen : list SearchResult) : Prop :=
  match chosen with
  | [] => True
  | r :: rest =>
      Forall (fun r' : SearchResult => agree_on (dom r.2 ∩ dom r'.2) r.2 r'.2) rest
      ∧ consistent rest
  end.

#[export] Instance consistent_dec chosen : Decision (consistent chosen).
Proof. induction chosen; simpl; apply _. Defined.

(** The results agree with [bindings] and two by two. *)
Definition consistent_with (bindings : Bindings) (chosen : list SearchResult) : Prop :=
  Forall (fun r : SearchResult => agree_on (dom bindings ∩ dom r.2) bindings r.2) chosen
  ∧ consistent chosen.

#[export] Instance consistent_with_dec bindings chosen :
  Decision (consistent_with bindings chosen).
Proof. unfold consistent_with. apply _. Defined.

Lemma agree_on_union (b r r' : Bindings) :
  agree_on (dom b ∩ dom r) b r →
  agree_on (dom (r ∪ b) ∩ dom r') (r ∪ b) r'
  ↔ agree_on (dom r ∩ dom r') r r' ∧ agree_on (dom b ∩ dom r') b r'.
Proof.
  unfold agree_on, set_Forall. intros Hbr.
  setoid_rewrite elem_of_intersection. setoid_rewrite dom_union.
  setoid_rewrite elem_of_union. split.
  - intros H. split; intros v [Hv Hv'].
    + rewrite <-H by tauto. apply elem_of_dom in Hv as [x Hx].
      by rewrite (lookup_union_Some_l _ _ _ _ Hx).
    + rewrite <-H by tauto. destruct (r !! v) as [x|] eqn:Hx.
      * rewrite (lookup_union_Some_l _ _ _ _ Hx), <-Hx. apply Hbr.
        apply elem_of_intersection. split; [done|]. by apply elem_of_dom.
      * by rewrite lookup_union_r.
  - intros [Hr Hb] v [[Hv|Hv] Hv'].
    + rewrite <-Hr by done. apply elem_of_dom in Hv as [x Hx].
      by rewrite (lookup_union_Some_l _ _ _ _ Hx).
    + destruct (r !! v) as [x|] eqn:Hx.
      * rewrite (lookup_union_Some_l _ _ _ _ Hx), <-Hx. apply Hr. split; [|done].
        by apply elem_of_dom.
      * rewrite lookup_union_r by done. by apply Hb.
Qed.

Lemma consistent_with_cons (bindings : Bindings) (r : SearchResult)
    (chosen : list SearchResult) :
  consistent_with bindings (r :: chosen)
  ↔ agree_on (dom bindings ∩ dom r.2) bindings r.2
    ∧ consistent_with (r.2 ∪ bindings) chosen.
Proof.
  unfold consistent_with. cbn [consistent]. rewrite Forall_cons.
  split.
  - intros [[Hr Hb] [Hrs Hc]]. split; [done|]. split; [|done].
    rewrite Forall_forall in *. intros r' Hr'.
    apply agree_on_union; [done|]. split; [by apply Hrs|by apply Hb].
  - intros [Hr [Hall Hc]]. rewrite Forall_forall in Hall.
    split_and!; [done| |  |done]; apply Forall_forall; intros r' Hr';
      by destruct (proj1 (agree_on_union bindings r.2 r'.2 Hr) (Hall r' Hr')).
Qed.

Lemma consistent_with_empty (chosen : list SearchResult) :
  consistent_with ∅ chosen ↔ consistent chosen.
Proof.
  unfold consistent_with. split; [tauto|]. intros Hc. split; [|done].
  apply Forall_forall. intros r _ v Hv.
  apply elem_of_intersection in Hv as [Hv _]. by rewrite dom_empty in Hv.
Qed.

Lemma filter_consistent_with_cons (bindings : Bindings) (r : SearchResult)
    (cs : list (list SearchResult)) :
  filter (consistent_with bindings) (map (cons r) cs)
  = if decide (agree_on (dom bindings ∩ dom r.2) bindings r.2)
    then map (cons r) (filter (consistent_with (r.2 ∪ bindings)) cs)
    else [].
Proof.
  induction cs as [|chosen cs IH].
  - by destruct (decide _).
  - cbn [map]. rewrite !filter_cons, IH.
    destruct (decide (agree_on (dom bindings ∩ dom r.2) bindings r.2)) as [Hr|Hr].
    + destruct (decide (consistent_with (r.2 ∪ bindings) chosen)) as [Hc|Hc].
      * by rewrite decide_True by (by apply consistent_with_cons).
      * rewrite decide_False; [done|]. rewrite consistent_with_cons. tauto.
    + rewrite decide_False; [done|]. rewrite consistent_with_cons. tauto.
Qed.

Lemma filter_choices_cons (bindings : Bindings) (current : ConsolidatedResult)
    (position_results : SearchResults) (rest : list SearchResults) :
  concat (map (fun r : SearchResult =>
      map (fun chosen => (current ++ [r.1]) ++ map fst chosen)
        (filter (consistent_with (r.2 ∪ bindings)) (choices rest)))
    (filter (fun r : SearchResult => agree_on (dom bindings ∩ dom r.2) bindings r.2)
       position_results))
  = map (fun chosen => current ++ map fst chosen)
      (filter (consistent_with bindings) (choices (position_results :: rest))).
Proof.
  cbn [choices].
  induction position_results as [|r position_results IH]; [done|].
  cbn [map concat]. rewrite filter_app, map_app, <-IH, filter_cons. clear IH.
  rewrite filter_consistent_with_cons.
  destruct (decide (agree_on (dom bindings ∩ dom r.2) bindings r.2)) as [Hr|Hr];
    [|done].
  cbn [map concat]. f_equal. rewrite <-list_fmap_compose.
  apply list_fmap_ext. intros _ chosen _. cbn. by rewrite <-app_assoc.
Qed.

(** The indices are built and the recursion enumerates the consistent
    choices, whatever tuple and bindings it starts from, as long as the
    bindings bind the variables accumulated so far. *)
Lemma consolidate_recursively_choices (results : list SearchResults)
    (cumulative : gset string) :
  Forall uniform results →
  ∃ indexed,
    build_indices results cumulative = Ok indexed
    ∧ ∀ (current : ConsolidatedResult) (bindings : Bindings),
        dom bindings = cumulative →
        consolidate_recursively indexed current bindings
        = Ok (map (fun chosen => current ++ map fst chosen)
                (filter (consistent_with bindings) (choices results))).
Proof.
  intros Huniform. revert cumulative.
  induction Huniform as [|position_results rest Hposition _ IH]; intros cumulative.
  all: try (unfold uniform in Hposition; rewrite Forall_forall in Hposition).
  - exists []. split; [done|]. intros current bindings _.
    cbn [choices consolidate_recursively]. rewrite filter_cons_True.
    + cbn. by rewrite app_nil_r.
    + split; [constructor|done].
  - cbn [build_indices]. cbn zeta.
    set (position_variables := position_variables_of position_results).
    set (intersection := sorted (cumulative ∩ position_variables)).
    destruct (build_index_buckets intersection position_results ∅)
      as (index & -> & Hbuckets).
    { intros r Hr v Hv%elem_of_sorted. rewrite (Hposition r Hr).
      by apply elem_of_intersection in Hv as [_ Hv]. }
    destruct (IH (cumulative ∪ position_variables)) as (indexed & -> & Hindexed).
    eexists. split; [done|]. intros current bindings Hdom.
    cbn [consolidate_recursively].
    destruct (extract_values_is_Ok bindings intersection) as [values Hvalues].
    { intros v Hv%elem_of_sorted. rewrite Hdom.
      by apply elem_of_intersection in Hv as [Hv _]. }
    rewrite Hvalues. cbn [mbind outcome_bind].
    rewrite Hbuckets, lookup_empty. cbn [default app].
    rewrite <-filter_choices_cons.
    rewrite (filter_ext_in _
               (fun r : SearchResult => agree_on (dom bindings ∩ dom r.2) bindings r.2)
               position_results).
    + apply outcome_concat_map_Ok. intros [item position_bindings] Hr.
      apply list_elem_of_filter in Hr as [_ Hr].
      apply Hindexed. rewrite dom_union_L, (Hposition _ Hr), Hdom. cbn [snd].
      fold position_variables. apply (comm_L (∪)).
    + intros r Hr. rewrite <-Hvalues.
      rewrite extract_values_eq.
      * unfold agree_on, set_Forall, intersection.
        setoid_rewrite elem_of_sorted.
        by rewrite Hdom, (Hposition r Hr).
      * intros v Hv%elem_of_sorted. rewrite Hdom.
        by apply elem_of_intersection in Hv as [Hv _].
Qed.

Lemma all_nonempty_true (results : list SearchResults) :
  all_nonempty results = true ↔ [] ∉ results.
Proof.
  induction results as [|position_results rest IH].
  - split; [|done]. intros _ H. by apply not_elem_of_nil in H.
  - cbn [all_nonempty forallb]. fold (all_nonempty rest).
    rewrite andb_true_iff, IH, not_elem_of_cons.
    destruct position_results as [|r rs]; split; intros [H1 H2]; by split.
Qed.

Lemma choices_empty (results : list SearchResults) :
  [] ∈ results → choices results = [].
Proof.
  induction results as [|position_results rest IH]; intros Hin.
  - by apply not_elem_of_nil in Hin.
  - apply elem_of_cons in Hin as [<-|Hin]; [done|].
    cbn [choices]. rewrite IH by done.
    induction position_results as [|r rs IHrs]; [done|]. by cbn.
Qed.

(** X1. The join of any number of positions, each of which binds the same
    variables in all its results: the tuples returned are the values of the
    choices of one result per position, in nested order with the first
    position outermost, whose bindings agree two by two on the variables
    they share.  No exception is raised. *)
Theorem consolidate_results_consistent_choices (results : list SearchResults) :
  Forall uniform results →
  consolidate_results results
  = Ok (map (map fst) (filter consistent (choices results))).
Proof.
  intros Huniform. unfold consolidate_results.
  destruct (all_nonempty results) eqn:Hall; cbn [negb].
  - destruct (consolidate_recursively_choices results ∅ Huniform)
      as (indexed & -> & Hindexed).
    cbn [mbind outcome_bind]. rewrite Hindexed by apply dom_empty_L.
    do 2 f_equal.
    apply filter_ext_in. intros chosen _. apply consistent_with_empty.
  - rewrite choices_empty; [done|].
    destruct (decide ([] ∈ results)) as [Hin|Hin]; [done|].
    apply all_nonempty_true in Hin. congruence.
Qed.

Lemma consolidate_results_consistent_choices_witness :
  consolidate_results
    [[("canonical", {["A" := 0; "C" := 1]}); ("canonical", {["A" := 2; "C" := 0]})];
     [("romanization", {["B" := 1; "D" := 0]})];
     [("ja", ∅)];
     [("日本", {["A" := 0]}); ("にほん", {["A" := 1]}); ("日本語", {["A" := 2]})];
     [("nihon", {["B" := 0]}); ("nippon", {["B" := 1]})]]
  = Ok [["canonical"; "romanization"; "ja"; "日本"; "nippon"];
        ["canonical"; "romanization"; "ja"; "日本語"; "nippon"]].
Proof.
  rewrite (consolidate_results_consistent_choices
             [[("canonical", {["A" := 0; "C" := 1]});
               ("canonical", {["A" := 2; "C" := 0]})];
              [("romanization", {["B" := 1; "D" := 0]})];
              [("ja", ∅)];
              [("日本", {["A" := 0]}); ("にほん", {["A" := 1]}); ("日本語", {["A" := 2]})];
              [("nihon", {["B" := 0]}); ("nippon", {["B" := 1]})]]).
  - by vm_compute.
  - apply (bool_decide_unpack _). by vm_compute.
Defined.

(** X2. A single position, whatever its bindings: the join returns its
    values in order, each as a tuple of one component. *)
Theorem consolidate_results_single (position_results : SearchResults) :
  consolidate_results [position_results]
  = Ok (map (fun r : SearchResult => [r.1]) position_results).
Proof.
  unfold consolidate_results.
  destruct position_results as [|r rest]; [done|].
  set (position_results := r :: rest).
  change (all_nonempty [position_results]) with true.
  cbn [negb build_indices].
  rewrite (left_absorb_L ∅ (∩)), sorted_empty.
  destruct (build_index_buckets [] position_results ∅) as (index & -> & Hbuckets);
    [by intros ? _ ? ?%not_elem_of_nil|].
  cbn [mbind outcome_bind consolidate_recursively].
  rewrite extract_values_nil. cbn [mbind outcome_bind].
  rewrite Hbuckets, lookup_empty. cbn [default app].
  rewrite filter_all by done.
  rewrite (outcome_concat_map_Ok _ (fun r : SearchResult => [[r.1]]))
    by (by intros [item position_bindings] _).
  f_equal. generalize position_results. clear.
  intros position_results. induction position_results as [|r rs IH]; [done|].
  cbn [map concat app]. by rewrite IH.
Qed.

(** *** The exception of the join *)

Lemma extract_values_Ok_dom (bindings : Bindings) (variables : ordered_variables_t)
    (values : ordered_values_t) :
  extract_values bindings variables = Ok values →
  ∀ variable, variable ∈ variables → variable ∈ dom bindings.
Proof.
  revert values. induction variables as [|v variables IH]; intros values Hvalues w Hw.
  - by apply not_elem_of_nil in Hw.
  - rewrite extract_values_cons in Hvalues.
    destruct (bindings !! v) as [value|] eqn:Hv; [|done].
    destruct (extract_values bindings variables) as [values'|]; [|done].
    apply elem_of_cons in Hw as [->|Hw]; [by apply elem_of_dom|by eapply IH].
Qed.

Lemma extract_values_raises (bindings : Bindings) (variables : ordered_variables_t)
    (e : exn) :
  extract_values bindings variables = Raise e → e = KeyError.
Proof.
  induction variables as [|v variables IH]; [done|].
  rewrite extract_values_cons.
  destruct (bindings !! v); [|congruence].
  destruct (extract_values bindings variables); [done|].
  intros [= <-]. by apply IH.
Qed.

Lemma build_index_raises (intersecting_variables : ordered_variables_t)
    (position_results : SearchResults) (index : index_t) (e : exn) :
  build_index intersecting_variables position_results index = Raise e → e = KeyError.
Proof.
  revert index. induction position_results as [|r rest IH]; intros index; [done|].
  cbn [build_index].
  destruct (extract_values r.2 intersecting_variables) as [values|e'] eqn:Hvalues.
  - apply IH.
  - cbn [mbind outcome_bind]. intros [= <-]. by eapply extract_values_raises.
Qed.

Lemma build_index_Ok_dom (intersecting_variables : ordered_variables_t)
    (position_results : SearchResults) (index index' : index_t) :
  build_index intersecting_variables position_results index = Ok index' →
  ∀ r, r ∈ position_results →
    ∀ variable, variable ∈ intersecting_variables → variable ∈ dom r.2.
Proof.
  revert index. induction position_results as [|r rest IH]; intros index Hindex r' Hr'.
  - by apply not_elem_of_nil in Hr'.
  - cbn [build_index] in Hindex.
    destruct (extract_values r.2 intersecting_variables) as [values|] eqn:Hvalues;
      [|done].
    apply elem_of_cons in Hr' as [->|Hr'].
    + by eapply extract_values_Ok_dom.
    + by eapply IH.
Qed.

Lemma build_indices_raises (results : list SearchResults) (cumulative : gset string)
    (e : exn) :
  build_indices results cumulative = Raise e → e = KeyError.
Proof.
  revert cumulative. induction results as [|position_results rest IH];
    intros cumulative; [done|].
  cbn [build_indices]. cbn zeta.
  destruct (build_index _ position_results ∅) as [index|e'] eqn:Hindex.
  - cbn [mbind outcome_bind].
    destruct (build_indices rest _) as [indexed|e'] eqn:Hindexed; [done|].
    cbn [mbind outcome_bind]. intros [= <-]. by eapply IH.
  - cbn [mbind outcome_bind]. intros [= <-]. by eapply build_index_raises.
Qed.

Lemma outcome_concat_map_raises {A B} (f : A → outcome (list B)) (xs : list A)
    (e : exn) :
  outcome_concat_map f xs = Raise e → ∃ x, x ∈ xs ∧ f x = Raise e.
Proof.
  induction xs as [|x rest IH]; [done|]. cbn [outcome_concat_map].
  destruct (f x) as [ys|e'] eqn:Hx.
  - cbn [mbind outcome_bind].
    destruct (outcome_concat_map f rest) as [ys'|e'] eqn:Hrest; [done|].
    cbn [mbind outcome_bind]. intros [= <-].
    destruct IH as (x' & Hin & Hx'); [done|].
    exists x'. split; [by apply list_elem_of_further|done].
  - cbn [mbind outcome_bind]. intros [= <-].
    exists x. split; [apply list_elem_of_here|done].
Qed.

Lemma outcome_concat_map_Ok_inv {A B} (f : A → outcome (list B)) (xs : list A)
    (zs : list B) :
  outcome_concat_map f xs = Ok zs → ∀ x, x ∈ xs → ∃ ys, f x = Ok ys.
Proof.
  revert zs. induction xs as [|x rest IH]; intros zs Hzs x' Hx'.
  - by apply not_elem_of_nil in Hx'.
  - cbn [outcome_concat_map] in Hzs.
    destruct (f x) as [ys|] eqn:Hx; [|done]. cbn [mbind outcome_bind] in Hzs.
    destruct (outcome_concat_map f rest) as [ys'|] eqn:Hrest; [|done].
    apply elem_of_cons in Hx' as [->|Hx']; [by eexists|by eapply IH].
Qed.

Lemma consolidate_recursively_raises
    (remaining : list (index_t * ordered_variables_t)) (current : ConsolidatedResult)
    (bindings : Bindings) (e : exn) :
  consolidate_recursively remaining current bindings = Raise e → e = KeyError.
Proof.
  revert current bindings.
  induction remaining as [|[index intersection] remaining IH];
    intros current bindings; [done|].
  cbn [consolidate_recursively].
  destruct (extract_values bindings intersection) as [values|e'] eqn:Hvalues.
  - cbn [mbind outcome_bind].
    intros ([item position_bindings] & _ & Hraise)%outcome_concat_map_raises.
    by eapply IH.
  - cbn [mbind outcome_bind]. intros [= <-]. by eapply extract_values_raises.
Qed.

Lemma consolidate_results_not_Ok (results : list SearchResults) :
  (∀ consolidated, consolidate_results results ≠ Ok consolidated) →
  consolidate_results results = Raise KeyError.
Proof.
  intros Hnot. unfold consolidate_results in *.
  destruct (negb (all_nonempty results)); [by destruct (Hnot [])|].
  destruct (build_indices results ∅) as [indexed|e] eqn:Hindexed.
  - cbn [mbind outcome_bind] in *.
    destruct (consolidate_recursively indexed [] ∅) as [consolidated|e] eqn:Hjoin;
      [by destruct (Hnot consolidated)|].
    by rewrite (consolidate_recursively_raises _ _ _ _ Hjoin).
  - cbn [mbind outcome_bind]. by rewrite (build_indices_raises _ _ _ Hindexed).
Qed.

(** X3. [KeyError] is the only exception that the join raises. *)
Theorem consolidate_results_raises (results : list SearchResults) (e : exn) :
  consolidate_results results = Raise e → e = KeyError.
Proof.
  intros Hraise. rewrite consolidate_results_not_Ok in Hraise; [congruence|].
  intros consolidated. by rewrite Hraise.
Qed.

Lemma consolidate_results_raises_witness :
  consolidate_results
    [[("cats", {["N" := 0]})]; [("plural", {["N" := 0]}); ("noun", ∅)]]
  = Raise KeyError
  ∧ KeyError = KeyError.
Proof.
  split; [reflexivity|].
  apply (consolidate_results_raises
           [[("cats", {["N" := 0]})]; [("plural", {["N" := 0]}); ("noun", ∅)]]
           KeyError).
  reflexivity.
Defined.

(** X4. Two non-empty positions, one of whose results lacks a variable that
    the first results of the two positions share: the join raises
    [KeyError]. *)
Theorem consolidate_results_missing_variable (A B : SearchResults)
    (r : SearchResult) (V : string) :
  A ≠ [] → B ≠ [] →
  V ∈ position_variables_of A ∩ position_variables_of B →
  r ∈ A ++ B → V ∉ dom r.2 →
  consolidate_results [A; B] = Raise KeyError.
Proof.
  intros HA HB HV Hr Hmissing. apply consolidate_results_not_Ok.
  intros consolidated Hjoin. apply Hmissing. revert Hjoin.
  unfold consolidate_results.
  rewrite all_nonempty_two by done. cbn [negb build_indices]. cbn zeta.
  rewrite (left_absorb_L ∅ (∩)), sorted_empty, (left_id_L ∅ (∪)).
  destruct (build_index_buckets [] A ∅) as (iA & -> & HiA);
    [by intros ? _ ? ?%not_elem_of_nil|].
  cbn [mbind outcome_bind].
  destruct (build_index _ B ∅) as [iB|] eqn:HiB; [|done].
  cbn [mbind outcome_bind consolidate_recursively].
  rewrite extract_values_nil. cbn [mbind outcome_bind].
  rewrite HiA, lookup_empty. cbn [default app]. rewrite filter_all by done.
  intros Hjoin. apply elem_of_app in Hr as [Hr|Hr].
  - destruct (outcome_concat_map_Ok_inv _ _ _ Hjoin r Hr) as [ys Hys].
    destruct r as [item bindings]. cbn [snd].
    rewrite (right_id_L ∅ (∪)) in Hys.
    destruct (extract_values bindings _) as [values|] eqn:Hvalues; [|done].
    eapply extract_values_Ok_dom; [exact Hvalues|]. by apply elem_of_sorted.
  - eapply build_index_Ok_dom; [exact HiB|done|]. by apply elem_of_sorted.
Qed.

Lemma consolidate_results_missing_variable_witness :
  consolidate_results
    [[("cats", {["N" := 0]})]; [("plural", {["N" := 0]}); ("noun", ∅)]]
  = Raise KeyError.
Proof.
  apply (consolidate_results_missing_variable
           [("cats", {["N" := 0]})] [("plural", {["N" := 0]}); ("noun", ∅)]
           ("noun", ∅) "N"); try done;
    apply (bool_decide_unpack _); reflexivity.
Defined.

(** X5. Every tuple that the join returns has one component per position. *)
Theorem consolidate_results_tuple_length (results : list SearchResults)
    (consolidated : ConsolidatedResults) (t : ConsolidatedResult) :
  consolidate_results results = Ok consolidated →
  t ∈ consolidated → length t = length results.
Proof.
  intros Hjoin Ht. apply consolidate_results_length in Hjoin.
  rewrite Forall_forall in Hjoin. by apply Hjoin.
Qed.

Lemma consolidate_results_tuple_length_witness :
  length ["ja"; "cats"] = 2.
Proof.
  apply (consolidate_results_tuple_length
           [[("ja", ∅)]; [("cats", {["N" := 0]}); ("dogs", {["N" := 1]})]]
           [["ja"; "cats"]; ["ja"; "dogs"]] ["ja"; "cats"]).
  - reflexivity.
  - apply list_elem_of_here.
Defined.

(** ** More on the pattern evaluator *)

(** The node that a path leads to under given bindings: a literal key selects
    the value of an object, a variable the element of a list at the index that
    the bindings give it. *)
Fixpoint follow (isupper : string → bool) (path : list string) (bindings : Bindings)
    (node : json) : option json :=
  match path with
  | [] => Some node
  | key :: path_tail =>
      if is_variable_name isupper key then
        match node, bindings !! key with
        | JList items, Some index =>
            match items !! index with
            | Some item => follow isupper path_tail bindings item
            | None => None
            end
        | _, _ => None
        end
      else
        match node with
        | JDict d =>
            match d !! key with
            | Some value => follow isupper path_tail bindings value
            | None => None
            end
        | _ => None
        end
  end.

Lemma warnings_bind {A B} (m : traced A) (f : A → traced B) :
  warnings (m ≫= f) = match result m with
                      | Ok a => warnings m ++ warnings (f a)
                      | Raise e => warnings m
                      end.
Proof. destruct m as [w [a|e]]; reflexivity. Qed.

Lemma warnings_ret {A} (a : A) : warnings (mret a : traced A) = [].
Proof. reflexivity. Qed.

Section EvaluatorResults.

Context (isupper : string → bool).

(** *** The flag [silently_ignore_none] *)

Lemma for_each_indexed_ignoring {A B} (f g : nat → A → traced (list B))
    (items : list A) (start : nat) :
  (∀ index item,
     result (f index item) = result (g index item)
     ∧ warnings (f index item)
       = filter (fun node => is_none node = false) (warnings (g index item))) →
  result (for_each_indexed f start items) = result (for_each_indexed g start items)
  ∧ warnings (for_each_indexed f start items)
    = filter (fun node => is_none node = false)
        (warnings (for_each_indexed g start items)).
Proof.
  intros Hfg. revert start. induction items as [|item rest IH]; intros start; [done|].
  cbn [for_each_indexed]. destruct (Hfg start item) as [Hresult Hwarnings].
  destruct (IH (S start)) as [Hresult' Hwarnings'].
  rewrite (result_bind (f start item)), (result_bind (g start item)).
  rewrite (warnings_bind (f start item)), (warnings_bind (g start item)).
  rewrite Hresult, Hwarnings.
  destruct (result (g start item)) as [ys|]; [|done].
  rewrite !result_bind, !warnings_bind, Hresult', Hwarnings'.
  destruct (result (for_each_indexed g (S start) rest)) as [ys'|].
  - cbn [warnings result mret traced_ret]. by rewrite !app_nil_r, filter_app.
  - by rewrite filter_app.
Qed.

Lemma search_recursively_ignoring (path : list string) (node : json)
    (bindings : Bindings) :
  result (search_recursively isupper true path node bindings)
  = result (search_recursively isupper false path node bindings)
  ∧ warnings (search_recursively isupper true path node bindings)
    = filter (fun node => is_none node = false)
        (warnings (search_recursively isupper false path node bindings)).
Proof.
  revert node bindings. induction path as [|key path_tail IH]; intros node bindings.
  - rewrite !search_recursively_nil. by destruct node.
  - rewrite !search_recursively_cons.
    destruct (is_variable_name isupper key).
    + destruct (decide (key ∈ dom bindings)); [done|].
      destruct node; try done. by apply for_each_indexed_ignoring.
    + destruct node as [| | | | |d]; try done. destruct (d !! key); [apply IH|done].
Qed.

(** X6. The flag [silently_ignore_none] changes the warnings only: the
    evaluation returns or aborts as without it, with the same results, and
    warns about the same nodes except those that are [None]. *)
Theorem search_values_silently_ignore_none (pattern : SearchPattern) (data : json) :
  result (search_values isupper pattern data true)
  = result (search_values isupper pattern data false)
  ∧ warnings (search_values isupper pattern data true)
    = filter (fun node => is_none node = false)
        (warnings (search_values isupper pattern data false)).
Proof. apply search_recursively_ignoring. Qed.


(** *** The node of a result *)

Lemma elem_of_for_each_indexed {A B} (f : nat → A → traced (list B))
    (items : list A) (start : nat) (found : list B) :
  result (for_each_indexed f start items) = Ok found →
  ∀ y, y ∈ found
       ↔ ∃ index item ys,
           items !! index = Some item
           ∧ result (f (start + index) item) = Ok ys ∧ y ∈ ys.
Proof.
  revert start found. induction items as [|item rest IH]; intros start found.
  - intros [= <-] y. split; [by intros ?%not_elem_of_nil|].
    by intros (index & item & ys & ? & _).
  - cbn [for_each_indexed]. rewrite result_bind.
    destruct (result (f start item)) as [ys|] eqn:Hitem; [|done].
    rewrite result_bind.
    destruct (result (for_each_indexed f (S start) rest)) as [ys'|] eqn:Hrest; [|done].
    intros [= <-] y. rewrite elem_of_app, (IH _ _ Hrest). split.
    + intros [Hy|(index & item' & zs & Hlookup & Hzs & Hy)].
      * exists 0, item, ys. by rewrite Nat.add_0_r.
      * exists (S index), item', zs. by rewrite Nat.add_succ_r.
    + intros ([|index] & item' & zs & Hlookup & Hzs & Hy).
      * left. rewrite Nat.add_0_r in Hzs. simpl in Hlookup. congruence.
      * right. exists index, item', zs. by rewrite Nat.add_succ_r in Hzs.
Qed.

Lemma for_each_indexed_Ok_inv {A B} (f : nat → A → traced (list B))
    (items : list A) (start : nat) (found : list B) :
  result (for_each_indexed f start items) = Ok found →
  ∀ index item, items !! index = Some item →
    ∃ ys, result (f (start + index) item) = Ok ys.
Proof.
  revert start found. induction items as [|item rest IH]; intros start found.
  - by intros _ index item ?.
  - cbn [for_each_indexed]. rewrite result_bind.
    destruct (result (f start item)) as [ys|] eqn:Hitem; [|done].
    rewrite result_bind.
    destruct (result (for_each_indexed f (S start) rest)) as [ys'|] eqn:Hrest; [|done].
    intros _ [|index] item' Hlookup.
    + rewrite Nat.add_0_r. simpl in Hlookup. exists ys. congruence.
    + rewrite Nat.add_succ_r. by apply (IH (S start) ys').
Qed.

Lemma search_recursively_follow (silently_ignore_none : bool) (path : list string)
    (node : json) (bindings : Bindings) (found : SearchResults) :
  result (search_recursively isupper silently_ignore_none path node bindings)
  = Ok found →
  ∀ s b, (s, b) ∈ found
         ↔ bindings ⊆ b
           ∧ dom b = dom bindings ∪ list_to_set (variables isupper path)
           ∧ follow isupper path b node = Some (JStr s).
Proof.
  revert node bindings found.
  induction path as [|key path_tail IH]; intros node bindings found.
  - rewrite search_recursively_nil. cbn [follow].
    change (variables isupper []) with (@nil string).
    intros Hfound s b. rewrite list_to_set_nil, (right_id_L ∅ (∪)).
    assert (bindings ⊆ b ∧ dom b = dom bindings ↔ b = bindings) as Heq.
    { split; [|by intros ->].
      intros [Hsub Hdom]. symmetry. apply subseteq_dom_eq; [done|]. by rewrite Hdom. }
    destruct node; injection Hfound as <-;
      try (split; [by intros ?%not_elem_of_nil|by intros (_ & _ & [=])]).
    rewrite list_elem_of_singleton. split.
    + intros [= -> ->]. by split_and!.
    + intros (Hsub & Hdom & [= ->]). f_equal. by apply Heq.
  - rewrite search_recursively_cons, variables_cons. cbn [follow].
    destruct (is_variable_name isupper key) eqn:Hkey.
    + destruct (decide (key ∈ dom bindings)) as [|Hfresh]; [done|].
      destruct node as [| | | |items|];
        try (intros [= <-] s' b';
             split; [by intros ?%not_elem_of_nil|by intros (_ & _ & [=])]).
      intros Hfound s b. rewrite (elem_of_for_each_indexed _ _ _ _ Hfound).
      cbn [list_to_set]. split.
      * intros (index & item & ys & Hlookup & Hys & Hin). cbn [Nat.add] in Hys.
        apply (IH _ _ _ Hys) in Hin as (Hsub & Hdom & Hfollow).
        assert (b !! key = Some index) as Hb
          by (eapply lookup_weaken; [apply lookup_insert_eq|done]).
        split_and!.
        -- etrans; [|exact Hsub]. apply insert_subseteq.
           by apply not_elem_of_dom.
        -- rewrite Hdom, dom_insert_L. by rewrite (assoc_L (∪)), (comm_L (∪) {[key]}).
        -- by rewrite Hb, Hlookup.
      * intros (Hsub & Hdom & Hfollow).
        destruct (b !! key) as [index|] eqn:Hb; [|done].
        destruct (items !! index) as [item|] eqn:Hlookup; [|done].
        destruct (for_each_indexed_Ok_inv _ _ _ _ Hfound index item Hlookup)
          as [ys Hys].
        exists index, item, ys. split_and!; [done..|]. cbn [Nat.add] in Hys.
        apply (IH _ _ _ Hys). split_and!; [|  |done].
        -- by apply insert_subseteq_l.
        -- rewrite Hdom, dom_insert_L. by rewrite (assoc_L (∪)), (comm_L (∪) {[key]}).
    + destruct node as [| | | | |d];
        try (intros [= <-] s' b';
             split; [by intros ?%not_elem_of_nil|by intros (_ & _ & [=])]).
      destruct (d !! key) as [value|]; [apply IH|].
      intros [= <-] s b.
      split; [by intros ?%not_elem_of_nil|by intros (_ & _ & [=])].
Qed.

(** X7. When the evaluation of a pattern returns, its results are the pairs
    of a string and of bindings of the variables of the pattern such that
    following the segments from the root, a variable through the element at
    the index bound to it, leads to that string. *)
Theorem search_values_follow (pattern : SearchPattern) (data : json)
    (silently_ignore_none : bool) (found : SearchResults) :
  result (search_values isupper pattern data silently_ignore_none) = Ok found →
  ∀ s b, (s, b) ∈ found
         ↔ dom b = list_to_set (variables isupper (split SEARCH_PATTERN_DELIMITER pattern))
           ∧ follow isupper (split SEARCH_PATTERN_DELIMITER pattern) b data
             = Some (JStr s).
Proof.
  intros Hfound s b. rewrite (search_recursively_follow _ _ _ _ _ Hfound).
  rewrite dom_empty_L, (left_id_L ∅ (∪)). split; [tauto|].
  intros [Hdom Hfollow]. split_and!; [apply map_empty_subseteq|done..].
Qed.


(** *** Results with the same bindings *)

Lemma for_each_indexed_NoDup {A B} (f : nat → A → traced (list B))
    (tag : B → option nat) (items : list A) (start : nat) (found : list B) :
  (∀ index item ys, result (f index item) = Ok ys →
     NoDup ys ∧ Forall (fun y => tag y = Some index) ys) →
  result (for_each_indexed f start items) = Ok found → NoDup found.
Proof.
  intros Hf. revert start found.
  induction items as [|item rest IH]; intros start found.
  - intros [= <-]. constructor.
  - cbn [for_each_indexed]. rewrite result_bind.
    destruct (result (f start item)) as [ys|] eqn:Hitem; [|done].
    rewrite result_bind.
    destruct (result (for_each_indexed f (S start) rest)) as [ys'|] eqn:Hrest; [|done].
    intros [= <-]. destruct (Hf _ _ _ Hitem) as [Hys Htag].
    apply NoDup_app. split_and!; [done| |by eapply IH].
    intros y Hy Hy'. rewrite Forall_forall in Htag. specialize (Htag y Hy).
    apply (elem_of_for_each_indexed _ _ _ _ Hrest) in Hy'
      as (index & item' & zs & _ & Hzs & Hy').
    destruct (Hf _ _ _ Hzs) as [_ Htag']. rewrite Forall_forall in Htag'.
    specialize (Htag' y Hy'). rewrite Htag in Htag'. injection Htag' as Heq. lia.
Qed.

Lemma search_recursively_NoDup (silently_ignore_none : bool) (path : list string)
    (node : json) (bindings : Bindings) (found : SearchResults) :
  result (search_recursively isupper silently_ignore_none path node bindings)
  = Ok found →
  NoDup found.
Proof.
  revert node bindings found.
  induction path as [|key path_tail IH]; intros node bindings found.
  - rewrite search_recursively_nil.
    destruct node; intros [= <-]; first [apply NoDup_nil_2|apply NoDup_singleton].
  - rewrite search_recursively_cons.
    destruct (is_variable_name isupper key).
    + destruct (decide (key ∈ dom bindings)); [done|].
      destruct node as [| | | |items|]; try (intros [= <-]; apply NoDup_nil_2).
      apply (for_each_indexed_NoDup _ (fun r : SearchResult => r.2 !! key)).
      intros index item ys Hys. split; [by eapply IH|].
      apply Forall_forall. intros [s b] Hin.
      apply (search_recursively_follow _ _ _ _ _ Hys) in Hin as (Hsub & _).
      eapply lookup_weaken; [apply lookup_insert_eq|done].
    + destruct node as [| | | | |d]; try (intros [= <-]; apply NoDup_nil_2).
      destruct (d !! key); [apply IH|]. intros [= <-]. apply NoDup_nil_2.
Qed.

(** X8. The results of a pattern have bindings that are different two by
    two: bindings identify one result. *)
Theorem search_values_distinct_bindings (pattern : SearchPattern) (data : json)
    (silently_ignore_none : bool) (found : SearchResults) :
  result (search_values isupper pattern data silently_ignore_none) = Ok found →
  NoDup (map snd found).
Proof.
  intros Hfound. apply NoDup_fmap_2_strong.
  - intros [s b] [s' b'] Hin Hin'. cbn [snd]. intros <-.
    apply (search_recursively_follow _ _ _ _ _ Hfound) in Hin as (_ & _ & Hs).
    apply (search_recursively_follow _ _ _ _ _ Hfound) in Hin' as (_ & _ & Hs').
    congruence.
  - by eapply search_recursively_NoDup.
Qed.

(** X9. The failed assertion is the only exception that the evaluation of a
    pattern raises. *)
Theorem search_values_only_assertion (pattern : SearchPattern) (data : json)
    (silently_ignore_none : bool) (e : exn) :
  result (search_values isupper pattern data silently_ignore_none) = Raise e →
  e = AssertionError.
Proof. apply search_recursively_raises. Qed.

(** X10. A pattern that names no variable twice is evaluated without an
    exception, on any tree. *)
Theorem search_values_returns (pattern : SearchPattern) (data : json)
    (silently_ignore_none : bool) :
  NoDup (variables isupper (split SEARCH_PATTERN_DELIMITER pattern)) →
  ∃ found, result (search_values isupper pattern data silently_ignore_none) = Ok found.
Proof.
  intros Hpattern. apply search_recursively_is_Ok; [done|].
  intros key _. by rewrite dom_empty_L.
Qed.

End EvaluatorResults.

Lemma search_values_follow_witness :
  ("abc", {["N" := 1]})
    ∈ [("にほん", ({["N" := 0]} : Bindings)); ("abc", {["N" := 1]}); ("ほ", {["N" := 2]})]
  ↔ dom ({["N" := 1]} : Bindings)
    = list_to_set (variables ascii_isupper (split SEARCH_PATTERN_DELIMITER "forms/N/form"))
    ∧ follow ascii_isupper (split SEARCH_PATTERN_DELIMITER "forms/N/form")
        {["N" := 1]} sample_forms
      = Some (JStr "abc").
Proof.
  apply (search_values_follow ascii_isupper "forms/N/form" sample_forms false
           [("にほん", {["N" := 0]}); ("abc", {["N" := 1]}); ("ほ", {["N" := 2]})]).
  reflexivity.
Defined.

Lemma search_values_distinct_bindings_witness :
  NoDup (map snd [("にほん", ({["N" := 0]} : Bindings)); ("abc", {["N" := 1]});
                  ("ほ", {["N" := 2]})]).
Proof.
  apply (search_values_distinct_bindings ascii_isupper "forms/N/form" sample_forms
           false).
  reflexivity.
Defined.

Lemma search_values_only_assertion_witness :
  result (search_values ascii_isupper "N/N" (JList [JList [JStr "a"]]) false)
  = Raise AssertionError
  ∧ AssertionError = AssertionError.
Proof.
  split; [reflexivity|].
  apply (search_values_only_assertion ascii_isupper "N/N"
           (JList [JList [JStr "a"]]) false AssertionError).
  reflexivity.
Defined.

Lemma search_values_returns_witness :
  ∃ found,
    result (search_values ascii_isupper "senses/N/examples/M/text" sample_forms false)
    = Ok found.
Proof.
  apply (search_values_returns ascii_isupper "senses/N/examples/M/text"
           sample_forms false).
  apply (bool_decide_unpack _). reflexivity.
Defined.

(** ** The extraction as a whole *)

(** The pattern groups of the module. *)
Definition IPA_PATTERNS : list SearchPatterns :=
  [("lang_code", "word", "sounds/N/ipa", []);
   ("lang_code", "forms/N/form", "forms/N/ipa", [])].

Definition ROMANIZATION_PATTERNS : list SearchPatterns :=
  [("lang_code", "forms/N/form", "forms/N/roman", []);
   ("lang_code", "form_of/N/word", "form_of/N/roman", []);
   ("lang_code", "abbreviations/N/word", "abbreviations/N/roman", []);
   ("lang_code", "synonyms/N/word", "synonyms/N/roman", []);
   ("lang_code", "antonyms/N/word", "antonyms/N/roman", []);
   ("lang_code", "hyponyms/N/word", "hyponyms/N/roman", []);
   ("lang_code", "hypernyms/N/word", "hypernyms/N/roman", []);
   ("lang_code", "coordinate_terms/N/word", "coordinate_terms/N/roman", []);
   ("lang_code", "meronyms/N/word", "meronyms/N/roman", []);
   ("lang_code", "holonyms/N/word", "holonyms/N/roman", []);
   ("lang_code", "troponyms/N/word", "troponyms/N/roman", []);
   ("lang_code", "derived/N/word", "derived/N/roman", []);
   ("lang_code", "related/N/word", "related/N/roman", []);
   ("lang_code", "proverbs/N/word", "proverbs/N/roman", []);
   ("lang_code", "senses/N/examples/M/text", "senses/N/examples/M/roman", []);
   ("lang_code", "senses/N/alt_of/M/word", "word",
    [("senses/N/tags/T", "romanization")]);
   ("lang_code", "word", "forms/N/form", [("forms/N/tags/T", "romanization")]);
   ("lang_code", "forms/A/form", "forms/B/form",
    [("forms/A/tags/C", "canonical"); ("forms/B/tags/D", "romanization")]);
   ("translations/N/code", "translations/N/word", "translations/N/roman", [])].

(** The patterns of a group: those of the conditions, then the three value
    patterns. *)
Definition patterns_of (patterns : SearchPatterns) : list SearchPattern :=
  let '(language_pattern, word_pattern, romanization_pattern, conditions) := patterns in
  map fst conditions ++ [language_pattern; word_pattern; romanization_pattern].

Lemma uniform_same_dom (position_results : SearchResults) (D : gset string) :
  (∀ r, r ∈ position_results → dom r.2 = D) → uniform position_results.
Proof.
  intros HD. apply Forall_forall. intros r Hr. rewrite (HD r Hr).
  destruct position_results as [|[item bindings] rest].
  - by apply not_elem_of_nil in Hr.
  - symmetry. apply (HD (item, bindings)), list_elem_of_here.
Qed.

Lemma consolidate_results_is_Ok (results : list SearchResults) :
  Forall uniform results → ∃ consolidated, consolidate_results results = Ok consolidated.
Proof.
  intros Huniform. unfold consolidate_results.
  destruct (negb (all_nonempty results)); [by eexists|].
  destruct (consolidate_recursively_choices results ∅ Huniform)
    as (indexed & -> & Hindexed).
  cbn [mbind outcome_bind]. rewrite Hindexed by apply dom_empty_L. by eexists.
Qed.

Lemma traced_map_raises {A B} (f : A → traced B) (xs : list A) (e : exn) :
  result (traced_map f xs) = Raise e → ∃ x, x ∈ xs ∧ result (f x) = Raise e.
Proof.
  induction xs as [|x rest IH]; [done|]. cbn [traced_map]. rewrite result_bind.
  destruct (result (f x)) as [y|e'] eqn:Hx.
  - rewrite result_bind.
    destruct (result (traced_map f rest)) as [ys|e'] eqn:Hrest; [done|].
    intros [= <-]. destruct IH as (x' & Hin & Hx'); [done|].
    exists x'. split; [by apply list_elem_of_further|done].
  - intros [= <-]. exists x. split; [apply list_elem_of_here|done].
Qed.

Section Extraction.

Context (isupper : string → bool).
Context (unicodedata_normalize : string → string → string).
Context (unicodedata_combining : string → nat).
Context (re_sub : string → string → string → string).
Context (re_fullmatch : string → bool → string → bool).
Context (strip : string → string).

Lemma search_values_uniform (pattern : SearchPattern) (data : json)
    (silently_ignore_none : bool) (found : SearchResults) :
  result (search_values isupper pattern data silently_ignore_none) = Ok found →
  uniform found.
Proof.
  intros Hfound. eapply uniform_same_dom. by apply (search_values_dom _ _ _ _ _ Hfound).
Qed.

Lemma search_conditions_uniform (conditions : list (SearchPattern * string))
    (data : json) (condition_results : list SearchResults) :
  result (search_conditions isupper conditions data) = Ok condition_results →
  Forall uniform condition_results.
Proof.
  intros Hconditions%search_conditions_filtered.
  induction Hconditions as [|condition filtered conditions rest Hfiltered _ IH];
    constructor; [|done].
  destruct Hfiltered as (found & Hfound & ->).
  eapply uniform_same_dom. intros r [_ Hr]%list_elem_of_filter.
  by apply (search_values_dom _ _ _ _ _ Hfound).
Qed.

Lemma search_conditions_raises (conditions : list (SearchPattern * string))
    (data : json) (e : exn) :
  result (search_conditions isupper conditions data) = Raise e → e = AssertionError.
Proof.
  intros ([pattern required] & _ & Hraise)%traced_map_raises.
  rewrite result_bind in Hraise.
  destruct (result (search_values isupper pattern data false)) as [found|e'] eqn:Hfound;
    [done|].
  injection Hraise as <-. by eapply search_values_raises.
Qed.

(** The three value patterns and the conditions evaluated, the join and the
    final comprehension return. *)
Lemma search_triples_joined
    (language_pattern word_pattern romanization_pattern : SearchPattern)
    (conditions : list (SearchPattern * string)) (data : json) (is_ipa : bool)
    (condition_results : list SearchResults)
    (languages words romanizations : SearchResults) :
  result (search_conditions isupper conditions data) = Ok condition_results →
  result (search_values isupper language_pattern data true) = Ok languages →
  result (search_values isupper word_pattern data false) = Ok words →
  result (search_values isupper romanization_pattern data false) = Ok romanizations →
  ∃ entries,
    result (search_triples isupper unicodedata_normalize unicodedata_combining
              re_sub re_fullmatch strip
              (language_pattern, word_pattern, romanization_pattern, conditions)
              data is_ipa)
    = Ok entries.
Proof.
  intros Hconditions Hlanguages Hwords Hromanizations.
  destruct (consolidate_results_is_Ok
              (condition_results ++ [languages; words; romanizations]))
    as [consolidated Hconsolidated].
  { apply Forall_app. split; [by eapply search_conditions_uniform|].
    repeat constructor; by eapply search_values_uniform. }
  destruct (for_each_entries isupper unicodedata_normalize unicodedata_combining re_sub
              re_fullmatch strip is_ipa consolidated)
    as (candidates & _ & Hentries).
  { apply consolidate_results_length in Hconsolidated.
    eapply Forall_impl; [exact Hconsolidated|]. intros t ->.
    rewrite length_app. cbn [length]. lia. }
  eexists. unfold search_triples.
  rewrite result_bind, Hconditions, result_bind, Hlanguages.
  rewrite result_bind, Hwords, result_bind, Hromanizations.
  rewrite result_bind, result_lift, Hconsolidated. exact Hentries.
Qed.

(** X11. The failed assertion of a pattern evaluation is the only exception
    of an extraction: the join never misses a variable and every tuple has
    the three components of an entry. *)
Theorem search_triples_only_assertion (patterns : SearchPatterns) (data : json)
    (is_ipa : bool) (e : exn) :
  result (search_triples isupper unicodedata_normalize unicodedata_combining
            re_sub re_fullmatch strip patterns data is_ipa)
  = Raise e →
  e = AssertionError.
Proof.
  destruct patterns as [[[language_pattern word_pattern] romanization_pattern] conditions].
  destruct (result (search_conditions isupper conditions data))
    as [condition_results|e'] eqn:Hconditions.
  2: { unfold search_triples. rewrite result_bind, Hconditions. intros [= <-].
       by eapply search_conditions_raises. }
  destruct (result (search_values isupper language_pattern data true))
    as [languages|e'] eqn:Hlanguages.
  2: { unfold search_triples. rewrite result_bind, Hconditions, result_bind, Hlanguages.
       intros [= <-]. by eapply search_values_raises. }
  destruct (result (search_values isupper word_pattern data false))
    as [words|e'] eqn:Hwords.
  2: { unfold search_triples. rewrite result_bind, Hconditions, result_bind, Hlanguages.
       rewrite result_bind, Hwords. intros [= <-]. by eapply search_values_raises. }
  destruct (result (search_values isupper romanization_pattern data false))
    as [romanizations|e'] eqn:Hromanizations.
  2: { unfold search_triples. rewrite result_bind, Hconditions, result_bind, Hlanguages.
       rewrite result_bind, Hwords, result_bind, Hromanizations.
       intros [= <-]. by eapply search_values_raises. }
  destruct (search_triples_joined language_pattern word_pattern romanization_pattern
              conditions data is_ipa _ _ _ _
              Hconditions Hlanguages Hwords Hromanizations) as [entries ->].
  done.
Qed.

Lemma search_triples_is_Ok (patterns : SearchPatterns) (data : json)
    (is_ipa : bool) :
  Forall (rebinding_free isupper) (patterns_of patterns) →
  ∃ entries,
    result (search_triples isupper unicodedata_normalize unicodedata_combining
              re_sub re_fullmatch strip patterns data is_ipa)
    = Ok entries.
Proof.
  destruct patterns as [[[language_pattern word_pattern] romanization_pattern] conditions].
  cbn [patterns_of]. rewrite Forall_app, Forall_fmap, !Forall_cons.
  intros (Hconditions & Hlanguage & Hword & Hromanization & _).
  destruct (search_conditions_is_Ok isupper conditions data Hconditions)
    as [condition_results Hcondition_results].
  destruct (search_values_is_Ok isupper language_pattern data true Hlanguage)
    as [languages Hlanguages].
  destruct (search_values_is_Ok isupper word_pattern data false Hword)
    as [words Hwords].
  destruct (search_values_is_Ok isupper romanization_pattern data false Hromanization)
    as [romanizations Hromanizations].
  by eapply search_triples_joined.
Qed.

(** X12. An extraction whose patterns name no variable twice returns, on any
    tree. *)
Theorem search_triples_returns (patterns : SearchPatterns) (data : json)
    (is_ipa : bool) :
  Forall (rebinding_free isupper) (patterns_of patterns) →
  ∃ entries,
    result (search_triples isupper unicodedata_normalize unicodedata_combining
              re_sub re_fullmatch strip patterns data is_ipa)
    = Ok entries.
Proof. apply search_triples_is_Ok. Qed.

End Extraction.

(** The segments of each configured pattern are different two by two, so no
    pattern names a variable twice, whatever [str.isupper] says of a segment. *)
Lemma configured_patterns_segments :
  Forall (fun patterns =>
      Forall (fun pattern => NoDup (split SEARCH_PATTERN_DELIMITER pattern))
        (patterns_of patterns))
    (IPA_PATTERNS ++ ROMANIZATION_PATTERNS).
Proof. apply (bool_decide_unpack _). by vm_compute. Qed.

Lemma configured_patterns_rebinding_free (isupper : string → bool)
    (patterns : SearchPatterns) :
  patterns ∈ IPA_PATTERNS ++ ROMANIZATION_PATTERNS →
  Forall (rebinding_free isupper) (patterns_of patterns).
Proof.
  intros Hin. pose proof configured_patterns_segments as Hsegments.
  rewrite Forall_forall in Hsegments. specialize (Hsegments patterns Hin).
  eapply Forall_impl; [exact Hsegments|].
  intros pattern Hpattern. by apply NoDup_filter.
Qed.

(** X13. Every pattern group of the module, [IPA_PATTERNS] and
    [ROMANIZATION_PATTERNS], is extracted without an exception from any
    tree: no configured pattern can fail the assertion. *)
Theorem search_triples_configured_patterns (isupper : string → bool)
    (unicodedata_normalize : string → string → string)
    (unicodedata_combining : string → nat)
    (re_sub : string → string → string → string)
    (re_fullmatch : string → bool → string → bool) (strip : string → string)
    (patterns : SearchPatterns) (data : json) (is_ipa : bool) :
  patterns ∈ IPA_PATTERNS ++ ROMANIZATION_PATTERNS →
  ∃ entries,
    result (search_triples isupper unicodedata_normalize unicodedata_combining
              re_sub re_fullmatch strip patterns data is_ipa)
    = Ok entries.
Proof.
  intros Hin. apply search_triples_is_Ok.
  by apply configured_patterns_rebinding_free.
Qed.

Lemma search_triples_only_assertion_witness :
  result (search_triples ascii_isupper sample_normalize sample_combining
            sample_re_sub sample_re_fullmatch sample_strip
            ("lang_code", "forms/N/N", "word", []) sample_forms false)
  = Raise AssertionError
  ∧ AssertionError = AssertionError.
Proof.
  split; [reflexivity|].
  apply (search_triples_only_assertion ascii_isupper sample_normalize
           sample_combining sample_re_sub sample_re_fullmatch sample_strip
           ("lang_code", "forms/N/N", "word", []) sample_forms false AssertionError).
  reflexivity.
Defined.

Lemma search_triples_returns_witness :
  ∃ entries,
    result (search_triples ascii_isupper sample_normalize sample_combining
              sample_re_sub sample_re_fullmatch sample_strip
              ("lang_code", "word", "forms/N/form",
               [("forms/N/tags/T", "romanization")])
              sample_tagged false)
    = Ok entries.
Proof.
  apply (search_triples_returns ascii_isupper sample_normalize sample_combining
           sample_re_sub sample_re_fullmatch sample_strip
           ("lang_code", "word", "forms/N/form", [("forms/N/tags/T", "romanization")])
           sample_tagged false).
  repeat (constructor; [apply (bool_decide_unpack _); reflexivity|]).
  constructor.
Defined.

Lemma search_triples_configured_patterns_witness :
  ∃ entries,
    result (search_triples ascii_isupper sample_normalize sample_combining
              sample_re_sub sample_re_fullmatch sample_strip
              ("lang_code", "forms/N/form", "forms/N/roman", [])
              sample_forms false)
    = Ok entries.
Proof.
  apply (search_triples_configured_patterns ascii_isupper sample_normalize
           sample_combining sample_re_sub sample_re_fullmatch sample_strip
           ("lang_code", "forms/N/form", "forms/N/roman", []) sample_forms false).
  apply (bool_decide_unpack _). by vm_compute.
Defined.

(** ** The storage and the main loop of [run] *)

Definition IPA : string := "ipa".
Definition ROMANIZATION : string := "roman".
Definition ASCII : string := "ascii".

Definition NON_ASCII_PATTERN : string := "[^a-z ]".

(** [Storage]: category -> language -> set of (word, IPA/romanization); the
    inner dictionaries are [defaultdict(set)]. *)
Abbreviation Storage := (gmap string (gmap string (gset (string * string))))
  (only parsing).

(** [storage[category][language]] as a set, empty when the language has no
    entry yet (the value a [defaultdict(set)] gives) or the category is
    missing. *)
Definition stored (storage : Storage) (category language : string)
    : gset (string * string) :=
  match storage !! category with
  | Some by_language => default ∅ (by_language !! language)
  | None => ∅
  end.

(** [add_entry]: [storage[category]] raises [KeyError] for a category that
    [storage] lacks; [storage[category][language]] creates the empty set of a
    new language. *)
Definition add_entry (storage : Storage) (category : string) (entry : Entry)
    : outcome Storage :=
  let '(language, word, romanization) := entry in
  match storage !! category with
  | None => Raise KeyError
  | Some by_language =>
      let language_storage := default ∅ (by_language !! language) in
      let language_entry := (word, romanization) in
      Ok (<[category :=
              <[language :=
                  if decide (language_entry ∈ language_storage) then language_storage
                  else language_storage ∪ {[language_entry]}]> by_language]> storage)
  end.

(** [text.startswith(prefix)] and [text.endswith(suffix)] *)
Definition startswith (text prefix : string) : bool := String.prefix prefix text.
Definition endswith (text suffix : string) : bool :=
  String.prefix (String.rev suffix) (String.rev text).

(** [bool(re.search(CLIPPEDLIKE_IPA_PATTERN, text))] for the pattern
    [^[/[]-|-[]/]$]: its first branch is anchored at the start and matches a
    slash or an opening bracket followed by a hyphen; its second branch
    matches a hyphen followed by a closing bracket or a slash at the end of
    the text, where [$] also matches before a final newline. *)
Definition is_clippedlike_ipa (text : string) : bool :=
  startswith text "/-" || startswith text "[-"
  || endswith text "-]" || endswith text "-/"
  || endswith text (String "-" (String "]" (String "010" "")))
  || endswith text (String "-" (String "/" (String "010" ""))).

(** A [for] loop that updates a state and may warn or raise. *)
Fixpoint traced_fold {A State} (f : State → A → traced State) (s : State)
    (xs : list A) : traced State :=
  match xs with
  | [] => mret s
  | x :: rest => s' ← f s x; traced_fold f s' rest
  end.

(** A [for index, x in enumerate(xs, start)] loop that updates a state and
    may raise. *)
Fixpoint outcome_fold_indexed {A State} (f : nat → State → A → outcome State)
    (start : nat) (s : State) (xs : list A) : outcome State :=
  match xs with
  | [] => Ok s
  | x :: rest => s' ← f start s x; outcome_fold_indexed f (S start) s' rest
  end.

(** The storage with which [run] starts: one empty [defaultdict(set)] per
    category. *)
Definition initial_storage : Storage :=
  {[ IPA := ∅; ROMANIZATION := ∅; ASCII := ∅ ]}.

Section Run.

(** Library functions, as above, and [anyascii.anyascii], [str.lower] and
    [re.sub] with a pattern compiled with [re.IGNORECASE]. *)
Variable isupper : string → bool.
Variable unicodedata_normalize : string → string → string.
Variable unicodedata_combining : string → nat.
Variable re_sub : string → string → string → string.
Variable re_fullmatch : string → bool → string → bool.
Variable strip : string → string.
Variable anyascii : string → string.
Variable lower : string → string.
Variable re_sub_ignorecase : string → string → string → string.

Definition romanization_to_ascii (romanization : string) : string :=
  re_sub_ignorecase NON_ASCII_PATTERN "" (lower (anyascii romanization)).

(** The body of [for index, (language, word, ipa) in enumerate(...)] *)
Definition add_ipa (index : nat) (storage : Storage) (entry : Entry)
    : outcome Storage :=
  let '(language, word, ipa) := entry in
  if negb ((0 <? index) && is_clippedlike_ipa ipa) then
    add_entry storage IPA (language, word, ipa)
  else Ok storage.

(** The body of [for index, (language, word, romanization) in enumerate(...)] *)
Definition add_romanization (latin : gset string) (index : nat) (storage : Storage)
    (entry : Entry) : outcome Storage :=
  let '(language, word, romanization) := entry in
  if decide (language ∉ latin) then
    storage ← add_entry storage ROMANIZATION (language, word, romanization);
    add_entry storage ASCII (language, word, romanization_to_ascii romanization)
  else Ok storage.

(** The body of the loop of [run] over the lines of the dump, from the value
    [data] parsed from the line; the progress messages of [log] are not
    modelled. *)
Definition run_data (latin : gset string) (storage : Storage) (data : json)
    : traced Storage :=
  storage ← traced_fold (fun storage patterns =>
      entries ← search_triples isupper unicodedata_normalize unicodedata_combining
                  re_sub re_fullmatch strip patterns data true;
      lift (outcome_fold_indexed add_ipa 0 storage entries))
    storage IPA_PATTERNS;
  traced_fold (fun storage patterns =>
      entries ← search_triples isupper unicodedata_normalize unicodedata_combining
                  re_sub re_fullmatch strip patterns data false;
      lift (outcome_fold_indexed (add_romanization latin) 0 storage entries))
    storage ROMANIZATION_PATTERNS.

(** The loop of [run] over the lines, from the values parsed from them and
    the storage that [run] creates. *)
Definition run_lines (latin : gset string) (lines : list json) : traced Storage :=
  traced_fold (run_data latin) initial_storage lines.

End Run.

(** *** Loops *)

Lemma traced_fold_is_Ok {A State} (f : State → A → traced State) (P : State → Prop)
    (xs : list A) (s : State) :
  (∀ s x, x ∈ xs → P s → ∃ s', result (f s x) = Ok s' ∧ P s') →
  P s → ∃ s', result (traced_fold f s xs) = Ok s' ∧ P s'.
Proof.
  revert s. induction xs as [|x rest IH]; intros s Hf Hs.
  - by exists s.
  - cbn [traced_fold]. rewrite result_bind.
    destruct (Hf s x (list_elem_of_here _ _) Hs) as (s' & -> & Hs').
    apply IH; [|done]. intros s'' x' Hx'. apply Hf. by apply list_elem_of_further.
Qed.

Lemma traced_fold_preserves {A State} (f : State → A → traced State)
    (P : State → Prop) (xs : list A) (s s' : State) :
  (∀ s x s', x ∈ xs → P s → result (f s x) = Ok s' → P s') →
  P s → result (traced_fold f s xs) = Ok s' → P s'.
Proof.
  revert s. induction xs as [|x rest IH]; intros s Hf Hs.
  - by intros [= <-].
  - cbn [traced_fold]. rewrite result_bind.
    destruct (result (f s x)) as [s1|] eqn:Hx; [|done].
    apply IH.
    + intros s2 x' s3 Hx'. apply Hf. by apply list_elem_of_further.
    + eapply Hf; [apply list_elem_of_here|done..].
Qed.

Lemma outcome_fold_indexed_is_Ok {A State} (f : nat → State → A → outcome State)
    (P : State → Prop) (xs : list A) (start : nat) (s : State) :
  (∀ index s x, P s → ∃ s', f index s x = Ok s' ∧ P s') →
  P s → ∃ s', outcome_fold_indexed f start s xs = Ok s' ∧ P s'.
Proof.
  intros Hf. revert start s. induction xs as [|x rest IH]; intros start s Hs.
  - by exists s.
  - cbn [outcome_fold_indexed].
    destruct (Hf start s x Hs) as (s' & -> & Hs'). by apply IH.
Qed.

Lemma outcome_fold_indexed_preserves {A State} (f : nat → State → A → outcome State)
    (P : State → Prop) (xs : list A) (start : nat) (s s' : State) :
  (∀ index s x s', P s → f index s x = Ok s' → P s') →
  P s → outcome_fold_indexed f start s xs = Ok s' → P s'.
Proof.
  intros Hf. revert start s. induction xs as [|x rest IH]; intros start s Hs.
  - by intros [= <-].
  - cbn [outcome_fold_indexed].
    destruct (f start s x) as [s1|] eqn:Hx; [|done].
    apply IH. by eapply Hf.
Qed.

(** *** [add_entry] *)

Lemma add_entry_stored (storage storage' : Storage) (category language word
    romanization : string) :
  add_entry storage category (language, word, romanization) = Ok storage' →
  category ∈ dom storage
  ∧ dom storage' = dom storage
  ∧ ∀ c l,
      stored storage' c l
      = if decide (c = category ∧ l = language)
        then stored storage c l ∪ {[(word, romanization)]}
        else stored storage c l.
Proof.
  unfold add_entry.
  destruct (storage !! category) as [by_language|] eqn:Hcategory; [|done].
  intros [= <-]. split_and!.
  - by apply elem_of_dom.
  - rewrite dom_insert_L. apply subseteq_union_1_L, singleton_subseteq_l.
    by apply elem_of_dom.
  - intros c l. unfold stored.
    destruct (decide (c = category ∧ l = language)) as [[-> ->]|Hne].
    + rewrite lookup_insert_eq, Hcategory, lookup_insert_eq. cbn [default].
      destruct (decide (_ ∈ _)) as [Hin|_]; [|done].
      symmetry. rewrite (comm_L (∪)).
      apply subseteq_union_1_L. by apply singleton_subseteq_l.
    + destruct (decide (c = category)) as [->|Hc].
      * rewrite lookup_insert_eq, Hcategory.
        rewrite lookup_insert_ne; [done|]. intros <-. by apply Hne.
      * by rewrite lookup_insert_ne.
Qed.

Lemma add_entry_is_Ok (storage : Storage) (category : string) (entry : Entry) :
  category ∈ dom storage → ∃ storage', add_entry storage category entry = Ok storage'.
Proof.
  intros [by_language Hcategory]%elem_of_dom.
  destruct entry as [[language word] romanization].
  unfold add_entry. rewrite Hcategory. by eexists.
Qed.

(** X14. In a storage that has the category, [add_entry] returns a storage
    with the same categories whose sets hold what they held, and the pair
    (word, romanization) in the set of the language of the entry under that
    category. *)
Theorem add_entry_adds (storage : Storage) (category language word
    romanization : string) :
  category ∈ dom storage →
  ∃ storage',
    add_entry storage category (language, word, romanization) = Ok storage'
    ∧ dom storage' = dom storage
    ∧ ∀ c l p,
        p ∈ stored storage' c l
        ↔ p ∈ stored storage c l
          ∨ (c = category ∧ l = language ∧ p = (word, romanization)).
Proof.
  intros Hcategory.
  destruct (add_entry_is_Ok storage category (language, word, romanization)
              Hcategory) as [storage' Hstorage'].
  exists storage'. split; [done|].
  apply add_entry_stored in Hstorage' as (_ & Hdom & Hstored).
  split; [done|]. intros c l p. rewrite Hstored.
  destruct (decide (c = category ∧ l = language)) as [[-> ->]|Hne].
  - rewrite elem_of_union, elem_of_singleton. split.
    + intros [Hp | ->]; [by left|by right].
    + intros [Hp|(_ & _ & ->)]; [by left|by right].
  - split; [by left|]. intros [Hp|(-> & -> & _)]; [done|]. by destruct Hne.
Qed.

Lemma add_entry_adds_witness :
  ∃ storage',
    add_entry initial_storage ROMANIZATION ("ja", "にほん", "nihon") = Ok storage'
    ∧ dom storage' = dom initial_storage
    ∧ ∀ c l p,
        p ∈ stored storage' c l
        ↔ p ∈ stored initial_storage c l
          ∨ (c = ROMANIZATION ∧ l = "ja" ∧ p = ("にほん", "nihon")).
Proof.
  apply (add_entry_adds initial_storage ROMANIZATION "ja" "にほん" "nihon").
  apply (bool_decide_unpack _). reflexivity.
Defined.

(** X15. In a storage that has the category, adding an entry a second time
    leaves the storage as the first addition made it. *)
Theorem add_entry_twice (storage : Storage) (category : string) (entry : Entry) :
  category ∈ dom storage →
  ∃ storage',
    add_entry storage category entry = Ok storage'
    ∧ add_entry storage' category entry = Ok storage'.
Proof.
  intros [by_language Hcategory]%elem_of_dom.
  destruct entry as [[language word] romanization]. unfold add_entry.
  rewrite Hcategory. eexists. split; [done|].
  rewrite lookup_insert_eq, lookup_insert_eq. cbn [from_option id].
  rewrite insert_insert_eq, insert_insert_eq.
  destruct (decide ((word, romanization) ∈ default ∅ (by_language !! language)))
    as [Hin|Hin].
  - by rewrite decide_True.
  - rewrite decide_True; [done|]. apply elem_of_union. right.
    by apply elem_of_singleton.
Qed.

Lemma add_entry_twice_witness :
  ∃ storage',
    add_entry initial_storage IPA ("en", "cat", "/kæt/") = Ok storage'
    ∧ add_entry storage' IPA ("en", "cat", "/kæt/") = Ok storage'.
Proof.
  apply (add_entry_twice initial_storage IPA ("en", "cat", "/kæt/")).
  apply (bool_decide_unpack _). reflexivity.
Defined.

(** *** The main loop *)

Lemma dom_initial_storage :
  dom initial_storage = ({[IPA; ROMANIZATION; ASCII]} : gset string).
Proof. apply (bool_decide_unpack _). by vm_compute. Qed.

Section RunProperties.

Context (isupper : string → bool).
Context (unicodedata_normalize : string → string → string).
Context (unicodedata_combining : string → nat).
Context (re_sub : string → string → string → string).
Context (re_fullmatch : string → bool → string → bool).
Context (strip : string → string).
Context (anyascii : string → string).
Context (lower : string → string).
Context (re_sub_ignorecase : string → string → string → string).

Let to_ascii := romanization_to_ascii anyascii lower re_sub_ignorecase.
Let add_romanization' := add_romanization anyascii lower re_sub_ignorecase.
Let run_data' := run_data isupper unicodedata_normalize unicodedata_combining
  re_sub re_fullmatch strip anyascii lower re_sub_ignorecase.
Let run_lines' := run_lines isupper unicodedata_normalize unicodedata_combining
  re_sub re_fullmatch strip anyascii lower re_sub_ignorecase.

Lemma add_ipa_is_Ok (index : nat) (storage : Storage) (entry : Entry) :
  dom storage = dom initial_storage →
  ∃ storage', add_ipa index storage entry = Ok storage'
              ∧ dom storage' = dom initial_storage.
Proof.
  intros Hdom. destruct entry as [[language word] ipa]. unfold add_ipa.
  destruct (negb _); [|by exists storage].
  destruct (add_entry_is_Ok storage IPA (language, word, ipa)) as [storage' Hadd].
  { rewrite Hdom, dom_initial_storage. apply elem_of_union_l, elem_of_union_l.
    by apply elem_of_singleton. }
  exists storage'. split; [done|].
  apply add_entry_stored in Hadd as (_ & -> & _). done.
Qed.

Lemma add_romanization_is_Ok (latin : gset string) (index : nat) (storage : Storage)
    (entry : Entry) :
  dom storage = dom initial_storage →
  ∃ storage', add_romanization' latin index storage entry = Ok storage'
              ∧ dom storage' = dom initial_storage.
Proof.
  intros Hdom. destruct entry as [[language word] romanization].
  unfold add_romanization', add_romanization.
  destruct (decide (language ∉ latin)); [|by exists storage].
  destruct (add_entry_is_Ok storage ROMANIZATION (language, word, romanization))
    as [storage1 Hadd1].
  { rewrite Hdom, dom_initial_storage. apply elem_of_union_l, elem_of_union_r.
    by apply elem_of_singleton. }
  rewrite Hadd1. cbn [mbind outcome_bind].
  apply add_entry_stored in Hadd1 as (_ & Hdom1 & _).
  destruct (add_entry_is_Ok storage1 ASCII
              (language, word, to_ascii romanization)) as [storage2 Hadd2].
  { rewrite Hdom1, Hdom, dom_initial_storage. apply elem_of_union_r.
    by apply elem_of_singleton. }
  exists storage2. split; [done|].
  apply add_entry_stored in Hadd2 as (_ & -> & _). by rewrite Hdom1.
Qed.

Lemma run_data_is_Ok (latin : gset string) (storage : Storage) (data : json) :
  dom storage = dom initial_storage →
  ∃ storage', result (run_data' latin storage data) = Ok storage'
              ∧ dom storage' = dom initial_storage.
Proof.
  intros Hdom. unfold run_data', run_data. rewrite result_bind.
  destruct (traced_fold_is_Ok
              (fun storage patterns =>
                 entries ← search_triples isupper unicodedata_normalize
                             unicodedata_combining re_sub re_fullmatch strip
                             patterns data true;
                 lift (outcome_fold_indexed add_ipa 0 storage entries))
              (fun storage => dom storage = dom initial_storage)
              IPA_PATTERNS storage) as (storage1 & -> & Hdom1); [|done|].
  { intros s patterns Hpatterns Hs. rewrite result_bind.
    destruct (search_triples_is_Ok isupper unicodedata_normalize
                unicodedata_combining re_sub re_fullmatch strip patterns data true)
      as [entries ->].
    { apply configured_patterns_rebinding_free, elem_of_app. by left. }
    rewrite result_lift. apply outcome_fold_indexed_is_Ok; [|done].
    intros. by apply add_ipa_is_Ok. }
  apply (traced_fold_is_Ok _ (fun storage => dom storage = dom initial_storage));
    [|done].
  intros s patterns Hpatterns Hs. rewrite result_bind.
  destruct (search_triples_is_Ok isupper unicodedata_normalize
              unicodedata_combining re_sub re_fullmatch strip patterns data false)
    as [entries ->].
  { apply configured_patterns_rebinding_free, elem_of_app. by right. }
  rewrite result_lift. apply outcome_fold_indexed_is_Ok; [|done].
  intros. by apply add_romanization_is_Ok.
Qed.

(** An invariant of the storage that the two loop bodies keep is kept by the
    processing of a line. *)
Lemma run_data_preserves (P : Storage → Prop) (latin : gset string)
    (storage storage' : Storage) (data : json) :
  (∀ index s entry s', P s → add_ipa index s entry = Ok s' → P s') →
  (∀ index s entry s', P s → add_romanization' latin index s entry = Ok s' → P s') →
  P storage → result (run_data' latin storage data) = Ok storage' → P storage'.
Proof.
  intros Hipa Hromanization Hstorage. unfold run_data', run_data.
  rewrite result_bind.
  destruct (result (traced_fold _ storage IPA_PATTERNS)) as [storage1|] eqn:Hfirst;
    [|done].
  apply traced_fold_preserves.
  - intros s patterns s' _ Hs. rewrite result_bind.
    destruct (result (search_triples _ _ _ _ _ _ patterns data false))
      as [entries|]; [|done].
    rewrite result_lift. by apply outcome_fold_indexed_preserves.
  - revert Hfirst. apply traced_fold_preserves; [|done].
    intros s patterns s' _ Hs. rewrite result_bind.
    destruct (result (search_triples _ _ _ _ _ _ patterns data true))
      as [entries|]; [|done].
    rewrite result_lift. by apply outcome_fold_indexed_preserves.
Qed.

Lemma run_lines_is_Ok (latin : gset string) (lines : list json) :
  ∃ storage,
    result (run_lines' latin lines) = Ok storage
    ∧ dom storage = dom initial_storage.
Proof.
  unfold run_lines', run_lines.
  apply (traced_fold_is_Ok _ (fun storage => dom storage = dom initial_storage));
    [|done].
  intros storage data _. apply run_data_is_Ok.
Qed.

(** X16. The loop of [run] over the lines raises no exception, whatever the
    lines hold: every category that [add_entry] is called with is in the
    storage, and no configured pattern fails the assertion.  The storage
    keeps its three categories. *)
Theorem run_lines_returns (latin : gset string) (lines : list json) :
  ∃ storage,
    result (run_lines' latin lines) = Ok storage
    ∧ dom storage = {[IPA; ROMANIZATION; ASCII]}.
Proof. rewrite <-dom_initial_storage. apply run_lines_is_Ok. Qed.

Lemma add_ipa_stored (index : nat) (storage storage' : Storage) (entry : Entry) :
  add_ipa index storage entry = Ok storage' →
  ∀ category language,
    category ≠ IPA →
    stored storage' category language = stored storage category language.
Proof.
  destruct entry as [[language' word] ipa]. unfold add_ipa.
  destruct (negb _); [|by intros [= <-]].
  intros (_ & _ & Hstored)%add_entry_stored category language Hcategory.
  rewrite Hstored, decide_False; [done|]. by intros [? _].
Qed.

Lemma run_lines_skips_latin (latin : gset string) (lines : list json)
    (storage : Storage) (language : string) :
  result (run_lines' latin lines) = Ok storage →
  language ∈ latin →
  stored storage ROMANIZATION language = ∅ ∧ stored storage ASCII language = ∅.
Proof.
  intros Hstorage Hlatin. revert Hstorage. unfold run_lines', run_lines.
  apply (traced_fold_preserves _
           (fun storage => stored storage ROMANIZATION language = ∅
                           ∧ stored storage ASCII language = ∅)); [|done].
  intros s data s' _.
  apply (run_data_preserves
           (fun storage => stored storage ROMANIZATION language = ∅
                           ∧ stored storage ASCII language = ∅)).
  - intros index s1 entry s2 [Hroman Hascii] Hadd.
    by rewrite !(add_ipa_stored _ _ _ _ Hadd) by done.
  - intros index s1 [[language' word] romanization] s2 [Hroman Hascii].
    unfold add_romanization', add_romanization.
    destruct (decide (language' ∉ latin)) as [Hnot|]; [|by intros [= <-]].
    destruct (add_entry s1 ROMANIZATION _) as [s1'|] eqn:Hadd1; [|done].
    cbn [mbind outcome_bind]. intros Hadd2.
    apply add_entry_stored in Hadd1 as (_ & _ & Hstored1).
    apply add_entry_stored in Hadd2 as (_ & _ & Hstored2).
    rewrite !Hstored2, !Hstored1.
    rewrite !decide_False; [done|intros [_ ->]; by apply Hnot..].
Qed.

(** X17. The languages of [latin] get no romanization: the loop over any
    lines returns a storage in which their sets under [ROMANIZATION] and
    [ASCII] are empty. *)
Theorem run_lines_latin (latin : gset string) (lines : list json)
    (language : string) :
  language ∈ latin →
  ∃ storage,
    result (run_lines' latin lines) = Ok storage
    ∧ stored storage ROMANIZATION language = ∅
    ∧ stored storage ASCII language = ∅.
Proof.
  intros Hlatin. destruct (run_lines_is_Ok latin lines) as (storage & Hstorage & _).
  exists storage. split; [done|]. by apply (run_lines_skips_latin latin lines).
Qed.

Lemma run_lines_mirrors (latin : gset string) (lines : list json)
    (storage : Storage) (language : string) :
  result (run_lines' latin lines) = Ok storage →
  stored storage ASCII language
  = set_map (fun p : string * string => (p.1, to_ascii p.2))
      (stored storage ROMANIZATION language).
Proof.
  intros Hstorage. revert language. revert Hstorage. unfold run_lines', run_lines.
  apply (traced_fold_preserves _
           (fun storage => ∀ language,
              stored storage ASCII language
              = set_map (fun p : string * string => (p.1, to_ascii p.2))
                  (stored storage ROMANIZATION language))).
  2: { intros language.
       change (stored initial_storage ASCII language)
         with (∅ : gset (string * string)).
       change (stored initial_storage ROMANIZATION language)
         with (∅ : gset (string * string)).
       by rewrite set_map_empty. }
  intros s data s' _.
  apply (run_data_preserves
           (fun storage => ∀ language,
              stored storage ASCII language
              = set_map (fun p : string * string => (p.1, to_ascii p.2))
                  (stored storage ROMANIZATION language))).
  - intros index s1 entry s2 Hmirror Hadd language.
    by rewrite !(add_ipa_stored _ _ _ _ Hadd) by done.
  - intros index s1 [[language' word] romanization] s2 Hmirror.
    unfold add_romanization', add_romanization.
    destruct (decide (language' ∉ latin)) as [Hnot|]; [|by intros [= <-]].
    destruct (add_entry s1 ROMANIZATION _) as [s1'|] eqn:Hadd1; [|done].
    cbn [mbind outcome_bind]. intros Hadd2 language.
    apply add_entry_stored in Hadd1 as (_ & _ & Hstored1).
    apply add_entry_stored in Hadd2 as (_ & _ & Hstored2).
    rewrite !Hstored2, !Hstored1.
    rewrite (decide_False (P := ASCII = ROMANIZATION ∧ _)) by (by intros [? _]).
    rewrite (decide_False (P := ROMANIZATION = ASCII ∧ _)) by (by intros [? _]).
    destruct (decide (language = language')) as [->|Hne].
    + rewrite !decide_True by done.
      by rewrite set_map_union_L, set_map_singleton_L, Hmirror.
    + rewrite !decide_False by (by intros [_ ?]). apply Hmirror.
Qed.

(** X18. The sets under [ASCII] mirror those under [ROMANIZATION]: the loop
    over any lines returns a storage in which the set of a language under
    [ASCII] holds the pairs (word, [romanization_to_ascii] romanization) of
    the pairs (word, romanization) of its set under [ROMANIZATION], and
    nothing else. *)
Theorem run_lines_ascii (latin : gset string) (lines : list json) :
  ∃ storage,
    result (run_lines' latin lines) = Ok storage
    ∧ ∀ language,
        stored storage ASCII language
        = set_map (fun p : string * string => (p.1, to_ascii p.2))
            (stored storage ROMANIZATION language).
Proof.
  destruct (run_lines_is_Ok latin lines) as (storage & Hstorage & _).
  exists storage. split; [done|]. intros language.
  by apply (run_lines_mirrors latin lines).
Qed.

End RunProperties.

(** *** The entries of one extraction *)

Lemma add_ipa_entries_from (start : nat) (storage : Storage) (entries : list Entry) :
  IPA ∈ dom storage →
  ∃ storage',
    outcome_fold_indexed add_ipa start storage entries = Ok storage'
    ∧ dom storage' = dom storage
    ∧ ∀ language p,
        p ∈ stored storage' IPA language
        ↔ p ∈ stored storage IPA language
          ∨ ∃ index word ipa,
              entries !! index = Some (language, word, ipa)
              ∧ p = (word, ipa)
              ∧ (start + index = 0 ∨ is_clippedlike_ipa ipa = false).
Proof.
  revert start storage.
  induction entries as [|[[language' word'] ipa'] rest IH]; intros start storage Hdom.
  - exists storage. split_and!; [done..|]. intros language p. split; [by left|].
    by intros [Hp|(index & word & ipa & ? & _)].
  - cbn [outcome_fold_indexed].
    change (add_ipa start storage (language', word', ipa'))
      with (if negb ((0 <? start) && is_clippedlike_ipa ipa')
            then add_entry storage IPA (language', word', ipa') else Ok storage).
    destruct (negb ((0 <? start) && is_clippedlike_ipa ipa')) eqn:Hkeep.
    + destruct (add_entry_is_Ok storage IPA (language', word', ipa') Hdom)
        as [storage1 Hadd].
      rewrite Hadd. cbn [mbind outcome_bind].
      apply add_entry_stored in Hadd as (_ & Hdom1 & Hstored1).
      destruct (IH (S start) storage1) as (storage' & -> & Hdom' & Hstored');
        [by rewrite Hdom1|].
      exists storage'. split_and!; [done|by rewrite Hdom', Hdom1|].
      intros language p. rewrite Hstored', Hstored1. split.
      * intros [Hp|(index & word & ipa & Hlookup & -> & Hindex)].
        -- destruct (decide (IPA = IPA ∧ language = language')) as [[_ ->]|_];
             [|by left].
           apply elem_of_union in Hp as [Hp | ->%elem_of_singleton]; [by left|].
           right. exists 0, word', ipa'. split_and!; [done..|].
           rewrite Nat.add_0_r. apply negb_true_iff, andb_false_iff in Hkeep
             as [Hstart%Nat.ltb_ge|Hclipped]; [left; lia|by right].
        -- right. exists (S index), word, ipa.
           split_and!; [done..|]. by rewrite Nat.add_succ_r.
      * intros [Hp|([|index] & word & ipa & Hlookup & -> & Hindex)].
        -- left. destruct (decide _); [apply elem_of_union; by left|done].
        -- injection Hlookup as -> -> ->. left.
           rewrite decide_True by done. apply elem_of_union. right.
           by apply elem_of_singleton.
        -- right. exists index, word, ipa.
           split_and!; [done..|]. by rewrite Nat.add_succ_r in Hindex.
    + cbn [mbind outcome_bind].
      destruct (IH (S start) storage Hdom) as (storage' & -> & Hdom' & Hstored').
      exists storage'. split_and!; [done..|].
      intros language p. rewrite Hstored'. split.
      * intros [Hp|(index & word & ipa & Hlookup & -> & Hindex)]; [by left|].
        right. exists (S index), word, ipa.
        split_and!; [done..|]. by rewrite Nat.add_succ_r.
      * intros [Hp|([|index] & word & ipa & Hlookup & -> & Hindex)]; [by left| |].
        -- injection Hlookup as -> -> ->.
           apply negb_false_iff, andb_true_iff in Hkeep as [Hstart%Nat.ltb_lt Hclipped].
           rewrite Nat.add_0_r in Hindex. destruct Hindex; [lia|congruence].
        -- right. exists index, word, ipa.
           split_and!; [done..|]. by rewrite Nat.add_succ_r in Hindex.
Qed.

(** X19. The entries of one extraction of IPA, added to a storage that has
    the category: the sets under [IPA] hold what they held and the pairs
    (word, ipa) of the entries that are the first of the extraction or whose
    IPA is not clipped-like; nothing else is added, and no exception is
    raised. *)
Theorem add_ipa_entries (storage : Storage) (entries : list Entry) :
  IPA ∈ dom storage →
  ∃ storage',
    outcome_fold_indexed add_ipa 0 storage entries = Ok storage'
    ∧ ∀ language p,
        p ∈ stored storage' IPA language
        ↔ p ∈ stored storage IPA language
          ∨ ∃ index word ipa,
              entries !! index = Some (language, word, ipa)
              ∧ p = (word, ipa)
              ∧ (index = 0 ∨ is_clippedlike_ipa ipa = false).
Proof.
  intros Hdom.
  destruct (add_ipa_entries_from 0 storage entries Hdom)
    as (storage' & Hstorage' & _ & Hstored).
  by exists storage'.
Qed.

Lemma add_ipa_entries_witness :
  ∃ storage',
    outcome_fold_indexed add_ipa 0 initial_storage
      [("en", "-tion", "/-ʃən/"); ("en", "-tion", "/-ʃn̩/"); ("en", "cat", "/kæt/")]
    = Ok storage'
    ∧ ∀ language p,
        p ∈ stored storage' IPA language
        ↔ p ∈ stored initial_storage IPA language
          ∨ ∃ index word ipa,
              [("en", "-tion", "/-ʃən/"); ("en", "-tion", "/-ʃn̩/");
               ("en", "cat", "/kæt/")] !! index
              = Some (language, word, ipa)
              ∧ p = (word, ipa)
              ∧ (index = 0 ∨ is_clippedlike_ipa ipa = false).
Proof.
  apply (add_ipa_entries initial_storage
           [("en", "-tion", "/-ʃən/"); ("en", "-tion", "/-ʃn̩/"); ("en", "cat", "/kæt/")]).
  apply (bool_decide_unpack _). reflexivity.
Defined.

(** Sample instances of [anyascii.anyascii], [str.lower] and [re.sub], for
    romanizations made of lower-case ASCII letters. *)
Definition sample_anyascii (text : string) : string := text.
Definition sample_lower (text : string) : string := text.
Definition sample_re_sub_ignorecase (pattern replacement text : string) : string := text.

Lemma run_lines_latin_witness :
  ∃ storage,
    result (run_lines ascii_isupper sample_normalize sample_combining sample_re_sub
              sample_re_fullmatch sample_strip sample_anyascii sample_lower
              sample_re_sub_ignorecase {["ja"]} [sample_forms; sample_tagged])
    = Ok storage
    ∧ stored storage ROMANIZATION "ja" = ∅
    ∧ stored storage ASCII "ja" = ∅.
Proof.
  apply (run_lines_latin ascii_isupper sample_normalize sample_combining
           sample_re_sub sample_re_fullmatch sample_strip sample_anyascii
           sample_lower sample_re_sub_ignorecase {["ja"]}
           [sample_forms; sample_tagged] "ja").
  apply (bool_decide_unpack _). reflexivity.
Defined.

(** ** What the main loop stores *)

Lemma for_each_Forall {A B} (f : A → traced (list B)) (Q : B → Prop)
    (xs : list A) (found : list B) :
  (∀ x ys, result (f x) = Ok ys → Forall Q ys) →
  result (for_each f xs) = Ok found → Forall Q found.
Proof.
  intros Hf. revert found. induction xs as [|x rest IH]; intros found.
  - intros [= <-]. constructor.
  - cbn [for_each]. rewrite result_bind.
    destruct (result (f x)) as [ys|] eqn:Hx; [|done].
    rewrite result_bind.
    destruct (result (for_each f rest)) as [ys'|] eqn:Hrest; [|done].
    intros [= <-]. apply Forall_app. split; [by eapply Hf|by apply IH].
Qed.

Lemma outcome_fold_indexed_preserves_in {A State}
    (f : nat → State → A → outcome State) (P : State → Prop) (xs : list A)
    (start : nat) (s s' : State) :
  (∀ index s x s', x ∈ xs → P s → f index s x = Ok s' → P s') →
  P s → outcome_fold_indexed f start s xs = Ok s' → P s'.
Proof.
  revert start s. induction xs as [|x rest IH]; intros start s Hf Hs.
  - by intros [= <-].
  - cbn [outcome_fold_indexed].
    destruct (f start s x) as [s1|] eqn:Hx; [|done].
    apply IH.
    + intros index s2 x' s3 Hx'. apply Hf. by apply list_elem_of_further.
    + eapply Hf; [apply list_elem_of_here|done..].
Qed.

Section Stored.

Context (isupper : string → bool).
Context (unicodedata_normalize : string → string → string).
Context (unicodedata_combining : string → nat).
Context (re_sub : string → string → string → string).
Context (re_fullmatch : string → bool → string → bool).
Context (strip : string → string).
Context (anyascii : string → string).
Context (lower : string → string).
Context (re_sub_ignorecase : string → string → string → string).

Let is_valid_entry' := is_valid_entry unicodedata_combining re_fullmatch.
Let search_triples' := search_triples isupper unicodedata_normalize
  unicodedata_combining re_sub re_fullmatch strip.
Let run_lines' := run_lines isupper unicodedata_normalize unicodedata_combining
  re_sub re_fullmatch strip anyascii lower re_sub_ignorecase.

(** Every entry that an extraction returns has passed [is_valid_entry]. *)
Lemma search_triples_valid (patterns : SearchPatterns) (data : json) (is_ipa : bool)
    (entries : list Entry) :
  result (search_triples' patterns data is_ipa) = Ok entries →
  Forall (fun entry => is_valid_entry' entry is_ipa = true) entries.
Proof.
  destruct patterns as [[[language_pattern word_pattern] romanization_pattern] conditions].
  unfold search_triples', search_triples. rewrite result_bind.
  destruct (result (search_conditions _ _ _)) as [condition_results|]; [|done].
  rewrite result_bind.
  destruct (result (search_values _ language_pattern _ _)) as [languages|]; [|done].
  rewrite result_bind.
  destruct (result (search_values _ word_pattern _ _)) as [words|]; [|done].
  rewrite result_bind.
  destruct (result (search_values _ romanization_pattern _ _)) as [romanizations|];
    [|done].
  rewrite result_bind, result_lift.
  destruct (consolidate_results _) as [consolidated|]; [|done].
  apply for_each_Forall. intros t ys.
  rewrite (result_bind (lift (last_three t))), result_lift.
  destruct (last_three t) as [[[language word] romanization]|]; [|done].
  cbn zeta. rewrite result_ret.
  destruct (is_valid_entry _ _ _ is_ipa) eqn:Hvalid; intros [= <-]; by repeat constructor.
Qed.


Lemma run_data_preserves_valid (P : Storage → Prop) (latin : gset string)
    (storage storage' : Storage) (data : json) :
  (∀ index s entry s',
     is_valid_entry' entry true = true → P s → add_ipa index s entry = Ok s' → P s') →
  (∀ index s entry s',
     is_valid_entry' entry false = true → P s →
     add_romanization anyascii lower re_sub_ignorecase latin index s entry = Ok s' →
     P s') →
  P storage →
  result (run_data isupper unicodedata_normalize unicodedata_combining re_sub
            re_fullmatch strip anyascii lower re_sub_ignorecase latin storage data)
  = Ok storage' →
  P storage'.
Proof.
  intros Hipa Hromanization Hstorage. unfold run_data. rewrite result_bind.
  destruct (result (traced_fold _ storage IPA_PATTERNS)) as [storage1|] eqn:Hfirst;
    [|done].
  apply traced_fold_preserves.
  - intros s patterns s' _ Hs. rewrite result_bind.
    destruct (result (search_triples _ _ _ _ _ _ patterns data false))
      as [entries|] eqn:Hentries; [|done].
    apply search_triples_valid in Hentries. rewrite Forall_forall in Hentries.
    rewrite result_lift. apply outcome_fold_indexed_preserves_in; [|done].
    intros index s1 entry s2 Hentry. by apply Hromanization, Hentries.
  - revert Hfirst. apply traced_fold_preserves; [|done].
    intros s patterns s' _ Hs. rewrite result_bind.
    destruct (result (search_triples _ _ _ _ _ _ patterns data true))
      as [entries|] eqn:Hentries; [|done].
    apply search_triples_valid in Hentries. rewrite Forall_forall in Hentries.
    rewrite result_lift. apply outcome_fold_indexed_preserves_in; [|done].
    intros index s1 entry s2 Hentry. by apply Hipa, Hentries.
Qed.

(** X20. Whatever the lines hold, every pair that the loop of [run] stores
    under [IPA], with its language, is an entry that [is_valid_entry] accepts
    as IPA, and every pair stored under [ROMANIZATION] one that it accepts as
    a romanization. *)
Theorem run_lines_valid (latin : gset string) (lines : list json) :
  ∃ storage,
    result (run_lines' latin lines) = Ok storage
    ∧ ∀ language word romanization,
        ((word, romanization) ∈ stored storage IPA language →
         is_valid_entry' (language, word, romanization) true = true)
        ∧ ((word, romanization) ∈ stored storage ROMANIZATION language →
           is_valid_entry' (language, word, romanization) false = true).
Proof.
  destruct (run_lines_is_Ok isupper unicodedata_normalize unicodedata_combining
              re_sub re_fullmatch strip anyascii lower re_sub_ignorecase latin lines)
    as (storage & Hstorage & _).
  exists storage. split; [done|]. revert Hstorage. unfold run_lines', run_lines.
  set (P := fun storage : Storage =>
         ∀ language word romanization,
           ((word, romanization) ∈ stored storage IPA language →
            is_valid_entry' (language, word, romanization) true = true)
           ∧ ((word, romanization) ∈ stored storage ROMANIZATION language →
              is_valid_entry' (language, word, romanization) false = true)).
  apply (traced_fold_preserves _ P).
  2: { intros language word romanization. split; by intros ?%not_elem_of_empty. }
  intros s data s' _. apply (run_data_preserves_valid P).
  - intros index s1 [[language' word'] ipa'] s2 Hvalid Hs1 Hadd.
    intros language word romanization.
    rewrite (add_ipa_stored _ _ _ _ Hadd ROMANIZATION) by done.
    split; [|apply Hs1]. revert Hadd. unfold add_ipa.
    destruct (negb _); [|intros [= <-]; apply Hs1].
    intros (_ & _ & ->)%add_entry_stored.
    destruct (decide (IPA = IPA ∧ language = language')) as [[_ ->]|_]; [|apply Hs1].
    intros [Hin | Hnew%elem_of_singleton]%elem_of_union; [by apply Hs1|].
    by injection Hnew as -> ->.
  - intros index s1 [[language' word'] romanization'] s2 Hvalid Hs1.
    unfold add_romanization.
    destruct (decide (language' ∉ latin)) as [Hnot|]; [|by intros [= <-]].
    destruct (add_entry s1 ROMANIZATION _) as [s1'|] eqn:Hadd1; [|done].
    cbn [mbind outcome_bind]. intros Hadd2 language word romanization.
    apply add_entry_stored in Hadd1 as (_ & _ & Hstored1).
    apply add_entry_stored in Hadd2 as (_ & _ & Hstored2).
    rewrite !Hstored2, !Hstored1.
    rewrite (decide_False (P := IPA = ASCII ∧ _)) by (by intros [? _]).
    rewrite (decide_False (P := IPA = ROMANIZATION ∧ _)) by (by intros [? _]).
    rewrite (decide_False (P := ROMANIZATION = ASCII ∧ _)) by (by intros [? _]).
    split; [apply Hs1|].
    destruct (decide (ROMANIZATION = ROMANIZATION ∧ language = language'))
      as [[_ ->]|_]; [|apply Hs1].
    intros [Hin | Hnew%elem_of_singleton]%elem_of_union; [by apply Hs1|].
    by injection Hnew as -> ->.
Qed.

End Stored.

(** * [cmudict/collection/collect.py] *)

Module CMUdict.

(** ** Lines of two fields *)

(** [delimiter.join(pieces)] *)
Fixpoint join (sep : string) (pieces : list string) : string :=
  match pieces with
  | [] => ""
  | [piece] => piece
  | piece :: rest => piece +:+ sep +:+ join sep rest
  end.

(** [sep in text]: the bytes of [sep] occur in [text], which for a [sep] of
    one character is an occurrence of the character. *)
Fixpoint occurs (sep text : string) : bool :=
  String.prefix sep text
  || match text with
     | String _ rest => occurs sep rest
     | "" => false
     end.

(** The pieces of [text.split(sep)] for a separator that is not empty: the
    text is cut at the occurrences of the separator met from left to right,
    each sought after the end of the one before it.  [skip] counts the
    bytes ahead that belong to the occurrence met last. *)
Fixpoint split_from (sep : string) (skip : nat) (text : string) : list string :=
  match text with
  | "" => [""]
  | String a rest =>
      match skip with
      | S skip => split_from sep skip rest
      | 0 =>
          if String.prefix sep text then
            "" :: split_from sep (String.length sep - 1) rest
          else
            match split_from sep 0 rest with
            | piece :: pieces => String a piece :: pieces
            | [] => [String a ""]
            end
      end
  end.

(** [text.split(sep)]; an empty separator raises [ValueError]. *)
Definition str_split (sep text : string) : outcome (list string) :=
  if decide (sep = "") then Raise ValueError else Ok (split_from sep 0 text).

(** A delimiter of [split_pair]: a [str] or a compiled pattern, given by its
    source. *)
Inductive delimiter :=
  | Str (sep : string)
  | Pattern (source : string).

Definition TAB : delimiter := Str (String "009" "").
Definition CMUDICT_TAB : delimiter := Pattern " {2,}".

Section SplitPair.

(** [re.split] *)
Variable re_split : string → string → list string.

Definition split_pair (delimiter : delimiter) (text : string)
    : outcome (string * string) :=
  sections ← match delimiter with
             | Pattern source => Ok (re_split source text)
             | Str sep => str_split sep text
             end;
  match sections with
  | [first; second] => Ok (first, second)
  | _ => Raise ValueError
  end.

End SplitPair.

(** Every byte of the text continues a character. *)
Fixpoint continuation (text : string) : bool :=
  match text with
  | "" => true
  | String a rest => is_continuation a && continuation rest
  end.

(** A [str] of one character: a first byte that continues no character,
    followed by the bytes that continue it. *)
Definition one_character (text : string) : bool :=
  match text with
  | "" => false
  | String a rest => negb (is_continuation a) && continuation rest
  end.

(** *** Prefixes *)

Lemma string_prefix_cons (a b : ascii) (s t : string) :
  String.prefix (String a s) (String b t) = bool_decide (a = b) && String.prefix s t.
Proof.
  cbn [String.prefix]. destruct (ascii_dec a b) as [->|Hne].
  - by rewrite bool_decide_eq_true_2.
  - by rewrite bool_decide_eq_false_2.
Qed.

Lemma string_prefix_nil_l (t : string) : String.prefix "" t = true.
Proof. by destruct t. Qed.

Lemma string_prefix_app (s t : string) : String.prefix s (s +:+ t) = true.
Proof.
  induction s as [|a s IH]; [apply string_prefix_nil_l|].
  change (String a s +:+ t) with (String a (s +:+ t)).
  by rewrite string_prefix_cons, bool_decide_eq_true_2, IH.
Qed.

Lemma string_prefix_inv (s t : string) :
  String.prefix s t = true → ∃ rest, t = s +:+ rest.
Proof.
  revert t. induction s as [|a s IH]; intros t; [by exists t|].
  destruct t as [|b t]; [done|]. rewrite string_prefix_cons.
  intros [->%bool_decide_eq_true [rest ->]%IH]%andb_true_iff. by exists rest.
Qed.

Lemma string_prefix_app_l (s t rest : string) :
  String.prefix s t = true → String.prefix s (t +:+ rest) = true.
Proof.
  revert t. induction s as [|a s IH]; intros t; [intros; apply string_prefix_nil_l|].
  destruct t as [|b t]; [done|].
  change (String b t +:+ rest) with (String b (t +:+ rest)).
  rewrite !string_prefix_cons. intros [-> Hprefix]%andb_true_iff.
  by rewrite IH.
Qed.

(** A prefix of a concatenation lies in its first part or reaches the second. *)
Lemma string_prefix_app_cases (s t rest : string) :
  String.prefix s (t +:+ rest) = true →
  String.prefix s t = true ∨ ∃ u, s = t +:+ u ∧ String.prefix u rest = true.
Proof.
  revert s. induction t as [|b t IH]; intros s Hprefix; [right; by exists s|].
  destruct s as [|a s]; [by left|].
  change (String b t +:+ rest) with (String b (t +:+ rest)) in Hprefix.
  rewrite string_prefix_cons in Hprefix.
  apply andb_true_iff in Hprefix as [->%bool_decide_eq_true Hprefix].
  destruct (IH s Hprefix) as [Hin|(u & -> & Hu)].
  - left. by rewrite string_prefix_cons, bool_decide_eq_true_2, Hin.
  - right. by exists u.
Qed.

Lemma string_app_nil_r (s : string) : s +:+ "" = s.
Proof.
  induction s as [|a s IH]; [done|].
  change (String a s +:+ "") with (String a (s +:+ "")). by rewrite IH.
Qed.

Lemma string_prefix_refl (s : string) : String.prefix s s = true.
Proof. rewrite <-(string_app_nil_r s) at 2. apply string_prefix_app. Qed.

Lemma string_length_app (s t : string) :
  String.length (s +:+ t) = String.length s + String.length t.
Proof.
  induction s as [|a s IH]; [done|].
  change (String a s +:+ t) with (String a (s +:+ t)). cbn [String.length].
  by rewrite IH.
Qed.

Lemma continuation_app (s t : string) :
  continuation (s +:+ t) = continuation s && continuation t.
Proof.
  induction s as [|a s IH]; [done|].
  change (String a s +:+ t) with (String a (s +:+ t)). cbn [continuation].
  by rewrite IH, andb_assoc.
Qed.

Lemma occurs_cons (sep : string) (a : ascii) (text : string) :
  occurs sep (String a text)
  = String.prefix sep (String a text) || occurs sep text.
Proof. reflexivity. Qed.

(** *** The pieces of a text *)

Lemma split_from_skip (sep skipped rest : string) :
  split_from sep (String.length skipped) (skipped +:+ rest) = split_from sep 0 rest.
Proof.
  induction skipped as [|a skipped IH]; [done|].
  change (String a skipped +:+ rest) with (String a (skipped +:+ rest)).
  cbn [String.length split_from]. exact IH.
Qed.

(** At an occurrence of the separator a piece ends and the search goes on
    after the occurrence. *)
Lemma split_from_match (sep rest : string) :
  sep ≠ "" → split_from sep 0 (sep +:+ rest) = "" :: split_from sep 0 rest.
Proof.
  intros Hsep. destruct sep as [|a sep]; [done|].
  change (String a sep +:+ rest) with (String a (sep +:+ rest)).
  cbn [split_from].
  change (String a (sep +:+ rest)) with (String a sep +:+ rest).
  rewrite string_prefix_app.
  replace (String.length (String a sep) - 1) with (String.length sep)
    by (cbn [String.length]; lia).
  by rewrite split_from_skip.
Qed.

Lemma split_from_mismatch (sep : string) (a : ascii) (rest : string) :
  String.prefix sep (String a rest) = false →
  split_from sep 0 (String a rest)
  = match split_from sep 0 rest with
    | piece :: pieces => String a piece :: pieces
    | [] => [String a ""]
    end.
Proof. intros Hprefix. cbn [split_from]. by rewrite Hprefix. Qed.

Lemma split_from_not_nil (sep : string) (skip : nat) (text : string) :
  split_from sep skip text ≠ [].
Proof.
  revert skip. induction text as [|a rest IH]; intros skip; [done|].
  cbn [split_from]. destruct skip as [|skip]; [|apply IH].
  destruct (String.prefix sep (String a rest)); [done|].
  by destruct (split_from sep 0 rest).
Qed.

(** Joining the pieces of a text gives the text back, and no piece holds the
    separator. *)
Lemma join_split_from (sep : string) (n : nat) (text : string) :
  sep ≠ "" →
  String.length text ≤ n →
  join sep (split_from sep 0 text) = text
  ∧ Forall (fun piece => occurs sep piece = false) (split_from sep 0 text).
Proof.
  intros Hsep. revert text. induction n as [|n IH]; intros text Hlength.
  - destruct text; [|cbn [String.length] in Hlength; lia].
    split; [done|]. repeat constructor. by destruct sep.
  - destruct text as [|a rest].
    { split; [done|]. repeat constructor. by destruct sep. }
    destruct (String.prefix sep (String a rest)) eqn:Hprefix.
    + apply string_prefix_inv in Hprefix as [rest' Hrest']. rewrite Hrest'.
      rewrite split_from_match by done.
      destruct (IH rest') as [Hjoin Hpieces].
      { apply (f_equal String.length) in Hrest'. rewrite string_length_app in Hrest'.
        cbn [String.length] in Hrest', Hlength.
        destruct sep; [done|]. cbn [String.length] in Hrest'. lia. }
      pose proof (split_from_not_nil sep 0 rest') as Hnil.
      destruct (split_from sep 0 rest') as [|piece pieces] eqn:Hsplit; [done|].
      split.
      * change (join sep ("" :: piece :: pieces))
          with ("" +:+ sep +:+ join sep (piece :: pieces)).
        by rewrite Hjoin.
      * constructor; [|done]. by destruct sep.
    + rewrite split_from_mismatch by done.
      destruct (IH rest) as [Hjoin Hpieces].
      { cbn [String.length] in Hlength. lia. }
      pose proof (split_from_not_nil sep 0 rest) as Hnil.
      destruct (split_from sep 0 rest) as [|piece pieces]; [done|].
      apply Forall_cons in Hpieces as [Hpiece Hpieces]. split.
      * destruct pieces as [|piece' pieces]; cbn [join] in *; by rewrite <-Hjoin.
      * constructor; [|done]. rewrite occurs_cons, Hpiece, orb_false_r.
        apply not_true_iff_false. intros Hin.
        assert (String.prefix sep (String a rest) = true) as Hrest; [|congruence].
        rewrite <-Hjoin. destruct pieces as [|piece' pieces]; [done|].
        change (join sep (piece :: piece' :: pieces))
          with (piece +:+ sep +:+ join sep (piece' :: pieces)).
        change (String a (piece +:+ ?s)) with (String a piece +:+ s).
        by apply string_prefix_app_l.
Qed.

(** A text that does not hold the separator is one piece. *)
Lemma split_from_free (sep text : string) :
  occurs sep text = false → split_from sep 0 text = [text].
Proof.
  induction text as [|a rest IH]; [done|].
  rewrite occurs_cons. intros [Hprefix Hrest]%orb_false_iff.
  by rewrite split_from_mismatch, IH.
Qed.

(** An occurrence of a separator of one character does not start in a text
    that is free of it and end in the separator that follows the text. *)
Lemma no_straddle (sep first rest : string) :
  one_character sep = true →
  first ≠ "" →
  String.prefix sep first = false →
  String.prefix sep (first +:+ sep +:+ rest) = false.
Proof.
  intros Hone Hfirst Hfree. apply not_true_iff_false. intros Hprefix.
  apply string_prefix_app_cases in Hprefix as [Hin|(u & Hsep & Hu)]; [congruence|].
  destruct sep as [|a0 conts]; [done|]. cbn [one_character] in Hone.
  apply andb_true_iff in Hone as [Ha0%negb_true_iff Hconts].
  destruct first as [|a first]; [done|].
  change (String a first +:+ u) with (String a (first +:+ u)) in Hsep.
  injection Hsep as <- ->.
  rewrite continuation_app in Hconts.
  apply andb_true_iff in Hconts as [_ Hu'].
  destruct u as [|c u].
  - rewrite string_app_nil_r, string_prefix_refl in Hfree. done.
  - cbn [continuation] in Hu'. apply andb_true_iff in Hu' as [Hc _].
    change ((String a0 (first +:+ String c u)) +:+ rest)
      with (String a0 ((first +:+ String c u) +:+ rest)) in Hu.
    rewrite string_prefix_cons in Hu.
    apply andb_true_iff in Hu as [->%bool_decide_eq_true _]. congruence.
Qed.

(** Two fields free of a separator of one character, joined by it, are the
    two pieces of the text. *)
Lemma split_from_pair (sep first second : string) :
  one_character sep = true →
  occurs sep first = false → occurs sep second = false →
  split_from sep 0 (first +:+ sep +:+ second) = [first; second].
Proof.
  intros Hone Hfirst Hsecond.
  assert (sep ≠ "") as Hsep by (by destruct sep).
  induction first as [|a first IH].
  - change ("" +:+ ?s) with s. by rewrite split_from_match, split_from_free.
  - rewrite occurs_cons in Hfirst.
    apply orb_false_iff in Hfirst as [Hprefix Hfirst].
    pose proof (no_straddle sep (String a first) second Hone ltac:(done) Hprefix)
      as Hstraddle.
    change (String a first +:+ ?s) with (String a (first +:+ s)) in *.
    by rewrite split_from_mismatch, IH.
Qed.

Lemma characters_continuation (a : ascii) (rest : string) :
  continuation rest = true → characters (String a rest) = [String a rest].
Proof.
  revert a. induction rest as [|b rest IH]; intros a; [done|].
  cbn [continuation]. intros [Hb Hrest]%andb_true_iff.
  change (characters (String a (String b rest)))
    with (if is_continuation b then
            match characters (String b rest) with
            | c :: cs => String a c :: cs
            | [] => [String a ""]
            end
          else String a "" :: characters (String b rest)).
  by rewrite Hb, IH.
Qed.

(** A [str] of one character has length one. *)
Lemma one_character_len (text : string) : one_character text = true → len text = 1.
Proof.
  destruct text as [|a rest]; [done|]. cbn [one_character].
  intros [_ Hrest]%andb_true_iff. unfold len. by rewrite characters_continuation.
Qed.

(** X21. [split_pair] with a delimiter that is a [str] of one character
    returns the pair (first, second) exactly for the texts made of [first],
    the delimiter and [second], where neither field holds the delimiter; for
    every other text it raises [ValueError]. *)
Theorem split_pair_str (re_split : string → string → list string) (sep text : string) :
  one_character sep = true →
  (∀ first second,
     split_pair re_split (Str sep) text = Ok (first, second)
     ↔ text = first +:+ sep +:+ second
       ∧ occurs sep first = false ∧ occurs sep second = false)
  ∧ ((∀ first second, split_pair re_split (Str sep) text ≠ Ok (first, second)) →
     split_pair re_split (Str sep) text = Raise ValueError).
Proof.
  intros Hone. assert (sep ≠ "") as Hsep by (by destruct sep).
  unfold split_pair, str_split. rewrite decide_False by done.
  cbn [mbind outcome_bind]. split.
  - intros first second.
    destruct (join_split_from sep (String.length text) text Hsep ltac:(done))
      as [Hjoin Hpieces].
    split.
    + destruct (split_from sep 0 text) as [|first' [|second' [|third rest]]]; try done.
      intros [= -> ->]. cbn [join] in Hjoin.
      apply Forall_cons in Hpieces as [Hfirst Hpieces].
      apply Forall_cons in Hpieces as [Hsecond _]. done.
    + intros (-> & Hfirst & Hsecond). by rewrite split_from_pair.
  - intros Hnot.
    destruct (split_from sep 0 text) as [|first' [|second' [|third rest]]]; try done.
    by destruct (Hnot first' second').
Qed.

(** A sample instance of [re.split], for texts in which the pattern does not
    occur. *)
Definition sample_re_split (source text : string) : list string := [text].

Lemma split_pair_str_witness :
  (∀ first second,
     split_pair sample_re_split (Str "→") "cat→kæt" = Ok (first, second)
     ↔ "cat→kæt" = first +:+ "→" +:+ second
       ∧ occurs "→" first = false ∧ occurs "→" second = false)
  ∧ ((∀ first second,
        split_pair sample_re_split (Str "→") "cat→kæt" ≠ Ok (first, second)) →
     split_pair sample_re_split (Str "→") "cat→kæt" = Raise ValueError).
Proof. apply (split_pair_str sample_re_split "→" "cat→kæt"). reflexivity. Defined.

(** ** Phonemes and stress *)

Definition PRIMARY_STRESS : Z := 1.
Definition SECONDARY_STRESS : Z := 2.
Definition NO_STRESS : Z := 0.

Definition IPA_PRIMARY_STRESS : string := "ˈ".
Definition IPA_SECONDARY_STRESS : string := "ˌ".

Abbreviation IPAWithStress := (string * option Z)%type (only parsing).
Abbreviation MaskedPhoneme := (string + bool)%type (only parsing).
Abbreviation WordData := (string * list (string * option Z))%type (only parsing).
Abbreviation WordDataIndex := (gmap (list (string + bool)) (list string))
  (only parsing).

(** [stress in [PRIMARY_STRESS, SECONDARY_STRESS]] *)
Definition has_stress (stress : option Z) : bool :=
  match stress with
  | Some n => (n =? PRIMARY_STRESS)%Z || (n =? SECONDARY_STRESS)%Z
  | None => false
  end.

Definition mask_phoneme (phoneme : IPAWithStress) : MaskedPhoneme :=
  let '(ipa, stress) := phoneme in
  match stress with
  | None => inl ipa
  | Some _ => inr (has_stress stress)
  end.

(** The body of the loop of [build_word_data_index] *)
Definition index_word (index : WordDataIndex) (word_data : WordData) : WordDataIndex :=
  let '(word, ipa_with_stress) := word_data in
  let key := map mask_phoneme ipa_with_stress in
  let index := if decide (key ∈ dom index) then index else <[key := []]> index in
  <[key := default [] (index !! key) ++ [word]]> index.

Definition build_word_data_index (data : list WordData) : WordDataIndex :=
  foldl index_word ∅ data.

Definition stress_to_ipa (stress : Z) : outcome string :=
  if (stress =? PRIMARY_STRESS)%Z then Ok IPA_PRIMARY_STRESS
  else if (stress =? SECONDARY_STRESS)%Z then Ok IPA_SECONDARY_STRESS
  else if (stress =? NO_STRESS)%Z then Ok ""
  else Raise ValueError.

(** The words of [data] whose phonemes have the masked key [key], in the
    order of [data]. *)
Definition words_masked (key : list MaskedPhoneme) (data : list WordData)
    : list string :=
  map fst (filter (fun word_data : WordData => map mask_phoneme word_data.2 = key) data).

Lemma foldl_index_word (data : list WordData) (index : WordDataIndex)
    (key : list MaskedPhoneme) :
  default [] (foldl index_word index data !! key)
  = default [] (index !! key) ++ words_masked key data
  ∧ (key ∈ dom (foldl index_word index data)
     ↔ key ∈ dom index ∨ words_masked key data ≠ []).
Proof.
  revert index. induction data as [|[word ipa_with_stress] data IH]; intros index.
  - cbn [foldl]. unfold words_masked. cbn. rewrite app_nil_r. split; [done|].
    split; [by left|]. by intros [?|?].
  - cbn [foldl]. destruct (IH (index_word index (word, ipa_with_stress)))
      as [Hbucket Hdom].
    rewrite Hbucket, Hdom. clear IH Hbucket Hdom.
    unfold words_masked. rewrite filter_cons. cbn [snd].
    unfold index_word.
    set (key' := map mask_phoneme ipa_with_stress).
    set (index' := if decide (key' ∈ dom index) then index else <[key' := []]> index).
    assert (default [] (index' !! key') = default [] (index !! key')) as Hsame.
    { unfold index'. destruct (decide (key' ∈ dom index)) as [|Hnot]; [done|].
      rewrite lookup_insert_eq. apply not_elem_of_dom in Hnot. by rewrite Hnot. }
    assert (∀ k, k ≠ key' → index' !! k = index !! k) as Hother.
    { intros k Hk. unfold index'. destruct (decide (key' ∈ dom index)); [done|].
      by rewrite lookup_insert_ne. }
    rewrite Hsame. destruct (decide (key' = key)) as [<-|Hne].
    + rewrite lookup_insert_eq. cbn [default from_option id map fst].
      rewrite <-app_assoc. split; [done|].
      rewrite dom_insert_L. split; [intros _; by right|].
      intros _. left. apply elem_of_union. left. by apply elem_of_singleton.
    + rewrite lookup_insert_ne, Hother by done. split; [done|].
      rewrite dom_insert_L, elem_of_union, elem_of_singleton.
      assert (key ∈ dom index' ↔ key ∈ dom index) as ->.
      { by rewrite !elem_of_dom, Hother. }
      split; [intros [[?|?]|?]|intros [?|?]]; try done; auto.
Qed.

(** X22. The index of [build_word_data_index] groups the words by the masked
    key of their phonemes: a key has an entry exactly when some word of
    [data] has it, and the entry lists the words that have it, in the order
    of [data], repetitions included. *)
Theorem build_word_data_index_groups (data : list WordData)
    (key : list MaskedPhoneme) :
  build_word_data_index data !! key
  = match words_masked key data with
    | [] => None
    | words => Some words
    end.
Proof.
  unfold build_word_data_index.
  destruct (foldl_index_word data ∅ key) as [Hbucket Hdom].
  rewrite lookup_empty in Hbucket. cbn [default from_option app] in Hbucket.
  rewrite dom_empty_L in Hdom.
  destruct (foldl index_word ∅ data !! key) as [words|] eqn:Hlookup.
  - cbn [from_option id] in Hbucket. subst words.
    destruct (words_masked key data) eqn:Hwords; [|done].
    apply elem_of_dom_2, Hdom in Hlookup as [[]%not_elem_of_empty|Hne]. done.
  - destruct (words_masked key data) eqn:Hwords; [done|].
    apply not_elem_of_dom in Hlookup. destruct Hlookup. apply Hdom. by right.
Qed.

(** ** The lines written by [run] *)

(** The loop of [run] that writes the entries: [entry_index] holds the
    entries written so far, and an entry is written when it is not in it.
    The value is the list of the entries written, in order. *)
Fixpoint write_entries (entry_index : gset string) (entries : list string)
    : list string :=
  match entries with
  | [] => []
  | entry :: rest =>
      if decide (entry ∉ entry_index) then
        entry :: write_entries (entry_index ∪ {[entry]}) rest
      else write_entries entry_index rest
  end.

Lemma write_entries_spec (entry_index : gset string) (entries : list string) :
  NoDup (write_entries entry_index entries)
  ∧ write_entries entry_index entries `sublist_of` entries
  ∧ ∀ entry, entry ∈ write_entries entry_index entries
             ↔ entry ∈ entries ∧ entry ∉ entry_index.
Proof.
  revert entry_index. induction entries as [|entry rest IH]; intros entry_index.
  - cbn. split_and!; [constructor|done|]. intros e. split; [by intros ?%not_elem_of_nil|].
    by intros [?%not_elem_of_nil _].
  - cbn [write_entries]. destruct (decide (entry ∉ entry_index)) as [Hnew|Hold].
    + destruct (IH (entry_index ∪ {[entry]})) as (Hnodup & Hsub & Hin).
      split_and!.
      * constructor; [|done]. rewrite Hin, not_elem_of_union, not_elem_of_singleton.
        by intros [_ [_ ?]].
      * by constructor.
      * intros e. rewrite !elem_of_cons, Hin, not_elem_of_union, not_elem_of_singleton.
        split; [intros [->|(? & ? & ?)]; auto|].
        intros [[->|?] ?]; [by left|]. destruct (decide (e = entry)); auto.
    + destruct (IH entry_index) as (Hnodup & Hsub & Hin).
      split_and!; [done|by constructor|].
      intros e. rewrite elem_of_cons, Hin. split; [intros [? ?]; auto|].
      intros [[->|?] ?]; [|done]. by destruct Hold.
Qed.

Lemma write_entries_union (entry_index written : gset string)
    (entries : list string) :
  write_entries (entry_index ∪ written) entries
  = filter (fun entry => entry ∉ written) (write_entries entry_index entries).
Proof.
  revert entry_index. induction entries as [|entry rest IH]; intros entry_index; [done|].
  cbn [write_entries].
  destruct (decide (entry ∉ entry_index ∪ written)) as [Hnew|Hold].
  - apply not_elem_of_union in Hnew as [Hindex Hwritten].
    rewrite decide_True, filter_cons_True by done. f_equal.
    rewrite <-IH. f_equal.
    by rewrite <-!(assoc_L (∪)), (comm_L (∪) written).
  - apply dec_stable in Hold.
    destruct (decide (entry ∉ entry_index)) as [Hindex|Hindex]; [|apply IH].
    apply elem_of_union in Hold as [?|Hwritten]; [done|].
    rewrite filter_cons_False by (by intros ?). rewrite <-IH. f_equal.
    rewrite <-(assoc_L (∪)). f_equal. symmetry.
    apply subseteq_union_1_L. by apply singleton_subseteq_l.
Qed.

(** X23. The entries that [run] writes: each is written once and every
    entry is written, in the order of the entries; an entry is written
    where it first occurs, so that the first entry is written first and the
    others follow as they would without it, its repetitions left out. *)
Theorem write_entries_once (entries : list string) :
  NoDup (write_entries ∅ entries)
  ∧ write_entries ∅ entries `sublist_of` entries
  ∧ (∀ entry, entry ∈ write_entries ∅ entries ↔ entry ∈ entries)
  ∧ ∀ entry rest,
      entries = entry :: rest →
      write_entries ∅ entries
      = entry :: filter (fun entry' => entry' ≠ entry) (write_entries ∅ rest).
Proof.
  destruct (write_entries_spec ∅ entries) as (Hnodup & Hsub & Hin).
  split_and!; [done..| |].
  - intros entry. rewrite Hin. split; [tauto|].
    intros ?. split; [done|]. apply not_elem_of_empty.
  - intros entry rest ->. cbn [write_entries].
    rewrite decide_True by apply not_elem_of_empty. f_equal.
    rewrite write_entries_union. apply filter_ext_in.
    intros entry' _. by rewrite not_elem_of_singleton.
Qed.

End CMUdict.

(** ** The warnings of the pattern evaluator *)

Lemma elem_of_warnings_for_each_indexed {A B} (f : nat → A → traced (list B))
    (items : list A) (start : nat) (found : list B) :
  result (for_each_indexed f start items) = Ok found →
  ∀ node, node ∈ warnings (for_each_indexed f start items)
          ↔ ∃ index item,
              items !! index = Some item ∧ node ∈ warnings (f (start + index) item).
Proof.
  revert start found. induction items as [|item rest IH]; intros start found.
  - intros _ node. split; [by intros ?%not_elem_of_nil|].
    by intros (index & item & ? & _).
  - cbn [for_each_indexed]. rewrite result_bind, warnings_bind.
    destruct (result (f start item)) as [ys|] eqn:Hitem; [|done].
    rewrite result_bind, warnings_bind.
    destruct (result (for_each_indexed f (S start) rest)) as [ys'|] eqn:Hrest; [|done].
    intros _ node. rewrite warnings_ret, app_nil_r, elem_of_app, (IH _ _ Hrest).
    split.
    + intros [Hnode|(index & item' & Hlookup & Hnode)].
      * exists 0, item. by rewrite Nat.add_0_r.
      * exists (S index), item'. by rewrite Nat.add_succ_r.
    + intros ([|index] & item' & Hlookup & Hnode).
      * left. rewrite Nat.add_0_r in Hnode. simpl in Hlookup. congruence.
      * right. exists index, item'. by rewrite Nat.add_succ_r in Hnode.
Qed.

Section EvaluatorWarnings.

Context (isupper : string → bool).

Lemma search_recursively_warnings (silently_ignore_none : bool) (path : list string)
    (node : json) (bindings : Bindings) (found : SearchResults) :
  result (search_recursively isupper silently_ignore_none path node bindings)
  = Ok found →
  ∀ leaf,
    leaf ∈ warnings (search_recursively isupper silently_ignore_none path node bindings)
    ↔ ∃ b, bindings ⊆ b
           ∧ dom b = dom bindings ∪ list_to_set (variables isupper path)
           ∧ follow isupper path b node = Some leaf
           ∧ is_str leaf = false
           ∧ silently_ignore_none && is_none leaf = false.
Proof.
  revert node bindings found.
  induction path as [|key path_tail IH]; intros node bindings found.
  - rewrite search_recursively_nil. cbn [follow].
    change (variables isupper []) with (@nil string).
    intros Hfound leaf. rewrite list_to_set_nil, (right_id_L ∅ (∪)).
    assert (leaf ∈ (if silently_ignore_none && is_none node then [] else [node])
            ↔ leaf = node ∧ silently_ignore_none && is_none node = false) as Hleaf.
    { destruct (silently_ignore_none && is_none node).
      - split; [by intros ?%not_elem_of_nil|by intros [_ ?]].
      - rewrite list_elem_of_singleton. tauto. }
    destruct node as [|flag|z|s|items|d]; cbn [warnings]; try rewrite Hleaf.
    4: { split; [by intros ?%not_elem_of_nil|].
         by intros (b' & _ & _ & [= <-] & ? & _). }
    all: split;
      [intros [-> Hflag]; exists bindings; by split_and!
      |intros (b' & _ & _ & [= <-] & _ & Hflag); by split].
  - rewrite search_recursively_cons, variables_cons. cbn [follow].
    destruct (is_variable_name isupper key) eqn:Hkey.
    + destruct (decide (key ∈ dom bindings)) as [|Hfresh]; [done|].
      destruct node as [| | | |items|];
        try (intros _ leaf; split;
             [by intros ?%not_elem_of_nil|by intros (b' & _ & _ & [=] & _)]).
      intros Hfound leaf. rewrite (elem_of_warnings_for_each_indexed _ _ _ _ Hfound).
      cbn [list_to_set]. split.
      * intros (index & item & Hlookup & Hleaf). cbn [Nat.add] in Hleaf.
        destruct (for_each_indexed_Ok_inv _ _ _ _ Hfound index item Hlookup)
          as [ys Hys]. cbn [Nat.add] in Hys.
        apply (IH _ _ _ Hys) in Hleaf as (b & Hsub & Hdom & Hfollow & Hstr & Hflag).
        assert (b !! key = Some index) as Hb
          by (eapply lookup_weaken; [apply lookup_insert_eq|done]).
        exists b. split_and!; [| | |done..].
        -- etrans; [|exact Hsub]. apply insert_subseteq. by apply not_elem_of_dom.
        -- rewrite Hdom, dom_insert_L. by rewrite (assoc_L (∪)), (comm_L (∪) {[key]}).
        -- by rewrite Hb, Hlookup.
      * intros (b & Hsub & Hdom & Hfollow & Hstr & Hflag).
        destruct (b !! key) as [index|] eqn:Hb; [|done].
        destruct (items !! index) as [item|] eqn:Hlookup; [|done].
        destruct (for_each_indexed_Ok_inv _ _ _ _ Hfound index item Hlookup)
          as [ys Hys].
        exists index, item. split; [done|]. cbn [Nat.add] in *.
        apply (IH _ _ _ Hys). exists b. split_and!; [| |done..].
        -- by apply insert_subseteq_l.
        -- rewrite Hdom, dom_insert_L. by rewrite (assoc_L (∪)), (comm_L (∪) {[key]}).
    + destruct node as [| | | | |d];
        try (intros _ leaf; split;
             [by intros ?%not_elem_of_nil|by intros (b' & _ & _ & [=] & _)]).
      destruct (d !! key) as [value|]; [apply IH|].
      intros _ leaf. split;
        [by intros ?%not_elem_of_nil|by intros (b' & _ & _ & [=] & _)].
Qed.

(** X24. When the evaluation of a pattern returns, the values it has warned
    about are the values that are not strings and that the segments lead to,
    from the root, under some bindings of the variables of the pattern;
    [None] is left out when the caller asked to ignore it silently. *)
Theorem search_values_warnings (pattern : SearchPattern) (data : json)
    (silently_ignore_none : bool) (found : SearchResults) :
  result (search_values isupper pattern data silently_ignore_none) = Ok found →
  ∀ leaf,
    leaf ∈ warnings (search_values isupper pattern data silently_ignore_none)
    ↔ ∃ b, dom b
           = list_to_set (variables isupper (split SEARCH_PATTERN_DELIMITER pattern))
           ∧ follow isupper (split SEARCH_PATTERN_DELIMITER pattern) b data = Some leaf
           ∧ is_str leaf = false
           ∧ silently_ignore_none && is_none leaf = false.
Proof.
  intros Hfound leaf. unfold search_values.
  rewrite (search_recursively_warnings _ _ _ _ _ Hfound).
  rewrite dom_empty_L, (left_id_L ∅ (∪)). split.
  - intros (b & _ & Hrest). by exists b.
  - intros (b & Hrest). exists b. split; [apply map_empty_subseteq|done].
Qed.

End EvaluatorWarnings.

Lemma search_values_warnings_witness :
  JNum 1 ∈ warnings (search_values ascii_isupper "N" (JList [JStr "a"; JNum 1; JNull]) true)
  ↔ ∃ b, dom b = list_to_set (variables ascii_isupper (split SEARCH_PATTERN_DELIMITER "N"))
         ∧ follow ascii_isupper (split SEARCH_PATTERN_DELIMITER "N") b
             (JList [JStr "a"; JNum 1; JNull])
           = Some (JNum 1)
         ∧ is_str (JNum 1) = false
         ∧ true && is_none (JNum 1) = false.
Proof.
  apply (search_values_warnings ascii_isupper "N"
           (JList [JStr "a"; JNum 1; JNull]) true [("a", {["N" := 0]})]).
  reflexivity.
Defined.

(** ** The order of the positions of a join *)

Lemma list_prod_cons_r {A B} (xs : list A) (y : B) (ys : list B) :
  list_prod xs (y :: ys) ≡ₚ map (fun x => (x, y)) xs ++ list_prod xs ys.
Proof.
  induction xs as [|x xs IH]; [done|].
  cbn [list_prod map app]. constructor. rewrite IH.
  rewrite !(assoc app). apply Permutation_app_tail, Permutation_app_comm.
Qed.

Lemma list_prod_swap {A B} (xs : list A) (ys : list B) :
  list_prod ys xs ≡ₚ map prod_swap (list_prod xs ys).
Proof.
  induction xs as [|x xs IH].
  - rewrite list_prod_nil_r. done.
  - rewrite list_prod_cons_r. cbn [list_prod]. rewrite map_app, map_map, IH. done.
Qed.

Lemma agree_on_sym (shared : gset string) (b1 b2 : Bindings) :
  agree_on shared b1 b2 ↔ agree_on shared b2 b1.
Proof. unfold agree_on, set_Forall. split; intros H v Hv; symmetry; by apply H. Qed.

Lemma uniform_elem (position_results : SearchResults) (r : SearchResult) :
  uniform position_results → r ∈ position_results →
  dom r.2 = position_variables_of position_results.
Proof. intros Huniform Hr. unfold uniform in Huniform. rewrite Forall_forall in Huniform. by apply Huniform. Qed.

(** X25. The join of two positions, each binding the same variables in all
    its results, does not depend on their order but for the order of the
    result: the tuples of the join of [B] and [A] are those of the join of
    [A] and [B], their two components exchanged, up to a permutation. *)
Theorem consolidate_results_swap (A B : SearchResults) :
  uniform A → uniform B →
  ∃ joined joined',
    consolidate_results [A; B] = Ok joined
    ∧ consolidate_results [B; A] = Ok joined'
    ∧ joined' ≡ₚ map reverse joined.
Proof.
  intros HA HB.
  destruct (decide (A = [] ∨ B = [])) as [Hempty|Hnonempty].
  - exists [], []. split_and!; [| |done].
    + by apply consolidate_results_two_empty.
    + apply consolidate_results_two_empty. tauto.
  - assert (A ≠ []) as HneA by tauto. assert (B ≠ []) as HneB by tauto.
    eexists _, _. split_and!.
    + apply consolidate_results_two; [done..| |].
      * intros a Ha. rewrite (uniform_elem A a HA Ha). apply intersection_subseteq_l.
      * intros b Hb. rewrite (uniform_elem B b HB Hb). apply intersection_subseteq_r.
    + apply consolidate_results_two; [done..| |].
      * intros b Hb. rewrite (uniform_elem B b HB Hb). apply intersection_subseteq_l.
      * intros a Ha. rewrite (uniform_elem A a HA Ha). apply intersection_subseteq_r.
    + cbn zeta. rewrite list_prod_swap, map_map.
      rewrite (comm_L (∩) (position_variables_of B)).
      set (shared := position_variables_of A ∩ position_variables_of B).
      induction (list_prod A B) as [|[a b] l IH]; [done|].
      cbn [map]. rewrite !filter_cons. cbn [prod_swap fst snd].
      destruct (decide (agree_on shared a.2 b.2)) as [Hagree|Hagree].
      * rewrite decide_True by (by apply agree_on_sym). cbn [map]. by constructor.
      * rewrite decide_False by (by rewrite agree_on_sym). done.
Qed.

Lemma consolidate_results_swap_witness :
  ∃ joined joined',
    consolidate_results
      [[("cats", {["N" := 0]}); ("cat's", {["N" := 1]})];
       [("plural", {["N" := 0; "M" := 0]})]]
    = Ok joined
    ∧ consolidate_results
        [[("plural", {["N" := 0; "M" := 0]})];
         [("cats", {["N" := 0]}); ("cat's", {["N" := 1]})]]
      = Ok joined'
    ∧ joined' ≡ₚ map reverse joined.
Proof.
  apply (consolidate_results_swap
           [("cats", {["N" := 0]}); ("cat's", {["N" := 1]})]
           [("plural", {["N" := 0; "M" := 0]})]);
    apply (bool_decide_unpack _); by vm_compute.
Defined.

(** ** Stress marks *)

(** X26. Every stress that [has_stress] accepts has a mark: [stress_to_ipa]
    returns a non-empty mark for it, and for the other stresses it returns
    the empty string, for [NO_STRESS], or raises [ValueError]. *)
Theorem stress_to_ipa_has_stress (stress : Z) :
  if CMUdict.has_stress (Some stress)
  then ∃ mark, CMUdict.stress_to_ipa stress = Ok mark ∧ mark ≠ ""
  else CMUdict.stress_to_ipa stress
       = if (stress =? CMUdict.NO_STRESS)%Z then Ok "" else Raise ValueError.
Proof.
  unfold CMUdict.has_stress, CMUdict.stress_to_ipa.
  destruct (stress =? CMUdict.PRIMARY_STRESS)%Z eqn:Hprimary; cbn [orb].
  - by eexists.
  - destruct (stress =? CMUdict.SECONDARY_STRESS)%Z eqn:Hsecondary; [by eexists|].
    by destruct (stress =? CMUdict.NO_STRESS)%Z.
Qed.

(** ** What a line leaves in the storage *)

Section Grows.

Context (isupper : string → bool).
Context (unicodedata_normalize : string → string → string).
Context (unicodedata_combining : string → nat).
Context (re_sub : string → string → string → string).
Context (re_fullmatch : string → bool → string → bool).
Context (strip : string → string).
Context (anyascii : string → string).
Context (lower : string → string).
Context (re_sub_ignorecase : string → string → string → string).

(** X27. The processing of a line, in a storage that has the three
    categories, raises no exception and removes nothing: every set of the
    storage it returns includes the set it was. *)
Theorem run_data_grows (latin : gset string) (storage : Storage) (data : json) :
  dom storage = dom initial_storage →
  ∃ storage',
    result (run_data isupper unicodedata_normalize unicodedata_combining re_sub
              re_fullmatch strip anyascii lower re_sub_ignorecase latin storage data)
    = Ok storage'
    ∧ ∀ category language,
        stored storage category language ⊆ stored storage' category language.
Proof.
  intros Hdom.
  destruct (run_data_is_Ok isupper unicodedata_normalize unicodedata_combining
              re_sub re_fullmatch strip anyascii lower re_sub_ignorecase
              latin storage data Hdom) as (storage' & Hstorage' & _).
  exists storage'. split; [done|]. revert Hstorage'.
  apply (run_data_preserves isupper unicodedata_normalize unicodedata_combining
           re_sub re_fullmatch strip anyascii lower re_sub_ignorecase
           (fun s => ∀ category language,
              stored storage category language ⊆ stored s category language)).
  - intros index s1 [[language' word] ipa] s2 Hs1. unfold add_ipa.
    destruct (negb _); [|by intros [= <-]].
    intros (_ & _ & Hstored)%add_entry_stored category language.
    rewrite Hstored. etrans; [apply Hs1|].
    destruct (decide _); [apply union_subseteq_l|done].
  - intros index s1 [[language' word] romanization] s2 Hs1. unfold add_romanization.
    destruct (decide (language' ∉ latin)); [|by intros [= <-]].
    destruct (add_entry s1 ROMANIZATION _) as [s1'|] eqn:Hadd1; [|done].
    cbn [mbind outcome_bind]. intros Hadd2 category language.
    apply add_entry_stored in Hadd1 as (_ & _ & Hstored1).
    apply add_entry_stored in Hadd2 as (_ & _ & Hstored2).
    rewrite Hstored2. etrans; [apply Hs1|]. etrans; [|by destruct (decide _);
      [apply union_subseteq_l|]].
    rewrite Hstored1. destruct (decide _); [apply union_subseteq_l|done].
  - done.
Qed.

End Grows.

Lemma run_data_grows_witness :
  ∃ storage',
    result (run_data ascii_isupper sample_normalize sample_combining sample_re_sub
              sample_re_fullmatch sample_strip sample_anyascii sample_lower
              sample_re_sub_ignorecase ∅ initial_storage sample_forms)
    = Ok storage'
    ∧ ∀ category language,
        stored initial_storage category language ⊆ stored storage' category language.
Proof.
  apply (run_data_grows ascii_isupper sample_normalize sample_combining sample_re_sub
           sample_re_fullmatch sample_strip sample_anyascii sample_lower
           sample_re_sub_ignorecase ∅ initial_storage sample_forms).
  reflexivity.
Defined.
